(** * str.h: a growable, NUL-terminated string buffer

    Shallow embedding of the single-header C library [str.h] and the
    properties its description states about it.

    Conventions of the embedding:
    - a [size_t] is a [Z] and every arithmetic operation of the source on
      a [size_t] is followed by [wrap] (reduction modulo 2^64);
    - a [char] is an [ascii]; the block behind [data] is a [list ascii]
      of [capacity] bytes; pointers into a block are offsets;
    - a nullable pointer is an [option]; a handle [str**] is the buffer
      it leads to, before and after the call; where a function works on a
      copy of the caller's pointer ([str_snake_case]), the address of the
      block is followed as well ([pointer]);
    - [malloc] and [realloc] draw their outcome from a [heap] that is
      threaded through the operations; fresh memory holds the heap's
      [junk] byte;
    - a loop of the source whose exit is not guaranteed carries a fuel
      counter and yields [Timeout] when the counter runs out. *)

From Stdlib Require Import ZArith List Ascii String Bool Lia.
Import ListNotations.
Local Open Scope Z_scope.

(** ** Machine integers *)

Definition size_modulus : Z := Eval vm_compute in 2 ^ 64.

(** Arithmetic on [size_t] is modulo 2^64. *)
Definition wrap (z : Z) : Z := z mod size_modulus.

(** Conversion of an integer value to [int] (two's complement, 32 bits). *)
Definition to_int (z : Z) : Z := (z + 2147483648) mod 4294967296 - 2147483648.

Definition STR_MIN_CAPACITY : Z := 16.
Definition STR_NPOS : Z := -1.

Definition MAX (a b : Z) : Z := if a >? b then a else b.
Definition MIN (a b : Z) : Z := if a <? b then a else b.

(** ** Characters and the C library (the "C" locale) *)

Definition NUL : ascii := Ascii.zero.

Definition code (c : ascii) : Z := Z.of_nat (nat_of_ascii c).

Definition isupper (c : ascii) : bool := (65 <=? code c) && (code c <=? 90).
Definition islower (c : ascii) : bool := (97 <=? code c) && (code c <=? 122).
Definition isspace (c : ascii) : bool :=
  (code c =? 32) || ((9 <=? code c) && (code c <=? 13)).
Definition tolower (c : ascii) : ascii :=
  if isupper c then ascii_of_nat (nat_of_ascii c + 32) else c.
Definition toupper (c : ascii) : ascii :=
  if islower c then ascii_of_nat (nat_of_ascii c - 32) else c.

(** A C string literal or [const char*] argument: its bytes. A zero byte,
    should the list hold one, ends the string. *)
Definition cstring := list ascii.

Definition lit (s : string) : cstring := list_ascii_of_string s.

(** The bytes a [char*] designates up to, and without, the first zero
    byte. The end of the block is read as a zero byte. *)
Fixpoint c_str (l : list ascii) : list ascii :=
  match l with
  | [] => []
  | c :: t => if (c =? NUL)%char then [] else c :: c_str t
  end.

(** The bytes of a C string followed by its terminator. *)
Definition c_bytes (l : cstring) : list ascii := c_str l ++ [NUL].

Definition strlen (l : list ascii) : Z := Z.of_nat (List.length (c_str l)).

Fixpoint strcmp (a b : list ascii) : Z :=
  match a, b with
  | x :: a', y :: b' =>
      if (x =? y)%char
      then if (x =? NUL)%char then 0 else strcmp a' b'
      else code x - code y
  | [], y :: _ => 0 - code y
  | x :: _, [] => code x
  | [], [] => 0
  end.

Fixpoint is_prefix (p l : list ascii) : bool :=
  match p, l with
  | [], _ => true
  | x :: p', y :: l' => (x =? y)%char && is_prefix p' l'
  | _ :: _, [] => false
  end.

(** [strncmp(p, q, n) == 0] where [q] is a C string of length [n]:
    the first [n] bytes of [p] are those of [q]. *)
Definition strncmp_eq (p q : list ascii) (n : Z) : bool :=
  is_prefix (firstn (Z.to_nat n) (c_str q)) (c_str p).

(** [memcmp(p, q, n) == 0]: both blocks hold [n] bytes and these are
    equal. *)
Definition memcmp_eq (p q : list ascii) (n : Z) : bool :=
  let k := Z.to_nat n in
  (k <=? List.length p)%nat && (k <=? List.length q)%nat &&
  is_prefix (firstn k q) p.

Fixpoint find_sub (hay needle : list ascii) : option nat :=
  match hay with
  | [] => if is_prefix needle [] then Some O else None
  | _ :: t =>
      if is_prefix needle hay then Some O
      else option_map S (find_sub t needle)
  end.

(** [strstr(hay, needle)]: the offset from [hay] of the first occurrence
    of the string [needle] in the string [hay]; [None] is the null result. *)
Definition strstr (hay needle : list ascii) : option Z :=
  option_map Z.of_nat (find_sub (c_str hay) (c_str needle)).

(** ** Blocks of memory *)

(** Reads and writes inside a block are those of C. Outside the block,
    where C leaves the behaviour undefined, a read yields a zero byte and
    a write is whatever [splice] makes of it; the properties below are
    stated for accesses inside the block. *)

Definition peek (d : list ascii) (i : Z) : ascii := nth (Z.to_nat i) d NUL.

(** The bytes from offset [i] on (the pointer [d + i]). *)
Definition at_off (d : list ascii) (i : Z) : list ascii := skipn (Z.to_nat i) d.

Definition splice (dst : list ascii) (off : nat) (src : list ascii) : list ascii :=
  firstn off dst ++ src ++ skipn (off + List.length src) dst.

(** [memcpy(dst + off, src, n)]. *)
Definition memcpy (dst : list ascii) (off : Z) (src : list ascii) (n : Z) : list ascii :=
  splice dst (Z.to_nat off) (firstn (Z.to_nat n) src).

(** [memmove(d + to, d + from, n)]: the source is read before the write. *)
Definition memmove (d : list ascii) (to from n : Z) : list ascii :=
  memcpy d to (at_off d from) n.

(** [memset(d + off, c, n)]. *)
Definition memset (d : list ascii) (off : Z) (c : ascii) (n : Z) : list ascii :=
  splice d (Z.to_nat off) (repeat c (Z.to_nat n)).

(** [d[i] = c]. *)
Definition poke (d : list ascii) (i : Z) (c : ascii) : list ascii :=
  splice d (Z.to_nat i) [c].

(** ** The allocator and the result of running an operation *)

Record heap := mk_heap {
  script : list bool;  (* outcome of the coming requests; none left: success *)
  junk : ascii         (* the byte found in memory never written *)
}.

Inductive run (A : Type) : Type :=
| Returns (a : A)
| Timeout              (* a loop was still running when the fuel ran out *)
| Trap.                (* null dereference or division by zero *)
Arguments Returns {A} a.
Arguments Timeout {A}.
Arguments Trap {A}.

Definition M (A : Type) : Type := heap -> run (A * heap).

Definition ret {A} (a : A) : M A := fun h => Returns (a, h).

Definition bind {A B} (m : M A) (k : A -> M B) : M B :=
  fun h =>
    match m h with
    | Returns (a, h') => k a h'
    | Timeout => Timeout
    | Trap => Trap
    end.

Definition timeout {A} : M A := fun _ => Timeout.
Definition trap {A} : M A := fun _ => Trap.

Notation "x <- m ;; k" := (bind m (fun x => k))
  (at level 61, m at next level, right associativity).

Definition next_request (h : heap) : bool * heap :=
  match script h with
  | [] => (true, h)
  | b :: rest => (b, {| script := rest; junk := junk h |})
  end.

Definition malloc (n : Z) : M (option (list ascii)) :=
  fun h =>
    let (ok, h') := next_request h in
    Returns (if ok then Some (repeat (junk h) (Z.to_nat n)) else None, h').

Definition realloc (d : list ascii) (n : Z) : M (option (list ascii)) :=
  fun h =>
    let (ok, h') := next_request h in
    Returns
      (if ok
       then Some (firstn (Z.to_nat n) d
                  ++ repeat (junk h) (Z.to_nat n - List.length d))
       else None, h').

(** ** The buffer *)

Record str := mk_str {
  length : Z;          (* size_t length *)
  capacity : Z;        (* size_t capacity *)
  data : list ascii    (* char data[] *)
}.

Definition set_data (s : str) (d : list ascii) : str :=
  {| length := length s; capacity := capacity s; data := d |}.

Definition set_length (s : str) (n : Z) : str :=
  {| length := n; capacity := capacity s; data := data s |}.

(** ** Creation *)

Fixpoint str_round_capacity_loop (fuel : nat) (result cap : Z) : option Z :=
  match fuel with
  | O => None
  | S fuel' =>
      if result <? cap
      then str_round_capacity_loop fuel' (wrap (result * 2)) cap
      else Some result
  end.

(** Sixty doublings take [result] from 16 to 2^64, which wraps to 0; from
    there on the loop never exits (see [str_round_capacity_hangs]). *)
Definition str_round_capacity (cap : Z) : option Z :=
  str_round_capacity_loop 64 STR_MIN_CAPACITY cap.

Definition str_new (cap : Z) : M (option str) :=
  match str_round_capacity (MAX cap 1) with
  | None => timeout
  | Some c =>
      m <- malloc c ;;
      ret (match m with
           | Some block =>
               Some {| length := 0; capacity := c; data := poke block 0 NUL |}
           | None => None
           end)
  end.

Definition str_from (cstr : option cstring) : M (option str) :=
  match cstr with
  | None => ret None
  | Some cs =>
      let len := strlen cs in
      s <- str_new (wrap (len + 1)) ;;
      ret (match s with
           | Some s0 =>
               Some {| length := len; capacity := capacity s0;
                       data := memcpy (data s0) 0 (c_bytes cs) (wrap (len + 1)) |}
           | None => None
           end)
  end.

(** One call of [vsnprintf] for a fixed format and argument list: the
    value it returns and the bytes it stores at the destination. The
    C library is outside the repository; the operations take the call as
    a function of the destination size. *)
Record fmt_pass := mk_pass {
  fmt_ret : Z;
  fmt_out : list ascii
}.

(** The behaviour the C standard prescribes when formatting yields the
    text [t]: the text and a terminator, cut to fit [n] bytes. *)
Definition vsnprintf_text (t : cstring) (n : Z) : fmt_pass :=
  {| fmt_ret := strlen t;
     fmt_out := if n <=? 0 then [] else firstn (Z.to_nat (n - 1)) (c_str t) ++ [NUL] |}.

Definition store_pass (d : list ascii) (off : Z) (p : fmt_pass) : list ascii :=
  splice d (Z.to_nat off) (fmt_out p).

(** [size] is an [int] and so is [size + 1], which [str_new] receives
    converted to [size_t]. At [INT_MAX] the sum overflows; the embedding
    takes the two's-complement result the usual compilers produce, a
    request of 2^64 - 2^31 bytes (see [str_format_int_max]). *)
Definition str_format (vsnprintf : Z -> fmt_pass) : M (option str) :=
  let size := fmt_ret (vsnprintf 0) in
  if size <? 0 then ret None
  else
    s <- str_new (wrap (to_int (size + 1))) ;;
    match s with
    | None => ret None
    | Some s0 =>
        let pass := vsnprintf (capacity s0) in
        let written := fmt_ret pass in
        let d := store_pass (data s0) 0 pass in
        if (written <? 0) || (written >=? capacity s0)
        then
          let len := wrap (capacity s0 - 1) in
          ret (Some {| length := len; capacity := capacity s0;
                       data := poke d len NUL |})
        else
          ret (Some {| length := written; capacity := capacity s0; data := d |})
    end.

(** ** Information *)

Definition str_len (s : option str) : Z :=
  match s with Some s0 => length s0 | None => 0 end.

Definition str_capacity (s : option str) : Z :=
  match s with Some s0 => capacity s0 | None => 0 end.

Definition str_empty (s : option str) : bool :=
  match s with Some s0 => length s0 =? 0 | None => true end.

(** The handle [str** s] is modelled by the buffer it leads to ([None]
    when the handle or the buffer is null); the second component of the
    result is the buffer the handle leads to afterwards. *)
Definition str_ensure_capacity (s : option str) (cap : Z) : M (bool * option str) :=
  match s with
  | None => ret (false, None)
  | Some s0 =>
      if capacity s0 >=? cap then ret (true, s)
      else
        match str_round_capacity cap with
        | None => timeout
        | Some c =>
            m <- realloc (data s0) c ;;
            match m with
            | None => ret (false, s)
            | Some block =>
                ret (true, Some {| length := length s0; capacity := c;
                                   data := block |})
            end
        end
  end.

(** ** Modification *)

Definition str_append (s : option str) (append : option cstring)
  : M (bool * option str) :=
  match s, append with
  | Some s0, Some a =>
      let append_len := strlen a in
      r <- str_ensure_capacity s (wrap (length s0 + append_len + 1)) ;;
      match r with
      | (true, Some s1) =>
          let d := memcpy (data s1) (length s1) (c_bytes a) (wrap (append_len + 1)) in
          ret (true, Some {| length := wrap (length s1 + append_len);
                             capacity := capacity s1; data := d |})
      | (_, s1) => ret (false, s1)
      end
  | _, _ => ret (false, s)
  end.

Definition str_append_fmt (vsnprintf : Z -> fmt_pass) (s : option str)
  : M (bool * option str) :=
  let size := fmt_ret (vsnprintf 0) in
  if size <? 0 then ret (false, s)
  else
    match s with
    | None => trap
    | Some s0 =>
        r <- str_ensure_capacity s (wrap (length s0 + size + 1)) ;;
        match r with
        | (true, Some s1) =>
            let pass := vsnprintf (size + 1) in
            let written := fmt_ret pass in
            let d := store_pass (data s1) (length s1) pass in
            if (written <? 0) || (written >=? size)
            then
              let len := wrap (length s1 + size) in
              ret (true, Some {| length := len; capacity := capacity s1;
                                 data := poke d len NUL |})
            else
              ret (true, Some {| length := wrap (length s1 + written);
                                 capacity := capacity s1; data := d |})
        | (_, s1) => ret (false, s1)
        end
    end.

Definition str_append_char (s : option str) (c : ascii) : M (bool * option str) :=
  match s with
  | None => ret (false, s)
  | Some s0 =>
      r <- str_ensure_capacity s (wrap (length s0 + 2)) ;;
      match r with
      | (true, Some s1) =>
          let d := poke (data s1) (length s1) c in
          let len := wrap (length s1 + 1) in
          ret (true, Some {| length := len; capacity := capacity s1;
                             data := poke d len NUL |})
      | (_, s1) => ret (false, s1)
      end
  end.

Definition str_prepend (s : option str) (prepend : option cstring)
  : M (bool * option str) :=
  match s, prepend with
  | Some s0, Some pre =>
      let prepend_len := strlen pre in
      r <- str_ensure_capacity s (wrap (length s0 + prepend_len + 1)) ;;
      match r with
      | (true, Some s1) =>
          let d := memmove (data s1) prepend_len 0 (wrap (length s1 + 1)) in
          let d := memcpy d 0 (c_bytes pre) prepend_len in
          ret (true, Some {| length := wrap (length s1 + prepend_len);
                             capacity := capacity s1; data := d |})
      | (_, s1) => ret (false, s1)
      end
  | _, _ => ret (false, s)
  end.

Definition str_insert (s : option str) (index : Z) (insert : option cstring)
  : M (bool * option str) :=
  match s, insert with
  | Some s0, Some ins =>
      if index >? length s0 then ret (false, s)
      else
        let insert_len := strlen ins in
        r <- str_ensure_capacity s (wrap (length s0 + insert_len + 1)) ;;
        match r with
        | (true, Some s1) =>
            let d := memmove (data s1) (wrap (index + insert_len)) index
                             (wrap (length s1 - index + 1)) in
            let d := memcpy d index (c_bytes ins) insert_len in
            ret (true, Some {| length := wrap (length s1 + insert_len);
                               capacity := capacity s1; data := d |})
        | (_, s1) => ret (false, s1)
        end
  | _, _ => ret (false, s)
  end.

Definition str_remove (s : option str) (index count : Z) : bool * option str :=
  match s with
  | None => (false, s)
  | Some s0 =>
      if index >=? length s0 then (false, s)
      else
        let count := MIN count (wrap (length s0 - index)) in
        let d := memmove (data s0) index (wrap (index + count))
                         (wrap (length s0 - index - count + 1)) in
        (true, Some {| length := wrap (length s0 - count);
                       capacity := capacity s0; data := d |})
  end.

Definition str_clear (s : option str) : option str :=
  match s with
  | None => None
  | Some s0 =>
      Some {| length := 0; capacity := capacity s0; data := poke (data s0) 0 NUL |}
  end.

(** The loop of [str_remove_all]; [p] is the offset of the pointer [p]
    from [data]. *)
Fixpoint str_remove_all_loop (fuel : nat) (substr : cstring) (substr_len : Z)
    (d : list ascii) (len p count : Z) : run (list ascii * Z * Z) :=
  match fuel with
  | O => Timeout
  | S fuel' =>
      match strstr (at_off d p) substr with
      | None => Returns (d, len, count)
      | Some k =>
          let p := p + k in
          let d := memmove d p (p + substr_len)
                           (wrap (len - p - substr_len + 1)) in
          str_remove_all_loop fuel' substr substr_len d
            (wrap (len - substr_len)) p (wrap (count + 1))
      end
  end.

(** Returns the count and the buffer behind the handle afterwards. *)
Definition str_remove_all (fuel : nat) (s : option str) (substr : option cstring)
  : run (Z * option str) :=
  match s, substr with
  | Some s0, Some sub =>
      match str_remove_all_loop fuel sub (strlen sub) (data s0) (length s0) 0 0 with
      | Returns (d, len, count) =>
          Returns (count, Some {| length := len; capacity := capacity s0; data := d |})
      | Timeout => Timeout
      | Trap => Trap
      end
  | _, _ => Returns (0, s)
  end.

Definition str_resize (s : option str) (new_length : Z) : M (bool * option str) :=
  match s with
  | None => ret (false, s)
  | Some s0 =>
      r <- str_ensure_capacity s (wrap (new_length + 1)) ;;
      match r with
      | (true, Some s1) =>
          let d := if new_length >? length s1
                   then memset (data s1) (length s1) NUL
                               (wrap (new_length - length s1))
                   else data s1 in
          ret (true, Some {| length := new_length; capacity := capacity s1;
                             data := poke d new_length NUL |})
      | (_, s1) => ret (false, s1)
      end
  end.

(** ** Access, comparison and search *)

Definition str_at (s : option str) (index : Z) : ascii :=
  match s with
  | Some s0 => if index <? length s0 then peek (data s0) index else NUL
  | None => NUL
  end.

Definition str_compare (s1 s2 : option str) : Z :=
  match s1, s2 with
  | Some a, Some b => strcmp (data a) (data b)
  | None, None => 0
  | Some _, None => 1
  | None, Some _ => -1
  end.

Definition str_equals (s1 s2 : option str) : bool := str_compare s1 s2 =? 0.

Definition str_starts_with (s : option str) (prefix : option cstring) : bool :=
  match s, prefix with
  | Some s0, Some pre =>
      let prefix_len := strlen pre in
      (length s0 >=? prefix_len) && memcmp_eq (data s0) (c_str pre) prefix_len
  | _, _ => false
  end.

Definition str_ends_with (s : option str) (suffix : option cstring) : bool :=
  match s, suffix with
  | Some s0, Some suf =>
      let suffix_len := strlen suf in
      (length s0 >=? suffix_len)
      && memcmp_eq (at_off (data s0) (wrap (length s0 - suffix_len)))
                   (c_str suf) suffix_len
  | _, _ => false
  end.

Definition str_find (s : option str) (substr : option cstring) : Z :=
  match s, substr with
  | Some s0, Some sub =>
      match strstr (data s0) sub with
      | Some found => to_int found
      | None => STR_NPOS
      end
  | _, _ => STR_NPOS
  end.

(** The [for] loop of [str_rfind], [i] running down to 1. *)
Fixpoint str_rfind_loop (i : nat) (d : list ascii) (sub : cstring) (substr_len : Z) : Z :=
  match i with
  | O => STR_NPOS
  | S j =>
      if memcmp_eq (skipn j d) sub substr_len
      then to_int (Z.of_nat j)
      else str_rfind_loop j d sub substr_len
  end.

Definition str_rfind (s : option str) (substr : option cstring) : Z :=
  match s, substr with
  | Some s0, Some sub =>
      if (peek sub 0 =? NUL)%char then STR_NPOS
      else
        let substr_len := strlen sub in
        if substr_len >? length s0 then STR_NPOS
        else str_rfind_loop (Z.to_nat (wrap (length s0 - substr_len + 1)))
                            (data s0) (c_str sub) substr_len
  | _, _ => STR_NPOS
  end.

(** ** Transformation *)

(** The loops [for (i = 0; i < s->length; ++i)] whose body leaves the
    length alone run [length] times; [n] counts the rounds left. *)
Fixpoint str_to_lower_loop (n : nat) (d : list ascii) (len i : Z) : list ascii :=
  match n with
  | O => d
  | S n' =>
      if i <? len
      then str_to_lower_loop n' (poke d i (tolower (peek d i))) len (wrap (i + 1))
      else d
  end.

Definition str_to_lower (s : option str) : option str :=
  match s with
  | None => None
  | Some s0 =>
      Some (set_data s0
              (str_to_lower_loop (Z.to_nat (length s0)) (data s0) (length s0) 0))
  end.

Fixpoint str_to_upper_loop (n : nat) (d : list ascii) (len i : Z) : list ascii :=
  match n with
  | O => d
  | S n' =>
      if i <? len
      then str_to_upper_loop n' (poke d i (toupper (peek d i))) len (wrap (i + 1))
      else d
  end.

Definition str_to_upper (s : option str) : option str :=
  match s with
  | None => None
  | Some s0 =>
      Some (set_data s0
              (str_to_upper_loop (Z.to_nat (length s0)) (data s0) (length s0) 0))
  end.

(** The loop of [str_snake_case]. The buffer is the one the function's
    own pointer [s] designates: [str_insert] receives the address of that
    parameter, and its result is not looked at. *)
Fixpoint str_snake_case_loop (fuel : nat) (s : str) (i : Z) : M str :=
  match fuel with
  | O => if i <? length s then timeout else ret s
  | S fuel' =>
      if i <? length s then
        if isupper (peek (data s) i) then
          let s1 := set_data s (poke (data s) i (tolower (peek (data s) i))) in
          if i >? 0 then
            r <- str_insert (Some s1) i (Some (lit "_")) ;;
            let s2 := match snd r with Some s' => s' | None => s1 end in
            str_snake_case_loop fuel' s2 (wrap (wrap (i + 1) + 1))
          else str_snake_case_loop fuel' s1 (wrap (i + 1))
        else str_snake_case_loop fuel' s (wrap (i + 1))
      else ret s
  end.

(** Every round moves [i] at least one byte closer to the length, so
    [length] rounds are enough (see [str_snake_case_loop_fuel]). *)
Definition str_snake_case (s : option str) : M (option str) :=
  match s with
  | None => ret None
  | Some s0 =>
      s' <- str_snake_case_loop (Z.to_nat (length s0)) s0 0 ;;
      ret (Some s')
  end.

(** ** The pointer [str_snake_case] is given

    [str_snake_case] takes its buffer as [str* s], a copy of the caller's
    pointer, and calls [str_insert(&s, ...)] on that copy. When [realloc]
    moves the block the copy follows it, and the caller's pointer is left
    on the block [realloc] has freed. To follow the caller's pointer, a
    pointer is the address of a block together with the block, and
    [place] is the allocator's choice of the address at which a block it
    has grown ends up: the address it had, when the block is grown where
    it is. *)
Record pointer := mk_pointer {
  address : nat;
  target : str
}.

(** [str_ensure_capacity] on a handle that leads to the pointer [p]; the
    second component of the result is the pointer the handle leads to
    afterwards. *)
Definition str_ensure_capacity_at (place : nat -> nat) (p : pointer) (cap : Z)
  : M (bool * pointer) :=
  if capacity (target p) >=? cap then ret (true, p)
  else
    match str_round_capacity cap with
    | None => timeout
    | Some c =>
        m <- realloc (data (target p)) c ;;
        match m with
        | None => ret (false, p)
        | Some block =>
            ret (true, {| address := place (address p);
                          target := {| length := length (target p); capacity := c;
                                       data := block |} |})
        end
    end.

(** [str_insert] on a handle that leads to the pointer [p]. *)
Definition str_insert_at (place : nat -> nat) (p : pointer) (index : Z)
  (ins : cstring) : M (bool * pointer) :=
  if index >? length (target p) then ret (false, p)
  else
    let insert_len := strlen ins in
    r <- str_ensure_capacity_at place p (wrap (length (target p) + insert_len + 1)) ;;
    match r with
    | (true, p1) =>
        let s1 := target p1 in
        let d := memmove (data s1) (wrap (index + insert_len)) index
                         (wrap (length s1 - index + 1)) in
        let d := memcpy d index (c_bytes ins) insert_len in
        ret (true, {| address := address p1;
                      target := {| length := wrap (length s1 + insert_len);
                                   capacity := capacity s1; data := d |} |})
    | (false, p1) => ret (false, p1)
    end.

(** The loop of [str_snake_case] on the function's own pointer. *)
Fixpoint str_snake_case_at_loop (place : nat -> nat) (fuel : nat) (p : pointer) (i : Z)
  : M pointer :=
  match fuel with
  | O => if i <? length (target p) then timeout else ret p
  | S fuel' =>
      if i <? length (target p) then
        if isupper (peek (data (target p)) i) then
          let p1 := {| address := address p;
                       target := set_data (target p)
                                   (poke (data (target p)) i
                                      (tolower (peek (data (target p)) i))) |} in
          if i >? 0 then
            r <- str_insert_at place p1 i (lit "_") ;;
            str_snake_case_at_loop place fuel' (snd r) (wrap (wrap (i + 1) + 1))
          else str_snake_case_at_loop place fuel' p1 (wrap (i + 1))
        else str_snake_case_at_loop place fuel' p (wrap (i + 1))
      else ret p
  end.

(** [str_snake_case]: the value of the function's own pointer at exit. *)
Definition str_snake_case_at (place : nat -> nat) (p : option pointer)
  : M (option pointer) :=
  match p with
  | None => ret None
  | Some p0 =>
      q <- str_snake_case_at_loop place (Z.to_nat (length (target p0))) p0 0 ;;
      ret (Some q)
  end.

(** What a pointer designates after a call that received a copy of it:
    the block, or memory that has been freed. *)
Inductive held : Type :=
| Live (s : str)
| Freed.

(** [str_snake_case(p)] as its caller sees it: the caller's pointer has
    kept its value; it designates the buffer the function has worked on
    when that buffer lies at the same address, and freed memory
    otherwise. *)
Definition str_snake_case_caller (place : nat -> nat) (p : option pointer)
  : M (option held) :=
  q <- str_snake_case_at place p ;;
  ret (match p, q with
       | Some p0, Some q0 =>
           Some (if (address q0 =? address p0)%nat then Live (target q0) else Freed)
       | _, _ => None
       end).

Definition space : ascii := " "%char.
Definition underscore : ascii := "_"%char.

Fixpoint str_camel_case_loop (n : nat) (d : list ascii) (len read write : Z)
    (capitalize_next : bool) : list ascii * Z :=
  match n with
  | O => (d, write)
  | S n' =>
      if read <? len then
        let c := peek d read in
        let read := wrap (read + 1) in
        if (c =? space)%char || (c =? underscore)%char then
          str_camel_case_loop n' d len read write true
        else if capitalize_next then
          str_camel_case_loop n' (poke d write (toupper c)) len read
                              (wrap (write + 1)) false
        else
          str_camel_case_loop n' (poke d write (tolower c)) len read
                              (wrap (write + 1)) capitalize_next
      else (d, write)
  end.

Definition str_camel_case (s : option str) : option str :=
  match s with
  | None => None
  | Some s0 =>
      if length s0 =? 0 then s
      else
        let d := poke (data s0) 0 (tolower (peek (data s0) 0)) in
        let (d, write) :=
          str_camel_case_loop (Z.to_nat (length s0)) d (length s0) 1 1 false in
        Some {| length := write; capacity := capacity s0;
                data := poke d write NUL |}
  end.

Fixpoint str_pascal_case_loop (n : nat) (d : list ascii) (len read write : Z)
    (new_word : bool) : list ascii * Z :=
  match n with
  | O => (d, write)
  | S n' =>
      if read <? len then
        let c := peek d read in
        let read := wrap (read + 1) in
        if (c =? space)%char || (c =? underscore)%char then
          str_pascal_case_loop n' d len read write true
        else if new_word then
          str_pascal_case_loop n' (poke d write (toupper c)) len read
                               (wrap (write + 1)) false
        else if isupper c && (read <? len) && islower (peek d read) then
          str_pascal_case_loop n' (poke d write c) len read
                               (wrap (write + 1)) false
        else
          str_pascal_case_loop n' (poke d write (tolower c)) len read
                               (wrap (write + 1)) new_word
      else (d, write)
  end.

Definition str_pascal_case (s : option str) : option str :=
  match s with
  | None => None
  | Some s0 =>
      if length s0 =? 0 then s
      else
        let (d, write) :=
          str_pascal_case_loop (Z.to_nat (length s0)) (data s0) (length s0) 0 0 true in
        Some {| length := write; capacity := capacity s0;
                data := poke d write NUL |}
  end.

(** [while (start < s->length && isspace(s->data[start])) ++start;] *)
Fixpoint skip_leading (n : nat) (d : list ascii) (len start : Z) : Z :=
  match n with
  | O => start
  | S n' =>
      if (start <? len) && isspace (peek d start)
      then skip_leading n' d len (wrap (start + 1))
      else start
  end.

(** [while (end > start && isspace(s->data[end])) --end;] with [start]
    being 0 in [str_rtrim]. *)
Fixpoint skip_trailing (n : nat) (d : list ascii) (start e : Z) : Z :=
  match n with
  | O => e
  | S n' =>
      if (e >? start) && isspace (peek d e)
      then skip_trailing n' d start (wrap (e - 1))
      else e
  end.

Definition str_trim (s : option str) : option str :=
  match s with
  | None => None
  | Some s0 =>
      if length s0 =? 0 then s
      else
        let start := skip_leading (Z.to_nat (length s0)) (data s0) (length s0) 0 in
        let e := skip_trailing (Z.to_nat (length s0)) (data s0) start
                               (wrap (length s0 - 1)) in
        let len := wrap (e - start + 1) in
        let d := memmove (data s0) 0 start len in
        Some {| length := len; capacity := capacity s0; data := poke d len NUL |}
  end.

Definition str_rtrim (s : option str) : option str :=
  match s with
  | None => None
  | Some s0 =>
      if length s0 =? 0 then s
      else
        let e := skip_trailing (Z.to_nat (length s0)) (data s0) 0
                               (wrap (length s0 - 1)) in
        let len := wrap (e + 1) in
        Some {| length := len; capacity := capacity s0;
                data := poke (data s0) len NUL |}
  end.

Definition str_ltrim (s : option str) : option str :=
  match s with
  | None => None
  | Some s0 =>
      if length s0 =? 0 then s
      else
        let start := skip_leading (Z.to_nat (length s0)) (data s0) (length s0) 0 in
        let len := wrap (length s0 - start) in
        let d := memmove (data s0) 0 start len in
        Some {| length := len; capacity := capacity s0; data := poke d len NUL |}
  end.

(** ** Substrings and replacements *)

Definition str_substr (s : option str) (start len : Z) : M (option str) :=
  match s with
  | None => ret None
  | Some s0 =>
      if start >=? length s0 then ret None
      else
        let len := MIN len (wrap (length s0 - start)) in
        r <- str_new (wrap (len + 1)) ;;
        ret (match r with
             | Some r0 =>
                 let d := memcpy (data r0) 0 (at_off (data s0) start) len in
                 Some {| length := len; capacity := capacity r0;
                         data := poke d len NUL |}
             | None => None
             end)
  end.

(** [while ((p = strstr(p, old))) { ++count; p += old_len; }] *)
Fixpoint replace_count_loop (fuel : nat) (d : list ascii) (old : cstring)
    (old_len p count : Z) : run Z :=
  match fuel with
  | O => Timeout
  | S fuel' =>
      match strstr (at_off d p) old with
      | None => Returns count
      | Some k =>
          replace_count_loop fuel' d old old_len (p + k + old_len) (wrap (count + 1))
      end
  end.

(** [while ( *p ) { ... }]: [p] walks the source [d], [dest] the block
    [rd] of the result. *)
Fixpoint replace_copy_loop (fuel : nat) (d : list ascii) (old new : cstring)
    (old_len new_len p : Z) (rd : list ascii) (dest : Z) : run (list ascii * Z) :=
  match fuel with
  | O => Timeout
  | S fuel' =>
      if (peek d p =? NUL)%char then Returns (rd, dest)
      else if strncmp_eq (at_off d p) old old_len then
        replace_copy_loop fuel' d old new old_len new_len (p + old_len)
          (memcpy rd dest (c_bytes new) new_len) (dest + new_len)
      else
        replace_copy_loop fuel' d old new old_len new_len (p + 1)
          (poke rd dest (peek d p)) (dest + 1)
  end.

Definition lift {A} (r : run A) : M A :=
  fun h =>
    match r with
    | Returns a => Returns (a, h)
    | Timeout => Timeout
    | Trap => Trap
    end.

Definition str_replace (fuel : nat) (s : option str) (old new : option cstring)
  : M (option str) :=
  match s, old, new with
  | Some s0, Some o, Some n =>
      let old_len := strlen o in
      let new_len := strlen n in
      count <- lift (replace_count_loop fuel (data s0) o old_len 0 0) ;;
      let result_len := wrap (length s0 + count * (new_len - old_len)) in
      r <- str_new (wrap (result_len + 1)) ;;
      match r with
      | None => ret None
      | Some r0 =>
          out <- lift (replace_copy_loop fuel (data s0) o n old_len new_len 0
                                         (data r0) 0) ;;
          ret (Some {| length := result_len; capacity := capacity r0;
                       data := poke (fst out) (snd out) NUL |})
      end
  | _, _, _ => ret None
  end.

Definition str_replace_all (fuel : nat) (s : option str) (old new : option cstring)
  : M (option str) :=
  match s, old, new with
  | Some s0, Some o, Some n =>
      let old_len := strlen o in
      let new_len := strlen n in
      count <- lift (replace_count_loop fuel (data s0) o old_len 0 0) ;;
      let result_len := wrap (length s0 + count * (new_len - old_len)) in
      r <- str_new (wrap (result_len + 1)) ;;
      match r with
      | None => ret None
      | Some r0 =>
          out <- lift (replace_copy_loop fuel (data s0) o n old_len new_len 0
                                         (data r0) 0) ;;
          ret (Some {| length := result_len; capacity := capacity r0;
                       data := poke (fst out) (snd out) NUL |})
      end
  | _, _, _ => ret None
  end.

(** ** Splitting and joining *)

(** A new buffer holding the [len] bytes of [d] from [start] on: the
    statements both exits of [str_split] run for a segment. *)
Definition split_segment (d : list ascii) (start len : Z) : M (option str) :=
  r <- str_new (wrap (len + 1)) ;;
  ret (match r with
       | Some r0 =>
           let rd := memcpy (data r0) 0 (at_off d start) len in
           Some {| length := len; capacity := capacity r0;
                   data := poke rd len NUL |}
       | None => None
       end).

(** [while ((end = strstr(start, delim))) { ... }]; [acc] is the array
    [result] filled so far. The result is the array and [start] at the
    exit, or [None] when a segment could not be allocated. *)
Fixpoint str_split_loop (fuel : nat) (d : list ascii) (delim : cstring)
    (delim_len start : Z) (acc : list str) : M (option (list str * Z)) :=
  match fuel with
  | O => timeout
  | S fuel' =>
      match strstr (at_off d start) delim with
      | None => ret (Some (acc, start))
      | Some k =>
          seg <- split_segment d start k ;;
          match seg with
          | None => ret None
          | Some sg =>
              str_split_loop fuel' d delim delim_len (start + k + delim_len)
                             (acc ++ [sg])
          end
      end
  end.

(** The array is a list; the value stored through [count] is its length.
    A null [count] makes the result null like a null [s] or [delim]. *)
Definition str_split (fuel : nat) (s : option str) (delim : option cstring)
  : M (option (list str)) :=
  match s, delim with
  | Some s0, Some dl =>
      let delim_len := strlen dl in
      if delim_len =? 0 then trap
      else
        let max_splits := wrap (length s0 / delim_len + 1) in
        arr <- malloc (wrap (max_splits * 8)) ;;
        match arr with
        | None => ret None
        | Some _ =>
            r <- str_split_loop fuel (data s0) dl delim_len 0 [] ;;
            match r with
            | None => ret None
            | Some (acc, start) =>
                let len := wrap (length s0 - start) in
                seg <- split_segment (data s0) start len ;;
                ret (match seg with
                     | Some sg => Some (acc ++ [sg])
                     | None => None
                     end)
            end
        end
  | _, _ => ret None
  end.

(** First loop of [str_join]: [None] when an entry is null. *)
Fixpoint str_join_total (n : nat) (strings : list (option str)) (i total_len : Z)
  : option Z :=
  match n with
  | O => Some total_len
  | S n' =>
      match nth_error strings (Z.to_nat i) with
      | Some (Some si) =>
          str_join_total n' strings (wrap (i + 1)) (wrap (total_len + length si))
      | _ => None
      end
  end.

(** Second loop of [str_join]. *)
Fixpoint str_join_copy (n : nat) (strings : list (option str)) (delim : cstring)
    (delim_len i : Z) (rd : list ascii) (dest : Z) : list ascii * Z :=
  match n with
  | O => (rd, dest)
  | S n' =>
      let (rd, dest) :=
        if i >? 0
        then (memcpy rd dest (c_bytes delim) delim_len, dest + delim_len)
        else (rd, dest) in
      match nth_error strings (Z.to_nat i) with
      | Some (Some si) =>
          str_join_copy n' strings delim delim_len (wrap (i + 1))
            (memcpy rd dest (data si) (length si)) (dest + length si)
      | _ => (rd, dest)
      end
  end.

Definition str_join (strings : option (list (option str))) (count : Z)
    (delim : option cstring) : M (option str) :=
  match strings, delim with
  | Some strs, Some dl =>
      if count =? 0 then ret None
      else
        let delim_len := strlen dl in
        match str_join_total (Z.to_nat count) strs 0 0 with
        | None => ret None
        | Some total_len =>
            let total_len := wrap (total_len + (count - 1) * delim_len) in
            r <- str_new (wrap (total_len + 1)) ;;
            ret (match r with
                 | None => None
                 | Some r0 =>
                     let (rd, dest) :=
                       str_join_copy (Z.to_nat count) strs dl delim_len 0 (data r0) 0 in
                     Some {| length := total_len; capacity := capacity r0;
                             data := poke rd dest NUL |}
                 end)
        end
  | _, _ => ret None
  end.

(** [while (len--) { *dest++ = *src--; }] *)
Fixpoint str_reverse_loop (len : nat) (d : list ascii) (src : Z)
    (rd : list ascii) (dest : Z) : list ascii * Z :=
  match len with
  | O => (rd, dest)
  | S len' =>
      str_reverse_loop len' d (src - 1) (poke rd dest (peek d src)) (dest + 1)
  end.

Definition str_reverse (s : option str) : M (option str) :=
  match s with
  | None => ret None
  | Some s0 =>
      if length s0 =? 0 then ret None
      else
        m <- malloc (wrap (length s0 + 1)) ;;
        ret (match m with
             | None => None
             | Some block =>
                 let (rd, dest) :=
                   str_reverse_loop (Z.to_nat (length s0)) (data s0)
                                    (length s0 - 1) block 0 in
                 Some {| length := length s0; capacity := wrap (length s0 + 1);
                         data := poke rd dest NUL |}
             end)
  end.

(** [while (start < end) { swap; }]: at most [length] rounds. *)
Fixpoint str_reverse_in_place_loop (n : nat) (d : list ascii) (start e : Z)
  : list ascii :=
  match n with
  | O => d
  | S n' =>
      if start <? e then
        let temp := peek d start in
        let d := poke d start (peek d e) in
        let d := poke d e temp in
        str_reverse_in_place_loop n' d (start + 1) (e - 1)
      else d
  end.

Definition str_reverse_in_place (s : option str) : option str :=
  match s with
  | None => None
  | Some s0 =>
      if length s0 <? 2 then s
      else
        Some (set_data s0
                (str_reverse_in_place_loop (Z.to_nat (length s0)) (data s0)
                                           0 (length s0 - 1)))
  end.

(** ** Invariants of a buffer and the operations as transitions *)

Definition size_half : Z := Eval vm_compute in 2 ^ 63.

(** [data[length] == 0]. *)
Definition terminated (s : str) : Prop := peek (data s) (length s) = NUL.

(** The invariants of the data model: the length leaves room for the
    terminator, the block has [capacity] bytes, and the terminator is in
    place. No block is larger than half the address space. *)
Definition wf (s : str) : Prop :=
  0 <= length s < capacity s /\
  capacity s <= size_half /\
  Z.of_nat (List.length (data s)) = capacity s /\
  terminated s.

Definition power_of_two (z : Z) : Prop := exists k : Z, 0 <= k /\ z = 2 ^ k.

(** The capacity discipline: a power of two, at least 16, above the length. *)
Definition capacity_ok (s : str) : Prop :=
  power_of_two (capacity s) /\ STR_MIN_CAPACITY <= capacity s /\ length s < capacity s.

(** The content of a buffer: its first [length] bytes. *)
Definition content (s : str) : list ascii := firstn (Z.to_nat (length s)) (data s).

(** What the C standard promises of a call with a destination of [n]
    bytes: an [int] is returned, at most [n] bytes are stored, and when the
    returned count is below [n] the output is complete and terminated. *)
Definition vsnprintf_ok (vsnprintf : Z -> fmt_pass) : Prop :=
  forall n, 0 <= n ->
    - 2147483648 <= fmt_ret (vsnprintf n) < 2147483648 /\
    Z.of_nat (List.length (fmt_out (vsnprintf n))) <= n /\
    (0 <= fmt_ret (vsnprintf n) < n ->
       fmt_ret (vsnprintf n) < Z.of_nat (List.length (fmt_out (vsnprintf n))) /\
       peek (fmt_out (vsnprintf n)) (fmt_ret (vsnprintf n)) = NUL).

(** Values in the range of [size_t]. *)
Definition is_size (z : Z) : Prop := 0 <= z < size_modulus.

(** The mutating operations of the interface that work on the caller's
    handle or on the block in place, with their arguments.
    [str_snake_case], which reallocates behind a copy of the caller's
    pointer, is followed by [str_snake_case_caller]. *)
Inductive mutation : Type :=
| Append (append : cstring)
| AppendFmt (vsnprintf : Z -> fmt_pass)
| AppendChar (c : ascii)
| Prepend (prepend : cstring)
| Insert (index : Z) (insert : cstring)
| Remove (index count : Z)
| RemoveAll (fuel : nat) (substr : cstring)
| Clear
| Resize (new_length : Z)
| ToLower
| ToUpper
| CamelCase
| PascalCase
| Trim
| Rtrim
| Ltrim
| ReverseInPlace.

(** One transition of a buffer: the operation's success flag ([true] for
    the operations that return nothing) and the buffer afterwards. *)
Definition mutate (m : mutation) (s : str) : M (bool * option str) :=
  match m with
  | Append a => str_append (Some s) (Some a)
  | AppendFmt f => str_append_fmt f (Some s)
  | AppendChar c => str_append_char (Some s) c
  | Prepend a => str_prepend (Some s) (Some a)
  | Insert i a => str_insert (Some s) i (Some a)
  | Remove i n => ret (str_remove (Some s) i n)
  | RemoveAll fuel sub =>
      r <- lift (str_remove_all fuel (Some s) (Some sub)) ;;
      ret (true, snd r)
  | Clear => ret (true, str_clear (Some s))
  | Resize n => str_resize (Some s) n
  | ToLower => ret (true, str_to_lower (Some s))
  | ToUpper => ret (true, str_to_upper (Some s))
  | CamelCase => ret (true, str_camel_case (Some s))
  | PascalCase => ret (true, str_pascal_case (Some s))
  | Trim => ret (true, str_trim (Some s))
  | Rtrim => ret (true, str_rtrim (Some s))
  | Ltrim => ret (true, str_ltrim (Some s))
  | ReverseInPlace => ret (true, str_reverse_in_place (Some s))
  end.

(** The arguments are values of their C types and describe objects that
    fit the address space: a string is shorter than 2^63 bytes, an index
    or count is a [size_t], and [new_length + 1] does not overflow. *)
Definition mutation_ok (m : mutation) : Prop :=
  match m with
  | Append a => strlen a < size_half
  | Prepend a => strlen a < size_half
  | AppendFmt f => vsnprintf_ok f
  | Insert i a => is_size i /\ strlen a < size_half
  | Remove i n => is_size i /\ is_size n
  | Resize n => 0 <= n < size_modulus - 1
  | _ => True
  end.

(** ** Sample values *)

(** An allocator that grants every request. *)
Definition generous : heap := {| script := []; junk := "?"%char |}.

(** An allocator that refuses the next request. *)
Definition exhausted : heap := {| script := [false]; junk := "?"%char |}.

(** An allocator that grants the next request and refuses the one after. *)
Definition granting_once : heap := {| script := [true; false]; junk := "?"%char |}.

(** The buffer [str_from("Hello")] builds. *)
Definition hello : str :=
  {| length := 5; capacity := 16;
     data := lit "Hello" ++ NUL :: repeat "?"%char 10 |}.

Definition hello_world : str :=
  {| length := 11; capacity := 16;
     data := lit "Hello World" ++ NUL :: repeat "?"%char 4 |}.

(** [str_from("ab")] and what [str_reverse] makes of it. *)
Definition ab : str :=
  {| length := 2; capacity := 16; data := lit "ab" ++ NUL :: repeat "?"%char 13 |}.

Definition ba : str :=
  {| length := 2; capacity := 3; data := lit "ba" ++ [NUL] |}.

(** [str_from(" ")]: one blank. *)
Definition blank : str :=
  {| length := 1; capacity := 16; data := lit " " ++ NUL :: repeat "?"%char 14 |}.

(** [str_from("abcdefghijklmnO")]: fifteen bytes in a block of sixteen. *)
Definition fifteen : str :=
  {| length := 15; capacity := 16; data := lit "abcdefghijklmnO" ++ [NUL] |}.

Definition fifteen_lowered : str :=
  {| length := 15; capacity := 16; data := lit "abcdefghijklmno" ++ [NUL] |}.

(** What [str_snake_case] makes of [fifteen] in the block of 32 bytes that
    [realloc] grants. *)
Definition fifteen_snake : str :=
  {| length := 16; capacity := 32;
     data := lit "abcdefghijklmn_o" ++ NUL :: repeat "?"%char 15 |}.

(** An allocator places every block it grows at the next address; another
    grows every block where it is. *)
Definition moving (a : nat) : nat := S a.
Definition in_place (a : nat) : nat := a.

(** [n] is the index of the first zero byte of [d]. *)
Definition first_zero (d : list ascii) (n : nat) : Prop :=
  (n < List.length d)%nat /\ nth n d NUL = NUL /\
  forall i, (i < n)%nat -> nth i d NUL <> NUL.

(** Two buffers whose blocks agree up to the first zero byte only. *)
Definition abc_long : str :=
  {| length := 7; capacity := 16;
     data := lit "abc" ++ NUL :: lit "xyz" ++ NUL :: repeat "?"%char 8 |}.

Definition abc_short : str :=
  {| length := 3; capacity := 4; data := lit "abc" ++ [NUL] |}.





(** ** The description's replacement *)

(** Scanning [s] from the left: where [old] starts, [new] is emitted and
    the scan resumes after the occurrence ([skip] counts the bytes of it
    still to pass); any other byte is kept. *)
Fixpoint spec_substitute_from (old new : list ascii) (skip : nat) (s : list ascii)
  : list ascii :=
  match s with
  | [] => []
  | c :: t =>
      match skip with
      | S k => spec_substitute_from old new k t
      | O =>
          if is_prefix old s
          then new ++ spec_substitute_from old new (List.length old - 1) t
          else c :: spec_substitute_from old new O t
      end
  end.

(** [s] with every non-overlapping occurrence of [old] substituted by [new]. *)
Definition spec_substitute (old new s : list ascii) : list ascii :=
  spec_substitute_from old new O s.

Fixpoint spec_occurrences_from (old : list ascii) (skip : nat) (s : list ascii) : nat :=
  match s with
  | [] => O
  | c :: t =>
      match skip with
      | S k => spec_occurrences_from old k t
      | O =>
          if is_prefix old s
          then S (spec_occurrences_from old (List.length old - 1) t)
          else spec_occurrences_from old O t
      end
  end.

(** The number of non-overlapping occurrences of [old] in [s], scanning
    from the left. *)
Definition spec_occurrences (old s : list ascii) : nat :=
  spec_occurrences_from old O s.

(** The buffer "a", a zero byte, "a" (length 3): [str_from("a")],
    [str_resize] to 2, [str_append] of "a". *)
Definition a_zero_a : str :=
  {| length := 3; capacity := 16;
     data := lit "a" ++ NUL :: lit "a" ++ NUL :: repeat "?"%char 12 |}.

(** The sentence of the description on [str_replace] and
    [str_replace_all], as it is written: both return the same buffer,
    which holds the content of [s] with every non-overlapping occurrence
    of [old] substituted, and whose length follows the formula. *)
Definition replaces_as_described (s : str) (old new : cstring) (h : heap) : Prop :=
  exists fuel r h',
    str_replace fuel (Some s) (Some old) (Some new) h = Returns (Some r, h') /\
    str_replace_all fuel (Some s) (Some old) (Some new) h = Returns (Some r, h') /\
    content r = spec_substitute (c_str old) (c_str new) (content s) /\
    length r =
      length s
      + Z.of_nat (spec_occurrences (c_str old) (content s))
        * (strlen new - strlen old).

(** ** The description's join *)

(** The parts, in order, with [delim] between consecutive parts. *)
Fixpoint spec_join (delim : list ascii) (parts : list (list ascii)) : list ascii :=
  match parts with
  | [] => []
  | x :: rest =>
      match rest with
      | [] => x
      | _ :: _ => x ++ delim ++ spec_join delim rest
      end
  end.

(** The length of a segment is within its block. *)
Definition segment_ok (sg : str) : Prop :=
  0 <= length sg <= Z.of_nat (List.length (data sg)).

(** [str_from("a,b")]. *)
Definition a_comma_b : str :=
  {| length := 3; capacity := 16; data := lit "a,b" ++ NUL :: repeat "?"%char 12 |}.

(** What [str_replace] returns for [a_zero_a], "a" and "bb": the length
    field counts the bytes after the zero byte of the input, which were
    not copied. *)
Definition bb_unterminated : str :=
  {| length := 4; capacity := 16;
     data := lit "bb" ++ NUL :: repeat "?"%char 13 |}.

(** ** Reading results *)

(** The buffer an allocating operation returned ([None] for a null
    result and for a run that did not return). *)
Definition returned (r : run (option str * heap)) : option str :=
  match r with
  | Returns (s, _) => s
  | _ => None
  end.

(** The buffer behind the handle after an operation on a handle. *)
Definition handle_after (r : run (bool * option str * heap)) : option str :=
  match r with
  | Returns ((_, s), _) => s
  | _ => None
  end.

(** The text of a buffer. *)
Definition text (s : option str) : option string :=
  option_map (fun s0 => string_of_list_ascii (content s0)) s.

(** [str_from] with an allocator that grants every request. *)
Definition from (t : string) : option str :=
  returned (str_from (Some (lit t)) generous).

(** ** The block behind a buffer *)

(** [str_data] and [str_cstr] return the address of [data]: the block. *)
Definition str_data (s : option str) : option (list ascii) :=
  match s with Some s0 => Some (data s0) | None => None end.

Definition str_cstr (s : option str) : option (list ascii) :=
  match s with Some s0 => Some (data s0) | None => None end.

(** ** The buffers a program can hold *)


(** ** Occurrences *)

(** The string [needle] stands in [hay] at offset [j]. *)
Definition stands_at (needle hay : list ascii) (j : nat) : Prop :=
  firstn (List.length needle) (skipn j hay) = needle.

(** ** Separators of words *)

(** [c == ' ' || c == '_']: the test of [str_camel_case] and
    [str_pascal_case] for a byte between two words. *)
Definition is_separator (c : ascii) : bool :=
  (c =? space)%char || (c =? underscore)%char.

(** ** The fuzz target of [str_llvm_fuzzer.c] *)

(** [process_input]: the value it returns and the buffer it hands to
    [str_free] before returning. *)
Definition process_input (input : option cstring) : M (Z * option str) :=
  s <- str_from input ;;
  let s := str_trim s in
  let s := str_reverse_in_place s in
  r <- str_append s (Some (lit "Hello")) ;;
  let s := snd r in
  let s := str_to_upper s in
  ret (0, s).

(** [LLVMFuzzerTestOneInput]: the [size] bytes of [data] are copied into
    a block of [size + 1] bytes and terminated there. *)
Definition LLVMFuzzerTestOneInput (data : list ascii) (size : Z) : M Z :=
  input <- malloc (wrap (size + 1)) ;;
  match input with
  | None => ret 0
  | Some block =>
      let input := memcpy block 0 data size in
      let input := poke input size NUL in
      _ <- process_input (Some input) ;;
      ret 0
  end.

(** * Properties *)

(** ** Machine arithmetic *)

Lemma wrap_small z : 0 <= z < size_modulus -> wrap z = z.
Proof. intros H. unfold wrap. now apply Z.mod_small. Qed.

Lemma wrap_range z : 0 <= wrap z < size_modulus.
Proof. unfold wrap. apply Z.mod_pos_bound. reflexivity. Qed.

Lemma wrap_minus_one_plus_one z : 0 <= z < size_modulus -> wrap (wrap (z - 1) + 1) = z.
Proof.
  intros H. unfold wrap.
  rewrite Zplus_mod_idemp_l. replace (z - 1 + 1) with z by ring.
  now apply Z.mod_small.
Qed.

Ltac sizes := unfold size_modulus, size_half, STR_MIN_CAPACITY in *; lia.

(** ** Rounding a capacity *)

Lemma pow2_63 : 2 ^ 63 = size_half.
Proof. reflexivity. Qed.

Lemma pow2_64 : 2 ^ 64 = size_modulus.
Proof. reflexivity. Qed.

Lemma pow2_le_half k : 0 <= k <= 63 -> 0 < 2 ^ k <= size_half.
Proof.
  intros H. rewrite <- pow2_63. split.
  - apply Z.pow_pos_nonneg; lia.
  - apply Z.pow_le_mono_r; lia.
Qed.

Lemma round_loop_zero fuel cap :
  0 < cap -> str_round_capacity_loop fuel 0 cap = None.
Proof.
  intros Hc. induction fuel as [|fuel IH]; simpl; [reflexivity|].
  destruct (0 <? cap) eqn:E; [exact IH|]. apply Z.ltb_ge in E. lia.
Qed.

Lemma wrap_double k :
  4 <= k <= 63 ->
  wrap (2 ^ k * 2) = if k =? 63 then 0 else 2 ^ (k + 1).
Proof.
  intros Hk. destruct (k =? 63) eqn:E.
  - apply Z.eqb_eq in E. subst k. reflexivity.
  - apply Z.eqb_neq in E.
    replace (2 ^ k * 2) with (2 ^ (k + 1))
      by (rewrite Z.pow_add_r by lia; reflexivity).
    apply wrap_small. pose proof (pow2_le_half (k + 1)). sizes.
Qed.

Lemma round_loop_spec fuel : forall k cap r,
  4 <= k <= 63 ->
  str_round_capacity_loop fuel (2 ^ k) cap = Some r ->
  exists j, k <= j <= 63 /\ r = 2 ^ j /\ cap <= r /\ (j = k \/ 2 ^ (j - 1) < cap).
Proof.
  induction fuel as [|fuel IH]; intros k cap r Hk H; simpl in H; [discriminate|].
  destruct (2 ^ k <? cap) eqn:E.
  - apply Z.ltb_lt in E. rewrite wrap_double in H by exact Hk.
    destruct (k =? 63) eqn:E63.
    + rewrite round_loop_zero in H; [discriminate|].
      pose proof (pow2_le_half k). lia.
    + apply Z.eqb_neq in E63.
      apply IH in H; [|lia]. destruct H as (j & Hj & Hr & Hc & Hm).
      exists j. repeat split; try lia. right.
      destruct Hm as [-> | Hm]; [|exact Hm].
      replace (k + 1 - 1) with k by ring. exact E.
  - apply Z.ltb_ge in E. injection H as <-.
    exists k. repeat split; lia.
Qed.

Lemma round_loop_total fuel : forall k cap,
  4 <= k <= 63 -> (64 - Z.to_nat k <= fuel)%nat -> cap <= size_half ->
  exists r, str_round_capacity_loop fuel (2 ^ k) cap = Some r.
Proof.
  induction fuel as [|fuel IH]; intros k cap Hk Hf Hc; [lia|]. simpl.
  destruct (2 ^ k <? cap) eqn:E; [|eauto].
  apply Z.ltb_lt in E. rewrite wrap_double by exact Hk.
  destruct (k =? 63) eqn:E63.
  - apply Z.eqb_eq in E63. subst k. rewrite pow2_63 in E. lia.
  - apply Z.eqb_neq in E63. apply IH; lia.
Qed.

Lemma round_loop_hangs fuel : forall k cap,
  4 <= k <= 63 -> size_half < cap ->
  str_round_capacity_loop fuel (2 ^ k) cap = None.
Proof.
  induction fuel as [|fuel IH]; intros k cap Hk Hc; [reflexivity|]. simpl.
  pose proof (pow2_le_half k) as Hp.
  destruct (2 ^ k <? cap) eqn:E; [|apply Z.ltb_ge in E; lia].
  rewrite wrap_double by exact Hk.
  destruct (k =? 63) eqn:E63.
  - apply round_loop_zero. sizes.
  - apply Z.eqb_neq in E63. apply IH; lia.
Qed.

(** What a returned capacity looks like: the smallest power of two that
    is at least 16 and at least the request. *)
Lemma str_round_capacity_spec cap r :
  str_round_capacity cap = Some r ->
  power_of_two r /\ STR_MIN_CAPACITY <= r <= size_half /\ cap <= r /\
  (r = STR_MIN_CAPACITY \/ r / 2 < cap).
Proof.
  unfold str_round_capacity. intros H.
  change STR_MIN_CAPACITY with (2 ^ 4) in H.
  apply round_loop_spec in H; [|lia].
  destruct H as (j & Hj & -> & Hc & Hm).
  pose proof (pow2_le_half j) as Hp.
  assert (H16 : 2 ^ 4 <= 2 ^ j) by (apply Z.pow_le_mono_r; lia).
  change (2 ^ 4) with 16 in H16.
  repeat split; try (unfold STR_MIN_CAPACITY; lia).
  - exists j. split; [lia | reflexivity].
  - destruct Hm as [-> | Hm]; [now left | right].
    replace (2 ^ j) with (2 ^ (j - 1) * 2).
    2:{ replace j with (j - 1 + 1) at 2 by ring.
        rewrite Z.pow_add_r by lia. reflexivity. }
    rewrite Z.div_mul by lia. exact Hm.
Qed.

Lemma str_round_capacity_total cap :
  cap <= size_half -> exists r, str_round_capacity cap = Some r.
Proof.
  intros H. unfold str_round_capacity. change STR_MIN_CAPACITY with (2 ^ 4).
  apply round_loop_total; simpl; lia.
Qed.

(** A request above 2^63 never leaves the loop, whatever the fuel. *)
Lemma str_round_capacity_hangs cap fuel :
  size_half < cap -> str_round_capacity_loop fuel STR_MIN_CAPACITY cap = None.
Proof.
  intros H. change STR_MIN_CAPACITY with (2 ^ 4). apply round_loop_hangs; lia.
Qed.

(** ** Blocks of memory *)

Lemma splice_length dst off src :
  (off + List.length src <= List.length dst)%nat ->
  List.length (splice dst off src) = List.length dst.
Proof.
  intros H. unfold splice.
  rewrite !List.length_app, List.length_firstn, List.length_skipn. lia.
Qed.

Lemma nth_splice_lt dst off src i :
  (i < off)%nat -> (off <= List.length dst)%nat ->
  nth i (splice dst off src) NUL = nth i dst NUL.
Proof.
  intros Hi Ho. unfold splice.
  rewrite app_nth1 by (rewrite List.length_firstn; lia).
  rewrite nth_firstn. destruct (i <? off)%nat eqn:E; [reflexivity|].
  apply Nat.ltb_ge in E. lia.
Qed.

Lemma nth_splice_in dst off src i :
  (off <= List.length dst)%nat -> (off <= i < off + List.length src)%nat ->
  nth i (splice dst off src) NUL = nth (i - off) src NUL.
Proof.
  intros Ho Hi. unfold splice.
  rewrite app_nth2 by (rewrite List.length_firstn; lia).
  rewrite List.length_firstn, Nat.min_l by lia.
  rewrite app_nth1 by lia. reflexivity.
Qed.

Lemma nth_splice_ge dst off src i :
  (off <= List.length dst)%nat -> (off + List.length src <= i)%nat ->
  nth i (splice dst off src) NUL = nth i dst NUL.
Proof.
  intros Ho Hi. unfold splice.
  rewrite app_nth2 by (rewrite List.length_firstn; lia).
  rewrite List.length_firstn, Nat.min_l by lia.
  rewrite app_nth2 by lia.
  rewrite nth_skipn. f_equal. lia.
Qed.

Lemma firstn_splice_le dst off src n :
  (n <= off)%nat -> (off <= List.length dst)%nat ->
  firstn n (splice dst off src) = firstn n dst.
Proof.
  intros Hn Ho. unfold splice.
  rewrite firstn_app, List.length_firstn, Nat.min_l by lia.
  replace (n - off)%nat with O by lia. simpl. rewrite app_nil_r.
  rewrite firstn_firstn. f_equal. lia.
Qed.

Lemma firstn_splice_end dst off src :
  (off <= List.length dst)%nat ->
  firstn (off + List.length src) (splice dst off src) = firstn off dst ++ src.
Proof.
  intros Ho. unfold splice. rewrite app_assoc.
  rewrite firstn_app.
  rewrite List.length_app, List.length_firstn, Nat.min_l by lia.
  replace (off + List.length src - (off + List.length src))%nat with O by lia.
  simpl. rewrite app_nil_r. apply firstn_all2.
  rewrite List.length_app, List.length_firstn. lia.
Qed.

Local Notation "'sizeof' d" := (Z.of_nat (List.length d)) (at level 9, d at level 9).

Lemma peek_nth d i : 0 <= i -> peek d i = nth (Z.to_nat i) d NUL.
Proof. reflexivity. Qed.

Lemma peek_out d i : sizeof d <= i -> peek d i = NUL.
Proof. intros H. unfold peek. apply nth_overflow. lia. Qed.

Lemma memcpy_length d off src n :
  0 <= off -> 0 <= n <= sizeof src -> off + n <= sizeof d ->
  sizeof (memcpy d off src n) = sizeof d.
Proof.
  intros Ho Hn Hd. unfold memcpy. f_equal. apply splice_length.
  rewrite List.length_firstn. lia.
Qed.

Lemma peek_memcpy_out d off src n i :
  0 <= off -> 0 <= n <= sizeof src -> off + n <= sizeof d ->
  0 <= i -> i < off \/ off + n <= i ->
  peek (memcpy d off src n) i = peek d i.
Proof.
  intros Ho Hn Hd Hi [H|H]; unfold memcpy, peek.
  - apply nth_splice_lt; lia.
  - apply nth_splice_ge; [lia|]. rewrite List.length_firstn. lia.
Qed.

Lemma peek_memcpy_in d off src n i :
  0 <= off -> 0 <= n <= sizeof src -> off + n <= sizeof d ->
  off <= i < off + n ->
  peek (memcpy d off src n) i = peek src (i - off).
Proof.
  intros Ho Hn Hd Hi. unfold memcpy, peek.
  rewrite nth_splice_in.
  - rewrite nth_firstn.
    replace (Z.to_nat i - Z.to_nat off)%nat with (Z.to_nat (i - off)) by lia.
    destruct (Z.to_nat (i - off) <? Z.to_nat n)%nat eqn:E; [reflexivity|].
    apply Nat.ltb_ge in E. lia.
  - lia.
  - rewrite List.length_firstn. lia.
Qed.

Lemma peek_at_off d from i :
  0 <= from -> 0 <= i -> peek (at_off d from) i = peek d (from + i).
Proof.
  intros Hf Hi. unfold peek, at_off. rewrite nth_skipn. f_equal. lia.
Qed.

Lemma at_off_length d from :
  0 <= from <= sizeof d -> sizeof (at_off d from) = sizeof d - from.
Proof. intros H. unfold at_off. rewrite List.length_skipn. lia. Qed.

Lemma memmove_length d to from n :
  0 <= to -> 0 <= from -> 0 <= n -> from + n <= sizeof d -> to + n <= sizeof d ->
  sizeof (memmove d to from n) = sizeof d.
Proof.
  intros. unfold memmove. apply memcpy_length; try lia.
  rewrite at_off_length; lia.
Qed.

Lemma peek_memmove_out d to from n i :
  0 <= to -> 0 <= from -> 0 <= n -> from + n <= sizeof d -> to + n <= sizeof d ->
  0 <= i -> i < to \/ to + n <= i ->
  peek (memmove d to from n) i = peek d i.
Proof.
  intros. unfold memmove. apply peek_memcpy_out; try lia.
  rewrite at_off_length; lia.
Qed.

Lemma peek_memmove_in d to from n i :
  0 <= to -> 0 <= from -> 0 <= n -> from + n <= sizeof d -> to + n <= sizeof d ->
  to <= i < to + n ->
  peek (memmove d to from n) i = peek d (from + (i - to)).
Proof.
  intros. unfold memmove. rewrite peek_memcpy_in; try lia.
  - apply peek_at_off; lia.
  - rewrite at_off_length; lia.
Qed.

Lemma poke_length d i c :
  0 <= i < sizeof d -> sizeof (poke d i c) = sizeof d.
Proof.
  intros H. unfold poke. f_equal. apply splice_length. simpl. lia.
Qed.

Lemma peek_poke_same d i c : 0 <= i < sizeof d -> peek (poke d i c) i = c.
Proof.
  intros H. unfold poke, peek. rewrite nth_splice_in; simpl; try lia.
  now rewrite Nat.sub_diag.
Qed.

Lemma peek_poke_other d i j c :
  0 <= i < sizeof d -> 0 <= j -> i <> j -> peek (poke d i c) j = peek d j.
Proof.
  intros H Hj Hne. unfold poke, peek.
  destruct (Z_lt_le_dec j i).
  - apply nth_splice_lt; lia.
  - apply nth_splice_ge; simpl; lia.
Qed.

Lemma memset_length d off c n :
  0 <= off -> 0 <= n -> off + n <= sizeof d -> sizeof (memset d off c n) = sizeof d.
Proof.
  intros. unfold memset. f_equal. apply splice_length. rewrite repeat_length. lia.
Qed.

Lemma c_bytes_length a : sizeof (c_bytes a) = strlen a + 1.
Proof. unfold c_bytes, strlen. rewrite List.length_app. simpl. lia. Qed.

Lemma peek_c_bytes_end a : peek (c_bytes a) (strlen a) = NUL.
Proof.
  unfold peek, c_bytes, strlen. rewrite Nat2Z.id.
  rewrite app_nth2 by lia. now rewrite Nat.sub_diag.
Qed.

Lemma strlen_nonneg a : 0 <= strlen a.
Proof. unfold strlen. lia. Qed.

(** ** Running operations and ensuring capacity *)

Lemma bind_returns {A B} (m : M A) (k : A -> M B) h b h' :
  bind m k h = Returns (b, h') ->
  exists a h1, m h = Returns (a, h1) /\ k a h1 = Returns (b, h').
Proof.
  unfold bind. destruct (m h) as [[a h1]| |]; try discriminate.
  intros H. now exists a, h1.
Qed.

Lemma realloc_grow d n h :
  sizeof d <= n ->
  exists h', realloc d n h = Returns (None, h') \/
             realloc d n h = Returns (Some (d ++ repeat (junk h) (Z.to_nat n - List.length d)), h').
Proof.
  intros Hn. unfold realloc. destruct (next_request h) as [ok h'].
  exists h'. destruct ok; [right | now left].
  rewrite firstn_all2 by lia. reflexivity.
Qed.

Lemma peek_app_l d e i : 0 <= i < sizeof d -> peek (d ++ e) i = peek d i.
Proof. intros H. unfold peek. apply app_nth1. lia. Qed.

Lemma str_ensure_capacity_spec s cap h ok r h' :
  wf s ->
  str_ensure_capacity (Some s) cap h = Returns ((ok, r), h') ->
  (ok = false /\ r = Some s) \/
  (ok = true /\ exists s1, r = Some s1 /\ wf s1 /\ length s1 = length s /\
     cap <= capacity s1 /\ capacity s <= capacity s1 /\
     exists tail, data s1 = data s ++ tail).
Proof.
  intros (Wl & Wc & Wd & Wt) H. unfold str_ensure_capacity in H.
  destruct (capacity s >=? cap) eqn:E.
  - apply Z.geb_le in E. unfold ret in H. injection H as <- <- <-.
    right. split; [reflexivity|]. exists s. repeat split; try assumption; try lia.
    exists []. now rewrite app_nil_r.
  - rewrite Z.geb_leb in E. apply Z.leb_gt in E.
    destruct (str_round_capacity cap) as [c|] eqn:R; [|discriminate].
    apply str_round_capacity_spec in R. destruct R as (_ & Hc & Hcap & _).
    destruct (realloc_grow (data s) c h) as (h1 & [Hr | Hr]); [lia| |];
      unfold bind in H; rewrite Hr in H; unfold ret in H; injection H as <- <- <-.
    + now left.
    + right. split; [reflexivity|]. eexists. split; [reflexivity|].
      unfold wf, terminated; cbn [length capacity data]. repeat split; try lia.
      * rewrite List.length_app, repeat_length. lia.
      * rewrite peek_app_l by lia. exact Wt.
      * eexists. reflexivity.
Qed.

(** ** The invariants under the growing operations *)

Lemma str_append_wf s a h s' h' :
  wf s -> strlen a < size_half ->
  str_append (Some s) (Some a) h = Returns ((true, Some s'), h') ->
  wf s'.
Proof.
  intros W Ha H. unfold str_append in H.
  apply bind_returns in H. destruct H as ([ok r] & h1 & E & H).
  pose proof (strlen_nonneg a) as Hn.
  destruct (str_ensure_capacity_spec _ _ _ _ _ _ W E)
    as [[-> ->] | (-> & s1 & -> & W1 & L1 & C1 & _)]; [discriminate|].
  unfold ret in H. injection H as <- <-.
  destruct W as (Wl & Wc & Wd & Wt). destruct W1 as (Wl1 & Wc1 & Wd1 & Wt1).
  rewrite wrap_small in C1 by sizes.
  unfold wf, terminated; cbn [length capacity data]. rewrite !wrap_small by sizes.
  pose proof (c_bytes_length a) as Hb.
  repeat split; try lia.
  - rewrite memcpy_length; lia.
  - rewrite peek_memcpy_in by lia.
    replace (length s1 + strlen a - length s1) with (strlen a) by ring.
    apply peek_c_bytes_end.
Qed.

Ltac split_wf W := destruct W as (?Wl & ?Wc & ?Wd & ?Wt).

Ltac ensure_step H W :=
  let ok := fresh "ok" in let r := fresh "r" in let h1 := fresh "h" in
  let E := fresh "E" in
  apply bind_returns in H; destruct H as ([ok r] & h1 & E & H);
  destruct (str_ensure_capacity_spec _ _ _ _ _ _ W E)
    as [[-> ->] | (-> & ?s1 & -> & ?W1 & ?L1 & ?C1 & _)]; [discriminate|].

Lemma store_pass_length d off p :
  0 <= off -> off + sizeof (fmt_out p) <= sizeof d ->
  sizeof (store_pass d off p) = sizeof d.
Proof. intros. unfold store_pass. f_equal. apply splice_length. lia. Qed.

Lemma peek_store_pass_in d off p i :
  0 <= off -> off + sizeof (fmt_out p) <= sizeof d ->
  off <= i < off + sizeof (fmt_out p) ->
  peek (store_pass d off p) i = peek (fmt_out p) (i - off).
Proof.
  intros. unfold store_pass, peek. rewrite nth_splice_in by lia.
  f_equal. lia.
Qed.

Lemma str_append_fmt_wf f s h s' h' :
  wf s -> vsnprintf_ok f ->
  str_append_fmt f (Some s) h = Returns ((true, Some s'), h') ->
  wf s'.
Proof.
  intros W Hf H. unfold str_append_fmt in H.
  destruct (Hf 0) as ((_ & Hhi) & _); [lia|].
  destruct (Z.ltb_spec (fmt_ret (f 0)) 0) as [Hs | Hs]; [discriminate|].
  ensure_step H W.
  split_wf W. split_wf W1.
  rewrite wrap_small in C1 by sizes.
  destruct (Hf (fmt_ret (f 0) + 1)) as (_ & Hlen & Hdone); [lia|].
  set (pass := f (fmt_ret (f 0) + 1)) in *.
  destruct ((fmt_ret pass <? 0) || (fmt_ret pass >=? fmt_ret (f 0))) eqn:B;
    unfold ret in H; injection H as <- <-;
    unfold wf, terminated; cbn [length capacity data]; rewrite !wrap_small by sizes.
  - repeat split; try lia.
    + rewrite poke_length; rewrite store_pass_length; lia.
    + apply peek_poke_same. rewrite store_pass_length; lia.
  - apply orb_false_iff in B. destruct B as [B1 B2].
    apply Z.ltb_ge in B1. rewrite Z.geb_leb in B2. apply Z.leb_gt in B2.
    destruct Hdone as [Hw Hz]; [lia|].
    repeat split; try lia.
    + rewrite store_pass_length; lia.
    + rewrite peek_store_pass_in by lia.
      replace (length s1 + fmt_ret pass - length s1) with (fmt_ret pass) by ring.
      exact Hz.
Qed.

Lemma str_append_char_wf s c h s' h' :
  wf s ->
  str_append_char (Some s) c h = Returns ((true, Some s'), h') ->
  wf s'.
Proof.
  intros W H. unfold str_append_char in H. ensure_step H W.
  unfold ret in H. injection H as <- <-.
  split_wf W. split_wf W1. rewrite wrap_small in C1 by sizes.
  unfold wf, terminated; cbn [length capacity data]. rewrite !wrap_small by sizes.
  repeat split; try lia.
  - rewrite !poke_length; try lia. rewrite poke_length; lia.
  - apply peek_poke_same. rewrite poke_length; lia.
Qed.

Lemma str_prepend_wf s a h s' h' :
  wf s -> strlen a < size_half ->
  str_prepend (Some s) (Some a) h = Returns ((true, Some s'), h') ->
  wf s'.
Proof.
  intros W Ha H. unfold str_prepend in H. ensure_step H W.
  unfold ret in H. injection H as <- <-.
  pose proof (strlen_nonneg a) as Hn. pose proof (c_bytes_length a) as Hb.
  split_wf W. split_wf W1. rewrite wrap_small in C1 by sizes.
  unfold wf, terminated; cbn [length capacity data]. rewrite !wrap_small by sizes.
  assert (Hm : sizeof (memmove (data s1) (strlen a) 0 (length s1 + 1)) = sizeof (data s1))
    by (apply memmove_length; lia).
  repeat split; try lia.
  - rewrite memcpy_length; lia.
  - rewrite peek_memcpy_out by lia.
    rewrite peek_memmove_in by lia.
    replace (0 + (length s1 + strlen a - strlen a)) with (length s1) by ring.
    exact Wt0.
Qed.

Lemma str_insert_wf s index a h s' h' :
  wf s -> 0 <= index -> strlen a < size_half ->
  str_insert (Some s) index (Some a) h = Returns ((true, Some s'), h') ->
  wf s'.
Proof.
  intros W Hi Ha H. unfold str_insert in H.
  destruct (Z.gtb_spec index (length s)) as [Hgt | Hle]; [discriminate|].
  ensure_step H W.
  unfold ret in H. injection H as <- <-.
  pose proof (strlen_nonneg a) as Hn. pose proof (c_bytes_length a) as Hb.
  split_wf W. split_wf W1. rewrite wrap_small in C1 by sizes.
  unfold wf, terminated; cbn [length capacity data]. rewrite !wrap_small by sizes.
  assert (Hm : sizeof (memmove (data s1) (index + strlen a) index (length s1 - index + 1))
               = sizeof (data s1)) by (apply memmove_length; lia).
  repeat split; try lia.
  - rewrite memcpy_length; lia.
  - rewrite peek_memcpy_out by lia.
    rewrite peek_memmove_in by lia.
    replace (index + (length s1 + strlen a - (index + strlen a))) with (length s1) by ring.
    exact Wt0.
Qed.

Lemma str_remove_wf s index count s' :
  wf s -> 0 <= index -> 0 <= count ->
  str_remove (Some s) index count = (true, Some s') ->
  wf s'.
Proof.
  intros W Hi Hc H. unfold str_remove in H.
  destruct (Z.geb_spec index (length s)) as [Hge | Hlt]; [discriminate|].
  injection H as <-. split_wf W.
  unfold wf, terminated; cbn [length capacity data].
  rewrite (wrap_small (length s - index)) by sizes.
  set (c := MIN count (length s - index)).
  assert (Hcr : 0 <= c <= length s - index)
    by (unfold c, MIN; destruct (Z.ltb_spec count (length s - index)); lia).
  rewrite !wrap_small by sizes.
  repeat split; try lia.
  - rewrite memmove_length; lia.
  - rewrite peek_memmove_in by lia.
    replace (index + c + (length s - c - index)) with (length s) by ring.
    exact Wt.
Qed.

Lemma str_clear_wf s s' : wf s -> str_clear (Some s) = Some s' -> wf s'.
Proof.
  intros W H. injection H as <-. split_wf W.
  unfold wf, terminated; cbn [length capacity data]. repeat split; try lia.
  rewrite poke_length; lia.
Qed.

Lemma str_resize_wf s n h s' h' :
  wf s -> 0 <= n < size_modulus - 1 ->
  str_resize (Some s) n h = Returns ((true, Some s'), h') ->
  wf s'.
Proof.
  intros W Hn H. unfold str_resize in H. ensure_step H W.
  unfold ret in H. injection H as <- <-.
  split_wf W. split_wf W1. rewrite wrap_small in C1 by sizes.
  unfold wf, terminated; cbn [length capacity data].
  assert (Hd : sizeof (if n >? length s1
                       then memset (data s1) (length s1) NUL (wrap (n - length s1))
                       else data s1) = sizeof (data s1)).
  { destruct (Z.gtb_spec n (length s1)); [|reflexivity].
    rewrite wrap_small by sizes. apply memset_length; lia. }
  repeat split; try lia.
  - rewrite poke_length; lia.
  - apply peek_poke_same. lia.
Qed.

(** ** C strings inside a block *)

Lemma is_prefix_length p l : is_prefix p l = true -> (List.length p <= List.length l)%nat.
Proof.
  revert l. induction p as [|x p IH]; intros [|y l] H; simpl in *;
    try lia; try discriminate.
  apply andb_true_iff in H. destruct H as [_ H]. apply IH in H. lia.
Qed.

Lemma find_sub_bound hay needle k :
  find_sub hay needle = Some k ->
  (k + List.length needle <= List.length hay)%nat.
Proof.
  revert k. induction hay as [|c t IH]; intros k H; simpl in H.
  - destruct (is_prefix needle []) eqn:E; [|discriminate].
    injection H as <-. apply is_prefix_length in E. simpl in *. lia.
  - destruct (is_prefix needle (c :: t)) eqn:E.
    + injection H as <-. apply is_prefix_length in E. simpl in *. lia.
    + destruct (find_sub t needle) as [j|] eqn:F; [|discriminate].
      injection H as <-. specialize (IH j eq_refl). simpl. lia.
Qed.

Lemma c_str_length_nul l : forall n,
  nth n l NUL = NUL -> (List.length (c_str l) <= n)%nat.
Proof.
  induction l as [|c t IH]; intros n H; simpl; [lia|].
  destruct (Ascii.eqb_spec c NUL) as [->|Hc]; simpl; [lia|].
  destruct n as [|m]; simpl in H; [contradiction|].
  apply IH in H. lia.
Qed.

Lemma strlen_at_off d p len :
  0 <= p <= len -> peek d len = NUL -> p + strlen (at_off d p) <= len.
Proof.
  intros Hp Hz. unfold strlen.
  assert (H : (List.length (c_str (at_off d p)) <= Z.to_nat (len - p))%nat).
  { apply c_str_length_nul. change (peek (at_off d p) (len - p) = NUL).
    rewrite peek_at_off by lia. replace (p + (len - p)) with len by ring. exact Hz. }
  lia.
Qed.

Lemma strstr_bound hay needle k :
  strstr hay needle = Some k -> 0 <= k /\ k + strlen needle <= strlen hay.
Proof.
  unfold strstr, strlen. destruct (find_sub _ _) as [j|] eqn:F; [|discriminate].
  intros H. injection H as <-. apply find_sub_bound in F. lia.
Qed.

(** ** Removing every occurrence *)

Lemma str_remove_all_loop_inv fuel sub : forall d len p count d' len' count',
  0 <= p <= len -> len < sizeof d -> sizeof d <= size_half -> peek d len = NUL ->
  str_remove_all_loop fuel sub (strlen sub) d len p count = Returns (d', len', count') ->
  sizeof d' = sizeof d /\ 0 <= len' <= len /\ peek d' len' = NUL.
Proof.
  induction fuel as [|fuel IH]; intros d len p count d' len' count' Hp Hl Hd Hz H;
    simpl in H; [discriminate|].
  destruct (strstr (at_off d p) sub) as [k|] eqn:F.
  - apply strstr_bound in F. destruct F as [Hk Hb].
    pose proof (strlen_at_off d p len Hp Hz) as Hs.
    pose proof (strlen_nonneg sub) as Hn.
    rewrite (wrap_small (len - (p + k) - strlen sub + 1)) in H by sizes.
    rewrite (wrap_small (len - strlen sub)) in H by sizes.
    apply IH in H; try lia.
    + rewrite memmove_length in H by lia.
      destruct H as (A & B & C). repeat split; try lia. exact C.
    + rewrite memmove_length; lia.
    + rewrite memmove_length; lia.
    + rewrite peek_memmove_in by lia. rewrite <- Hz. f_equal. ring.
  - injection H as <- <- <-. repeat split; try lia. exact Hz.
Qed.

Lemma str_remove_all_wf fuel s sub n s' :
  wf s ->
  str_remove_all fuel (Some s) (Some sub) = Returns (n, Some s') ->
  wf s'.
Proof.
  intros W H. unfold str_remove_all in H. split_wf W.
  destruct (str_remove_all_loop _ _ _ _ _ _ _) as [[[d len] count]| |] eqn:E;
    try discriminate.
  injection H as <- <-.
  apply str_remove_all_loop_inv in E; try lia; [|exact Wt].
  unfold wf, terminated; cbn [length capacity data]. repeat split; try lia.
  tauto.
Qed.

(** ** Case mapping *)

Lemma str_to_lower_loop_inv n : forall d len i,
  0 <= i -> 0 <= len < sizeof d -> sizeof d <= size_half ->
  sizeof (str_to_lower_loop n d len i) = sizeof d /\
  peek (str_to_lower_loop n d len i) len = peek d len.
Proof.
  induction n as [|n IH]; intros d len i Hi Hl Hd; simpl; [tauto|].
  destruct (Z.ltb_spec i len) as [Hlt|Hge]; [|tauto].
  rewrite wrap_small by sizes.
  destruct (IH (poke d i (tolower (peek d i))) len (i + 1)) as [A B];
    try (rewrite poke_length); try lia.
  rewrite A, B, poke_length, peek_poke_other by lia. tauto.
Qed.

Lemma str_to_upper_loop_inv n : forall d len i,
  0 <= i -> 0 <= len < sizeof d -> sizeof d <= size_half ->
  sizeof (str_to_upper_loop n d len i) = sizeof d /\
  peek (str_to_upper_loop n d len i) len = peek d len.
Proof.
  induction n as [|n IH]; intros d len i Hi Hl Hd; simpl; [tauto|].
  destruct (Z.ltb_spec i len) as [Hlt|Hge]; [|tauto].
  rewrite wrap_small by sizes.
  destruct (IH (poke d i (toupper (peek d i))) len (i + 1)) as [A B];
    try (rewrite poke_length); try lia.
  rewrite A, B, poke_length, peek_poke_other by lia. tauto.
Qed.

Lemma str_to_lower_wf s s' : wf s -> str_to_lower (Some s) = Some s' -> wf s'.
Proof.
  intros W H. injection H as <-. split_wf W.
  destruct (str_to_lower_loop_inv (Z.to_nat (length s)) (data s) (length s) 0) as [A B];
    try lia.
  unfold wf, terminated; cbn [set_data length capacity data].
  rewrite A, B. tauto.
Qed.

Lemma str_to_upper_wf s s' : wf s -> str_to_upper (Some s) = Some s' -> wf s'.
Proof.
  intros W H. injection H as <-. split_wf W.
  destruct (str_to_upper_loop_inv (Z.to_nat (length s)) (data s) (length s) 0) as [A B];
    try lia.
  unfold wf, terminated; cbn [set_data length capacity data].
  rewrite A, B. tauto.
Qed.

Lemma wf_poke_inside s i c :
  wf s -> 0 <= i < length s -> wf (set_data s (poke (data s) i c)).
Proof.
  intros W Hi. split_wf W.
  unfold wf, terminated; cbn [set_data length capacity data].
  rewrite poke_length, peek_poke_other by lia. tauto.
Qed.

Lemma str_ensure_capacity_failed s cap h r h' :
  str_ensure_capacity s cap h = Returns ((false, r), h') -> r = s.
Proof.
  unfold str_ensure_capacity. destruct s as [s0|].
  - destruct (capacity s0 >=? cap); [unfold ret; congruence|].
    destruct (str_round_capacity cap); [|discriminate].
    unfold bind, realloc. destruct (next_request h) as [[|] h1]; unfold ret; congruence.
  - unfold ret. congruence.
Qed.

Lemma str_insert_failed s index a h r h' :
  str_insert (Some s) index (Some a) h = Returns ((false, r), h') -> r = Some s.
Proof.
  unfold str_insert. destruct (index >? length s); [unfold ret; congruence|].
  intros H. apply bind_returns in H. destruct H as ([ok r0] & h1 & E & H).
  destruct ok.
  - destruct r0; unfold ret in H; try discriminate.
    injection H as <- <-.
    unfold str_ensure_capacity in E. 
    destruct (capacity s >=? _); [unfold ret in E; congruence|].
    destruct (str_round_capacity _); [|discriminate].
    unfold bind, realloc in E. destruct (next_request h) as [[|] h2]; unfold ret in E; congruence.
  - apply str_ensure_capacity_failed in E. subst r0.
    unfold ret in H. congruence.
Qed.

Lemma str_snake_case_loop_wf fuel : forall s i h s' h',
  wf s -> 0 <= i ->
  str_snake_case_loop fuel s i h = Returns (s', h') -> wf s'.
Proof.
  induction fuel as [|fuel IH]; intros s i h s' h' W Hi H;
    cbn [str_snake_case_loop] in H.
  - destruct (i <? length s); [discriminate|]. unfold ret in H. congruence.
  - destruct (Z.ltb_spec i (length s)) as [Hlt|Hge];
      [|unfold ret in H; congruence].
    assert (Hb : 0 <= i < size_half) by (destruct W as (? & ? & _); lia).
    rewrite !(wrap_small (i + 1)) in H by sizes.
    rewrite (wrap_small (i + 1 + 1)) in H by sizes.
    destruct (isupper (peek (data s) i)); [|eapply IH; [exact W| |exact H]; lia].
    pose proof (wf_poke_inside s i (tolower (peek (data s) i)) W (conj Hi Hlt)) as W1.
    destruct (i >? 0); [|eapply IH; [exact W1| |exact H]; lia].
    apply bind_returns in H. destruct H as ([ok r] & h1 & E & H).
    eapply IH; [| |exact H]; [|lia].
    destruct ok.
    + destruct r as [s2|]; [|exact W1]. cbn [snd].
      eapply str_insert_wf; [exact W1| | |exact E]; [lia|].
      reflexivity.
    + apply str_insert_failed in E. subst r. exact W1.
Qed.

Lemma str_snake_case_wf s h s' h' :
  wf s -> str_snake_case (Some s) h = Returns (Some s', h') -> wf s'.
Proof.
  intros W H. unfold str_snake_case in H.
  apply bind_returns in H. destruct H as (s1 & h1 & E & H).
  unfold ret in H. injection H as <- <-.
  eapply str_snake_case_loop_wf; [exact W| |exact E]. lia.
Qed.

Lemma str_camel_case_loop_inv n : forall d len read write cap d' w,
  0 <= write <= read -> read <= len -> len < sizeof d -> sizeof d <= size_half ->
  str_camel_case_loop n d len read write cap = (d', w) ->
  sizeof d' = sizeof d /\ 0 <= w <= len.
Proof.
  induction n as [|n IH]; intros d len read write cap d' w Hw Hr Hl Hd H;
    cbn [str_camel_case_loop] in H.
  - injection H as <- <-. lia.
  - destruct (Z.ltb_spec read len) as [Hlt|Hge]; [|injection H as <- <-; lia].
    rewrite !(wrap_small (read + 1)) in H by sizes.
    rewrite ?(wrap_small (write + 1)) in H by sizes.
    destruct (_ || _).
    + apply IH in H; lia.
    + destruct cap; apply IH in H; try (rewrite poke_length in * by lia); lia.
Qed.

Lemma str_camel_case_wf s s' : wf s -> str_camel_case (Some s) = Some s' -> wf s'.
Proof.
  intros W H. unfold str_camel_case in H.
  destruct (Z.eqb_spec (length s) 0) as [Hz|Hnz]; [congruence|].
  split_wf W.
  destruct (str_camel_case_loop _ _ _ _ _ _) as [d w] eqn:E.
  injection H as <-.
  apply str_camel_case_loop_inv in E; try (rewrite poke_length by lia); try lia.
  rewrite poke_length in E by lia.
  unfold wf, terminated; cbn [length capacity data].
  rewrite poke_length, peek_poke_same by lia. repeat split; lia.
Qed.

Lemma str_pascal_case_loop_inv n : forall d len read write nw d' w,
  0 <= write <= read -> read <= len -> len < sizeof d -> sizeof d <= size_half ->
  str_pascal_case_loop n d len read write nw = (d', w) ->
  sizeof d' = sizeof d /\ 0 <= w <= len.
Proof.
  induction n as [|n IH]; intros d len read write nw d' w Hw Hr Hl Hd H;
    cbn [str_pascal_case_loop] in H.
  - injection H as <- <-. lia.
  - destruct (Z.ltb_spec read len) as [Hlt|Hge]; [|injection H as <- <-; lia].
    rewrite !(wrap_small (read + 1)) in H by sizes.
    rewrite ?(wrap_small (write + 1)) in H by sizes.
    destruct (_ || _).
    + apply IH in H; lia.
    + destruct nw; [|destruct (_ && _)];
        apply IH in H; try (rewrite poke_length in * by lia); lia.
Qed.

Lemma str_pascal_case_wf s s' : wf s -> str_pascal_case (Some s) = Some s' -> wf s'.
Proof.
  intros W H. unfold str_pascal_case in H.
  destruct (Z.eqb_spec (length s) 0) as [Hz|Hnz]; [congruence|].
  split_wf W.
  destruct (str_pascal_case_loop _ _ _ _ _ _) as [d w] eqn:E.
  injection H as <-.
  apply str_pascal_case_loop_inv in E; try lia.
  unfold wf, terminated; cbn [length capacity data].
  rewrite poke_length, peek_poke_same by lia. repeat split; lia.
Qed.

(** ** Trimming *)

Lemma skip_leading_range n : forall d len start,
  0 <= start <= len -> len < size_half ->
  start <= skip_leading n d len start <= len.
Proof.
  induction n as [|n IH]; intros d len start Hs Hl; cbn [skip_leading]; [lia|].
  destruct (Z.ltb_spec start len) as [Hlt|Hge]; cbn [andb]; [|lia].
  destruct (isspace _); [|lia].
  rewrite wrap_small by sizes. specialize (IH d len (start + 1)). lia.
Qed.

Lemma skip_trailing_range n : forall d start e,
  0 <= start -> 0 <= e < size_half ->
  Z.min start e <= skip_trailing n d start e <= e.
Proof.
  induction n as [|n IH]; intros d start e Hs He; cbn [skip_trailing]; [lia|].
  destruct (Z.gtb_spec e start) as [Hgt|Hle]; cbn [andb]; [|lia].
  destruct (isspace _); [|lia].
  rewrite wrap_small by sizes. specialize (IH d start (e - 1)). lia.
Qed.

Lemma str_trim_wf s s' : wf s -> str_trim (Some s) = Some s' -> wf s'.
Proof.
  intros W H. unfold str_trim in H.
  destruct (Z.eqb_spec (length s) 0) as [Hz|Hnz]; [congruence|].
  injection H as <-. split_wf W.
  rewrite (wrap_small (length s - 1)) by sizes.
  pose proof (skip_leading_range (Z.to_nat (length s)) (data s) (length s) 0) as Hs.
  set (start := skip_leading _ _ _ _) in *.
  pose proof (skip_trailing_range (Z.to_nat (length s)) (data s) start (length s - 1)) as He.
  set (e := skip_trailing _ _ _ _) in *.
  assert (Hlen : 0 <= e - start + 1 <= length s /\ e + 1 <= length s) by lia.
  rewrite !wrap_small by sizes.
  unfold wf, terminated; cbn [length capacity data].
  assert (Hm : sizeof (memmove (data s) 0 start (e - start + 1)) = sizeof (data s))
    by (apply memmove_length; lia).
  rewrite poke_length, peek_poke_same by lia. repeat split; lia.
Qed.

Lemma str_rtrim_wf s s' : wf s -> str_rtrim (Some s) = Some s' -> wf s'.
Proof.
  intros W H. unfold str_rtrim in H.
  destruct (Z.eqb_spec (length s) 0) as [Hz|Hnz]; [congruence|].
  injection H as <-. split_wf W.
  rewrite (wrap_small (length s - 1)) by sizes.
  pose proof (skip_trailing_range (Z.to_nat (length s)) (data s) 0 (length s - 1)) as He.
  set (e := skip_trailing _ _ _ _) in *.
  rewrite !wrap_small by sizes.
  unfold wf, terminated; cbn [length capacity data].
  rewrite poke_length, peek_poke_same by lia. repeat split; lia.
Qed.

Lemma str_ltrim_wf s s' : wf s -> str_ltrim (Some s) = Some s' -> wf s'.
Proof.
  intros W H. unfold str_ltrim in H.
  destruct (Z.eqb_spec (length s) 0) as [Hz|Hnz]; [congruence|].
  injection H as <-. split_wf W.
  pose proof (skip_leading_range (Z.to_nat (length s)) (data s) (length s) 0) as Hs.
  set (start := skip_leading _ _ _ _) in *.
  rewrite !wrap_small by sizes.
  unfold wf, terminated; cbn [length capacity data].
  assert (Hm : sizeof (memmove (data s) 0 start (length s - start)) = sizeof (data s))
    by (apply memmove_length; lia).
  rewrite poke_length, peek_poke_same by lia. repeat split; lia.
Qed.

(** ** Reversal in place *)

Lemma str_reverse_in_place_loop_inv n : forall d start e len,
  0 <= start -> e < len -> len < sizeof d ->
  sizeof (str_reverse_in_place_loop n d start e) = sizeof d /\
  peek (str_reverse_in_place_loop n d start e) len = peek d len.
Proof.
  induction n as [|n IH]; intros d start e len Hs He Hl;
    cbn [str_reverse_in_place_loop]; [tauto|].
  destruct (Z.ltb_spec start e) as [Hlt|Hge]; [|tauto].
  set (d1 := poke d start (peek d e)).
  assert (H1 : sizeof d1 = sizeof d) by (apply poke_length; lia).
  set (d2 := poke d1 e (peek d start)).
  assert (H2 : sizeof d2 = sizeof d) by (unfold d2; rewrite poke_length; lia).
  destruct (IH d2 (start + 1) (e - 1) len) as [A B]; try lia.
  rewrite A, B. split; [lia|].
  unfold d2. rewrite peek_poke_other by lia.
  unfold d1. rewrite peek_poke_other by lia. reflexivity.
Qed.

Lemma str_reverse_in_place_wf s s' :
  wf s -> str_reverse_in_place (Some s) = Some s' -> wf s'.
Proof.
  intros W H. unfold str_reverse_in_place in H.
  destruct (length s <? 2); [congruence|]. injection H as <-. split_wf W.
  destruct (str_reverse_in_place_loop_inv (Z.to_nat (length s)) (data s) 0
              (length s - 1) (length s)) as [A B]; try lia.
  unfold wf, terminated; cbn [set_data length capacity data].
  rewrite A, B. tauto.
Qed.

(** ** The terminator *)

Lemma lift_returns {A} (r : run A) h a h' :
  lift r h = Returns (a, h') -> r = Returns a /\ h' = h.
Proof. destruct r; simpl; intros H; try discriminate. injection H as <- <-. tauto. Qed.

Lemma ret_pair_returns {A B} (a a' : A) (b b' : B) h h' :
  ret (a, b) h = Returns ((a', b'), h') -> a = a' /\ b = b'.
Proof. unfold ret. intros H. injection H as <- <- _. tauto. Qed.

(** Every mutating operation that succeeds on a buffer satisfying the
    invariants yields a buffer satisfying them. *)
Lemma mutate_wf m s h s' h' :
  wf s -> mutation_ok m ->
  mutate m s h = Returns ((true, Some s'), h') ->
  wf s'.
Proof.
  intros W Hok H. destruct m; cbn [mutate mutation_ok] in *; unfold is_size in *.
  - eapply str_append_wf; eassumption.
  - eapply str_append_fmt_wf; eassumption.
  - eapply str_append_char_wf; eassumption.
  - eapply str_prepend_wf; eassumption.
  - destruct Hok. eapply str_insert_wf; [exact W| | |exact H]; [lia|assumption].
  - destruct Hok. destruct (str_remove (Some s) index count) as [b r] eqn:E.
    apply ret_pair_returns in H. destruct H as [-> ->].
    eapply str_remove_wf; [exact W| | |exact E]; lia.
  - apply bind_returns in H. destruct H as ([n r] & h1 & E & H).
    apply lift_returns in E. destruct E as [E _].
    apply ret_pair_returns in H. cbn [snd] in H. destruct H as [_ ->].
    eapply str_remove_all_wf; eassumption.
  - apply ret_pair_returns in H. destruct H as [_ H]. eapply str_clear_wf; eassumption.
  - eapply str_resize_wf; eassumption.
  - apply ret_pair_returns in H. destruct H as [_ H]. eapply str_to_lower_wf; eassumption.
  - apply ret_pair_returns in H. destruct H as [_ H]. eapply str_to_upper_wf; eassumption.
  - apply ret_pair_returns in H. destruct H as [_ H]. eapply str_camel_case_wf; eassumption.
  - apply ret_pair_returns in H. destruct H as [_ H]. eapply str_pascal_case_wf; eassumption.
  - apply ret_pair_returns in H. destruct H as [_ H]. eapply str_trim_wf; eassumption.
  - apply ret_pair_returns in H. destruct H as [_ H]. eapply str_rtrim_wf; eassumption.
  - apply ret_pair_returns in H. destruct H as [_ H]. eapply str_ltrim_wf; eassumption.
  - apply ret_pair_returns in H. destruct H as [_ H]. eapply str_reverse_in_place_wf; eassumption.
Qed.

(** After every successful operation of [mutation] on a buffer that
    satisfies the invariants of the data model, the byte at index
    [length] is the zero terminator: append, formatted append, append of
    a byte, prepend, insert, remove, remove-all, clear, resize, the case
    mappings, camel and Pascal case, the three trims and the reversal in
    place. *)
Theorem terminator_after_mutation m s h s' h' :
  wf s -> mutation_ok m ->
  mutate m s h = Returns ((true, Some s'), h') ->
  peek (data s') (length s') = NUL.
Proof.
  intros W Hok H. pose proof (mutate_wf m s h s' h' W Hok H) as W'.
  destruct W' as (_ & _ & _ & T). exact T.
Qed.

Lemma wf_hello : wf hello.
Proof. unfold wf, terminated. cbn [length capacity data hello]. repeat split; try (vm_compute; congruence). Qed.

Lemma terminator_after_mutation_witness :
  peek (data hello_world) (length hello_world) = NUL.
Proof.
  apply (terminator_after_mutation (Append (lit " World")) hello generous
           hello_world generous).
  - exact wf_hello.
  - reflexivity.
  - reflexivity.
Defined.

(** ** The caller of [str_snake_case] *)

(** The operations on a pointer do to its block what the operations on
    a buffer do. *)
Lemma str_ensure_capacity_at_target place p cap h :
  str_ensure_capacity (Some (target p)) cap h
  = match str_ensure_capacity_at place p cap h with
    | Returns ((ok, q), h') => Returns ((ok, Some (target q)), h')
    | Timeout => Timeout
    | Trap => Trap
    end.
Proof.
  unfold str_ensure_capacity, str_ensure_capacity_at.
  destruct (capacity (target p) >=? cap); [reflexivity|].
  destruct (str_round_capacity cap); [|reflexivity].
  unfold bind, realloc. destruct (next_request h) as [[|] h1]; reflexivity.
Qed.

Lemma str_insert_at_target place p index (ins : cstring) h :
  str_insert (Some (target p)) index (Some ins) h
  = match str_insert_at place p index ins h with
    | Returns ((ok, q), h') => Returns ((ok, Some (target q)), h')
    | Timeout => Timeout
    | Trap => Trap
    end.
Proof.
  unfold str_insert, str_insert_at.
  destruct (index >? length (target p)); [reflexivity|].
  unfold bind. rewrite (str_ensure_capacity_at_target place).
  destruct (str_ensure_capacity_at place p _ h) as [[[[|] q] h1]| |]; reflexivity.
Qed.

Lemma str_snake_case_at_loop_target place fuel : forall p i h,
  str_snake_case_loop fuel (target p) i h
  = match str_snake_case_at_loop place fuel p i h with
    | Returns (q, h') => Returns (target q, h')
    | Timeout => Timeout
    | Trap => Trap
    end.
Proof.
  induction fuel as [|fuel IH]; intros p i h;
    cbn [str_snake_case_loop str_snake_case_at_loop].
  - destruct (i <? length (target p)); reflexivity.
  - destruct (i <? length (target p)); [|reflexivity].
    destruct (isupper (peek (data (target p)) i)); [|apply IH].
    set (p1 := {| address := address p;
                  target := set_data (target p)
                              (poke (data (target p)) i
                                 (tolower (peek (data (target p)) i))) |}).
    destruct (i >? 0); [|apply (IH p1)].
    unfold bind.
    change (set_data (target p) (poke (data (target p)) i
                                   (tolower (peek (data (target p)) i))))
      with (target p1).
    rewrite (str_insert_at_target place p1).
    destruct (str_insert_at place p1 i (lit "_") h) as [[[ok q] h1]| |];
      try reflexivity.
    cbn [snd]. apply IH.
Qed.

Lemma str_snake_case_at_target place p h :
  str_snake_case (Some (target p)) h
  = match str_snake_case_at place (Some p) h with
    | Returns (Some q, h') => Returns (Some (target q), h')
    | Returns (None, h') => Returns (None, h')
    | Timeout => Timeout
    | Trap => Trap
    end.
Proof.
  unfold str_snake_case, str_snake_case_at, bind.
  rewrite (str_snake_case_at_loop_target place).
  destruct (str_snake_case_at_loop place _ p 0 h) as [[q h1]| |]; reflexivity.
Qed.

(** When the caller's pointer still designates a buffer after
    [str_snake_case], it is the buffer the function has worked on. *)
Lemma str_snake_case_caller_live place p h s h' :
  str_snake_case_caller place (Some p) h = Returns (Some (Live s), h') ->
  str_snake_case (Some (target p)) h = Returns (Some s, h').
Proof.
  intros H. rewrite (str_snake_case_at_target place).
  unfold str_snake_case_caller, bind in H.
  destruct (str_snake_case_at place (Some p) h) as [[[q|] h1]| |];
    try discriminate.
  unfold ret in H. destruct (address q =? address p)%nat; [|discriminate].
  now injection H as <- <-.
Qed.

(** An allocator that grows every block where it is leaves the caller's
    pointer on the buffer. *)
Lemma str_snake_case_at_loop_in_place fuel : forall p i h q h',
  str_snake_case_at_loop in_place fuel p i h = Returns (q, h') ->
  address q = address p.
Proof.
  induction fuel as [|fuel IH]; intros p i h q h' H;
    cbn [str_snake_case_at_loop] in H.
  - destruct (i <? length (target p)); [discriminate|].
    unfold ret in H. now injection H as <- _.
  - destruct (i <? length (target p)); [|unfold ret in H; now injection H as <- _].
    destruct (isupper (peek (data (target p)) i)); [|now apply IH in H].
    destruct (i >? 0); [|now apply IH in H].
    apply bind_returns in H. destruct H as ([ok r] & h1 & E & H).
    apply IH in H. cbn [snd] in H. rewrite H. clear H.
    unfold str_insert_at in E. cbn [target address] in E.
    destruct (i >? _); [unfold ret in E; now injection E as _ <- _|].
    apply bind_returns in E. destruct E as ([ok1 p1] & h2 & E & E').
    assert (A : address p1 = address p).
    { unfold str_ensure_capacity_at in E. cbn [target address] in E.
      destruct (_ >=? _); [unfold ret in E; now injection E as _ <- _|].
      destruct (str_round_capacity _); [|discriminate].
      apply bind_returns in E. destruct E as ([block|] & h3 & _ & E);
        unfold ret in E; now injection E as _ <- _. }
    destruct ok1; unfold ret in E'; injection E' as _ <- _; exact A.
Qed.

Lemma str_snake_case_caller_in_place p h s h' :
  str_snake_case (Some (target p)) h = Returns (Some s, h') ->
  str_snake_case_caller in_place (Some p) h = Returns (Some (Live s), h').
Proof.
  intros H. rewrite (str_snake_case_at_target in_place) in H.
  unfold str_snake_case_caller, bind.
  destruct (str_snake_case_at in_place (Some p) h) as [[[q|] h1]| |] eqn:E;
    try discriminate.
  injection H as <- <-. unfold ret.
  unfold str_snake_case_at in E. apply bind_returns in E.
  destruct E as (q0 & h2 & E & E'). unfold ret in E'. injection E' as <- _.
  apply str_snake_case_at_loop_in_place in E. rewrite E, Nat.eqb_refl. reflexivity.
Qed.

(** What the caller of [str_snake_case] still holds satisfies the
    invariants. *)
Lemma str_snake_case_caller_wf place p h s h' :
  wf (target p) ->
  str_snake_case_caller place (Some p) h = Returns (Some (Live s), h') ->
  wf s.
Proof.
  intros W H. apply str_snake_case_caller_live in H.
  eapply str_snake_case_wf; eassumption.
Qed.

(** C3, at [str_snake_case]. The buffer [fifteen] satisfies the
    invariants and is full; [str_snake_case] inserts an underscore and
    [str_insert] has the block reallocated. With an allocator that moves
    the block, the function's own pointer follows it to the new address,
    where the buffer is terminated, but the caller's pointer designates
    the block [realloc] has freed: there is no byte at index [length] for
    the caller to find. When the block is grown where it is, the caller
    holds the terminated buffer. *)
Theorem str_snake_case_strands_caller :
  let p := {| address := 0; target := fifteen |} in
  wf fifteen /\
  str_snake_case_at moving (Some p) generous
    = Returns (Some {| address := 1; target := fifteen_snake |}, generous) /\
  peek (data fifteen_snake) (length fifteen_snake) = NUL /\
  str_snake_case_caller moving (Some p) generous = Returns (Some Freed, generous) /\
  str_snake_case_caller in_place (Some p) generous
    = Returns (Some (Live fifteen_snake), generous).
Proof.
  cbv zeta. split.
  - unfold wf, terminated. cbn [length capacity data fifteen].
    repeat split; try (vm_compute; congruence).
  - repeat split.
Qed.

(** ** Searching for the empty string *)

Lemma find_sub_nil hay : find_sub hay [] = Some O.
Proof. destruct hay; reflexivity. Qed.

(** C9. For every buffer, [str_find] with the empty substring returns 0 and
    [str_rfind] with the empty substring returns the not-found value -1:
    the two directions disagree on the empty substring. *)
Theorem find_rfind_empty_substring (s : str) :
  str_find (Some s) (Some (lit "")) = 0 /\
  str_rfind (Some s) (Some (lit "")) = STR_NPOS /\
  str_find (Some s) (Some (lit "")) <> str_rfind (Some s) (Some (lit "")).
Proof.
  assert (F : str_find (Some s) (Some (lit "")) = 0).
  { unfold str_find, strstr. cbn [lit list_ascii_of_string c_str].
    rewrite find_sub_nil. reflexivity. }
  assert (R : str_rfind (Some s) (Some (lit "")) = STR_NPOS) by reflexivity.
  rewrite F, R. repeat split. discriminate.
Qed.

(** ** Comparison *)

Lemma strcmp_agree n : forall a b,
  (n < List.length a)%nat -> nth n a NUL = NUL ->
  firstn (S n) a = firstn (S n) b ->
  strcmp a b = 0.
Proof.
  induction n as [|n IH]; intros [|x a] [|y b] Hl Hz Hf; simpl in Hl, Hz, Hf;
    try lia; try discriminate.
  - injection Hf as <-. subst x. reflexivity.
  - injection Hf as <- Hf. cbn [strcmp]. rewrite Ascii.eqb_refl.
    destruct (x =? NUL)%char; [reflexivity|].
    apply IH; [lia|assumption|assumption].
Qed.

(** C10. The result of [str_compare] and [str_equals] on two buffers
    whose blocks agree on every byte up to and including the first zero
    byte is 0 and true, whatever their recorded lengths, their
    capacities and the bytes after that zero byte. *)
Theorem compare_reads_up_to_first_zero (s1 s2 : str) (n : nat) :
  first_zero (data s1) n ->
  firstn (S n) (data s1) = firstn (S n) (data s2) ->
  str_compare (Some s1) (Some s2) = 0 /\ str_equals (Some s1) (Some s2) = true.
Proof.
  intros (Hl & Hz & _) Hf.
  assert (C : str_compare (Some s1) (Some s2) = 0)
    by (cbn [str_compare]; eapply strcmp_agree; eassumption).
  split; [exact C|]. unfold str_equals. rewrite C. reflexivity.
Qed.

Lemma first_zero_abc_long : first_zero (data abc_long) 3.
Proof.
  repeat split.
  - cbn. lia.
  - intros i Hi. destruct i as [|[|[|i]]]; cbn; try discriminate. lia.
Qed.

Lemma compare_reads_up_to_first_zero_witness :
  length abc_long <> length abc_short /\
  data abc_long <> data abc_short /\
  str_compare (Some abc_long) (Some abc_short) = 0 /\
  str_equals (Some abc_long) (Some abc_short) = true.
Proof.
  split; [discriminate|]. split; [discriminate|].
  apply (compare_reads_up_to_first_zero abc_long abc_short 3).
  - exact first_zero_abc_long.
  - reflexivity.
Defined.

(** ** Where the code leaves the description *)

Lemma str_reverse_shape s h r h' :
  str_reverse (Some s) h = Returns (Some r, h') ->
  length r = length s /\ capacity r = wrap (length s + 1).
Proof.
  unfold str_reverse. destruct (length s =? 0); [unfold ret; congruence|].
  intros H. apply bind_returns in H. destruct H as (m & h1 & _ & H).
  destruct m as [block|]; [|unfold ret in H; congruence].
  destruct (str_reverse_loop _ _ _ _ _) as [rd dest].
  unfold ret in H. injection H as <- _. split; reflexivity.
Qed.

(** C1, at [str_reverse]. The buffer [str_reverse] returns for the
    two-byte buffer "ab" has capacity 3: not a power of two and below 16.
    The block is obtained from [malloc] directly, with room for the
    content and the terminator only. *)
Theorem str_reverse_breaks_capacity :
  str_reverse (Some ab) generous = Returns (Some ba, generous) /\
  capacity ba = 3 /\
  ~ power_of_two (capacity ba) /\
  ~ STR_MIN_CAPACITY <= capacity ba /\
  ~ capacity_ok ba.
Proof.
  assert (P : ~ power_of_two 3).
  { intros (k & Hk & E).
    destruct (Z.eq_dec k 0) as [->|]; [discriminate|].
    destruct (Z.eq_dec k 1) as [->|]; [discriminate|].
    assert (2 ^ 2 <= 2 ^ k) by (apply Z.pow_le_mono_r; lia).
    change (2 ^ 2) with 4 in *. lia. }
  repeat split.
  - exact P.
  - cbn. unfold STR_MIN_CAPACITY. lia.
  - intros (H & _). exact (P H).
Qed.

Lemma strstr_empty hay : strstr hay (lit "") = Some 0.
Proof.
  unfold strstr. cbn [lit list_ascii_of_string c_str].
  rewrite find_sub_nil. reflexivity.
Qed.

Lemma str_remove_all_loop_empty fuel : forall d len p count,
  str_remove_all_loop fuel (lit "") 0 d len p count = Timeout.
Proof.
  induction fuel as [|fuel IH]; intros d len p count; [reflexivity|].
  cbn [str_remove_all_loop]. rewrite strstr_empty. apply IH.
Qed.

Lemma replace_count_loop_empty fuel : forall d p count,
  replace_count_loop fuel d (lit "") 0 p count = Timeout.
Proof.
  induction fuel as [|fuel IH]; intros d p count; [reflexivity|].
  cbn [replace_count_loop]. rewrite strstr_empty. apply IH.
Qed.

(** C2, at the empty string. With the empty string as the substring,
    [str_remove_all], [str_replace] and [str_replace_all] are still in
    their first loop when the fuel runs out, whatever the fuel: [strstr]
    finds the empty string where the pointer already is and the pointer
    does not advance. *)
Theorem empty_substring_never_returns (fuel : nat) (s : str) (new : cstring) (h : heap) :
  str_remove_all fuel (Some s) (Some (lit "")) = Timeout /\
  str_replace fuel (Some s) (Some (lit "")) (Some new) h = Timeout /\
  str_replace_all fuel (Some s) (Some (lit "")) (Some new) h = Timeout.
Proof.
  repeat split.
  - unfold str_remove_all. change (strlen (lit "")) with 0.
    now rewrite str_remove_all_loop_empty.
  - unfold str_replace, bind, lift. change (strlen (lit "")) with 0.
    now rewrite replace_count_loop_empty.
  - unfold str_replace_all, bind, lift. change (strlen (lit "")) with 0.
    now rewrite replace_count_loop_empty.
Qed.

(** C6, at a buffer of blanks. [str_rtrim] leaves the one-blank buffer
    as it is: its loop stops at index 0 without looking at the byte
    there. The buffer is not empty and its last byte is a blank.
    [str_trim] empties the same buffer. *)
Theorem str_rtrim_keeps_a_blank :
  str_rtrim (Some blank) = Some blank /\
  length blank = 1 /\
  isspace (peek (data blank) (length blank - 1)) = true /\
  option_map length (str_trim (Some blank)) = Some 0.
Proof. repeat split. Qed.

(** C7, at [str_snake_case]. When the allocator refuses the request,
    [str_insert] reports the failure and leaves the buffer as it was,
    but [str_snake_case] has lowered the byte before the call, does not
    look at the result and returns as usual: the buffer is changed, no
    underscore is in it, and nothing tells the caller. *)
Theorem str_snake_case_ignores_failure :
  str_insert (Some fifteen) 14 (Some (lit "_")) exhausted
    = Returns ((false, Some fifteen), generous) /\
  str_snake_case (Some fifteen) exhausted
    = Returns (Some fifteen_lowered, generous) /\
  fifteen_lowered <> fifteen /\
  option_map content
    (match str_snake_case (Some fifteen) generous with
     | Returns (r, _) => r
     | _ => None
     end) = Some (lit "abcdefghijklmn_o").
Proof. repeat split. discriminate. Qed.

(** ** Formatted append *)



Lemma c_str_app_nul t rest :
  c_str (c_str t ++ NUL :: rest) = c_str t.
Proof.
  induction t as [|c t IH]; [reflexivity|]. cbn [c_str].
  destruct (c =? NUL)%char eqn:E; [reflexivity|].
  cbn [app c_str]. rewrite E, IH. reflexivity.
Qed.

Lemma c_str_firstn n t : c_str (firstn n (c_str t)) = firstn n (c_str t).
Proof.
  revert n. induction t as [|c t IH]; intros n; cbn [c_str].
  - now rewrite firstn_nil.
  - destruct (c =? NUL)%char eqn:E; [now rewrite firstn_nil|].
    destruct n as [|n]; [reflexivity|]. cbn [firstn c_str]. now rewrite E, IH.
Qed.





(** ** C strings as prefixes of their block *)

Lemma c_str_prefix l : firstn (List.length (c_str l)) l = c_str l.
Proof.
  induction l as [|c t IH]; [reflexivity|]. cbn [c_str].
  destruct (c =? NUL)%char; [reflexivity|]. cbn. now rewrite IH.
Qed.

Lemma c_str_length_le l : (List.length (c_str l) <= List.length l)%nat.
Proof.
  induction l as [|c t IH]; [simpl; lia|]. cbn [c_str].
  destruct (c =? NUL)%char; simpl; lia.
Qed.

Lemma c_str_nth l i :
  (i < List.length (c_str l))%nat ->
  nth i (c_str l) NUL = nth i l NUL /\ nth i l NUL <> NUL.
Proof.
  revert i. induction l as [|c t IH]; intros i Hi; cbn [c_str] in *; [simpl in Hi; lia|].
  destruct (Ascii.eqb_spec c NUL) as [->|Hc]; [simpl in Hi; lia|].
  destruct i as [|i]; [simpl; tauto|]. simpl in Hi. apply IH. lia.
Qed.

Lemma c_str_end l :
  nth (List.length (c_str l)) l NUL = NUL.
Proof.
  induction l as [|c t IH]; [reflexivity|]. cbn [c_str].
  destruct (Ascii.eqb_spec c NUL) as [->|Hc]; [reflexivity|]. exact IH.
Qed.

Lemma c_str_skipn l p :
  (p <= List.length (c_str l))%nat -> c_str (skipn p l) = skipn p (c_str l).
Proof.
  revert p. induction l as [|c t IH]; intros p Hp; [now rewrite !skipn_nil|].
  destruct p as [|p]; [reflexivity|]. cbn [c_str] in *.
  destruct (c =? NUL)%char; [simpl in Hp; lia|]. simpl in Hp. cbn [skipn].
  apply IH. lia.
Qed.

Lemma c_str_idem l : c_str (c_str l) = c_str l.
Proof.
  induction l as [|c t IH]; [reflexivity|]. cbn [c_str].
  destruct (c =? NUL)%char eqn:E; [reflexivity|]. cbn [c_str]. now rewrite E, IH.
Qed.

Lemma is_prefix_app p l : is_prefix p l = true -> l = p ++ skipn (List.length p) l.
Proof.
  revert l. induction p as [|x p IH]; intros [|y l] H; simpl in *;
    try reflexivity; try discriminate.
  apply andb_true_iff in H. destruct H as [E H].
  apply Ascii.eqb_eq in E. subst y. f_equal. now apply IH.
Qed.

(** ** The description's replacement *)

Lemma c_str_app_fixed a b : c_str a = a -> c_str (a ++ b) = a ++ c_str b.
Proof.
  induction a as [|c a IH]; intros H; [reflexivity|]. cbn [c_str app] in *.
  destruct (c =? NUL)%char; [discriminate|]. injection H as H. now rewrite IH.
Qed.

Lemma c_str_skipn_fixed n l : c_str l = l -> c_str (skipn n l) = skipn n l.
Proof.
  intros H. destruct (Nat.le_gt_cases n (List.length l)) as [Hn|Hn].
  - rewrite c_str_skipn by (rewrite H; exact Hn). now rewrite H.
  - rewrite skipn_all2 by lia. reflexivity.
Qed.

Lemma skipn_pred_tail (o : ascii) old' c (t : list ascii) :
  skipn (List.length (o :: old') - 1) t = skipn (List.length (o :: old')) (c :: t).
Proof.
  replace (List.length (o :: old') - 1)%nat with (List.length old') by (simpl; lia).
  reflexivity.
Qed.

Section Substitution.

Variables old new : list ascii.
Hypothesis old_not_empty : old <> [].

Lemma spec_substitute_from_skip k s :
  spec_substitute_from old new k s = spec_substitute old new (skipn k s).
Proof.
  revert k. induction s as [|c t IH]; intros k; [now rewrite skipn_nil|].
  destruct k as [|k]; [reflexivity|]. cbn [spec_substitute_from skipn]. apply IH.
Qed.

Lemma spec_occurrences_from_skip k s :
  spec_occurrences_from old k s = spec_occurrences old (skipn k s).
Proof.
  revert k. induction s as [|c t IH]; intros k; [now rewrite skipn_nil|].
  destruct k as [|k]; [reflexivity|]. cbn [spec_occurrences_from skipn]. apply IH.
Qed.

(** The equations of the scan, as the description words it. *)
Lemma spec_substitute_cons c t :
  spec_substitute old new (c :: t) =
  if is_prefix old (c :: t)
  then new ++ spec_substitute old new (skipn (List.length old) (c :: t))
  else c :: spec_substitute old new t.
Proof.
  unfold spec_substitute at 1. cbn [spec_substitute_from].
  destruct (is_prefix old (c :: t)); [|reflexivity].
  rewrite spec_substitute_from_skip. destruct old as [|o old']; [contradiction|].
  now rewrite (skipn_pred_tail o old' c t).
Qed.

Lemma spec_occurrences_cons c t :
  spec_occurrences old (c :: t) =
  if is_prefix old (c :: t)
  then S (spec_occurrences old (skipn (List.length old) (c :: t)))
  else spec_occurrences old t.
Proof.
  unfold spec_occurrences at 1. cbn [spec_occurrences_from].
  destruct (is_prefix old (c :: t)); [|reflexivity].
  rewrite spec_occurrences_from_skip. destruct old as [|o old']; [contradiction|].
  now rewrite (skipn_pred_tail o old' c t).
Qed.

Lemma old_length_positive : (0 < List.length old)%nat.
Proof. destruct old; [contradiction|simpl; lia]. Qed.

(** The length formula of the description, on lists. *)
Lemma spec_substitute_length : forall n s,
  List.length s = n ->
  sizeof (spec_substitute old new s) =
  sizeof s + Z.of_nat (spec_occurrences old s) * (sizeof new - sizeof old).
Proof.
  induction n as [n IH] using lt_wf_ind. intros s Hn.
  destruct s as [|c t]; [simpl; lia|].
  rewrite spec_substitute_cons, spec_occurrences_cons.
  pose proof old_length_positive as Ho.
  destruct (is_prefix old (c :: t)) eqn:P.
  - pose proof (is_prefix_length _ _ P) as Hl.
    assert (Hlt : (List.length (skipn (List.length old) (c :: t)) < n)%nat)
      by (rewrite List.length_skipn; lia).
    pose proof (IH _ Hlt _ eq_refl) as E.
    rewrite List.length_app, Nat2Z.inj_add, E, List.length_skipn. nia.
  - assert (Hlt : (List.length t < n)%nat) by (simpl in Hn; lia).
    pose proof (IH _ Hlt _ eq_refl) as E.
    cbn [List.length]. rewrite !Nat2Z.inj_succ, E. lia.
Qed.

Lemma spec_occurrences_bound : forall n s,
  List.length s = n ->
  (spec_occurrences old s * List.length old <= List.length s)%nat.
Proof.
  induction n as [n IH] using lt_wf_ind. intros s Hn.
  destruct s as [|c t]; [simpl; lia|].
  rewrite spec_occurrences_cons.
  pose proof old_length_positive as Ho.
  destruct (is_prefix old (c :: t)) eqn:P.
  - pose proof (is_prefix_length _ _ P) as Hl.
    assert (Hlt : (List.length (skipn (List.length old) (c :: t)) < n)%nat)
      by (rewrite List.length_skipn; lia).
    pose proof (IH _ Hlt _ eq_refl) as E.
    rewrite List.length_skipn in E. nia.
  - assert (Hlt : (List.length t < n)%nat) by (simpl in Hn; lia).
    pose proof (IH _ Hlt _ eq_refl) as E. simpl. lia.
Qed.

(** [strstr] and the scan of the description agree on the occurrences. *)
Lemma find_sub_occurrences : forall s,
  match find_sub s old with
  | None => spec_occurrences old s = O
  | Some k =>
      spec_occurrences old s =
      S (spec_occurrences old (skipn (k + List.length old) s))
  end.
Proof.
  intros s. induction s as [|c t IH]; cbn [find_sub].
  - destruct old; [contradiction|]. reflexivity.
  - rewrite spec_occurrences_cons.
    destruct (is_prefix old (c :: t)) eqn:P; [reflexivity|].
    destruct (find_sub t old) as [j|]; cbn [option_map]; exact IH.
Qed.

(** Substituting in a text without zero bytes a text without zero bytes. *)
Lemma spec_substitute_no_zero : forall n s,
  List.length s = n -> c_str new = new -> c_str s = s ->
  c_str (spec_substitute old new s) = spec_substitute old new s.
Proof.
  induction n as [n IH] using lt_wf_ind. intros s Hn Hnew Hs.
  destruct s as [|c t]; [reflexivity|].
  rewrite spec_substitute_cons.
  pose proof old_length_positive as Ho.
  destruct (is_prefix old (c :: t)) eqn:P.
  - rewrite c_str_app_fixed by exact Hnew. f_equal.
    apply (IH (List.length (skipn (List.length old) (c :: t)))); try reflexivity;
      try assumption.
    + rewrite List.length_skipn. cbn [List.length] in Hn |- *. lia.
    + now apply c_str_skipn_fixed.
  - cbn [c_str] in *. destruct (c =? NUL)%char; [discriminate|].
    injection Hs as Hs. f_equal.
    apply (IH (List.length t)); try reflexivity; try assumption. simpl in Hn. lia.
Qed.

End Substitution.

(** ** Consecutive writes and reads along a C string *)

Lemma splice_nil dst off : splice dst off [] = dst.
Proof. unfold splice. cbn [List.length app]. rewrite Nat.add_0_r. apply firstn_skipn. Qed.

Lemma splice_app dst off a b :
  (off <= List.length dst)%nat ->
  splice (splice dst off a) (off + List.length a) b = splice dst off (a ++ b).
Proof.
  intros Ho. unfold splice at 1.
  rewrite firstn_splice_end by exact Ho.
  unfold splice. rewrite <- !app_assoc. do 2 f_equal.
  rewrite List.length_app. f_equal.
  rewrite (app_assoc (firstn off dst)).
  rewrite skipn_app.
  rewrite List.length_app, List.length_firstn, Nat.min_l by exact Ho.
  rewrite (skipn_all2 (firstn off dst ++ a))
    by (rewrite List.length_app, List.length_firstn; lia).
  cbn [app]. rewrite skipn_skipn. f_equal. lia.
Qed.

Lemma splice_length_ge dst off src :
  (off <= List.length dst)%nat ->
  (off + List.length src <= List.length (splice dst off src))%nat.
Proof.
  intros H. unfold splice. rewrite !List.length_app, List.length_firstn. lia.
Qed.

Lemma strstr_at_off d old p :
  0 <= p <= strlen d ->
  strstr (at_off d p) old =
  option_map Z.of_nat (find_sub (skipn (Z.to_nat p) (c_str d)) (c_str old)).
Proof.
  intros Hp. unfold strstr, at_off, strlen in *. rewrite c_str_skipn by lia.
  reflexivity.
Qed.

Lemma peek_in_c_str d p :
  0 <= p <= strlen d ->
  (peek d p =? NUL)%char = (p =? strlen d).
Proof.
  intros Hp. unfold strlen in *. destruct (Z.eqb_spec p (sizeof (c_str d))) as [->|Hne].
  - unfold peek. rewrite Nat2Z.id, c_str_end. reflexivity.
  - apply Ascii.eqb_neq. unfold peek. apply c_str_nth. lia.
Qed.

Lemma skipn_c_str_cons d p :
  0 <= p < strlen d ->
  skipn (Z.to_nat p) (c_str d) = peek d p :: skipn (Z.to_nat (p + 1)) (c_str d).
Proof.
  intros Hp. unfold strlen, peek in *.
  destruct (c_str_nth d (Z.to_nat p)) as [<- _]; [lia|].
  replace (Z.to_nat (p + 1)) with (S (Z.to_nat p)) by lia.
  remember (Z.to_nat p) as k. assert (Hk : (k < List.length (c_str d))%nat) by lia.
  clear - Hk. revert k Hk. induction (c_str d) as [|c t IH]; intros k Hk; [simpl in Hk; lia|].
  destruct k as [|k]; [reflexivity|]. simpl in Hk. cbn [skipn nth]. apply IH. lia.
Qed.

Lemma firstn_length_self (l : list ascii) : firstn (List.length l) l = l.
Proof. apply firstn_all. Qed.

Lemma strncmp_eq_at_off d old p :
  0 <= p <= strlen d ->
  strncmp_eq (at_off d p) old (strlen old) =
  is_prefix (c_str old) (skipn (Z.to_nat p) (c_str d)).
Proof.
  intros Hp. unfold strncmp_eq, at_off, strlen in *.
  rewrite Nat2Z.id, firstn_length_self, c_str_skipn by lia. reflexivity.
Qed.

(** ** The loops of [str_replace] *)

Lemma replace_count_loop_spec fuel : forall d old p count,
  c_str old <> [] ->
  0 <= p <= strlen d -> (Z.to_nat (strlen d - p) < fuel)%nat ->
  0 <= count -> count + (strlen d - p) < size_modulus ->
  replace_count_loop fuel d old (strlen old) p count =
  Returns (count + Z.of_nat (spec_occurrences (c_str old)
                               (skipn (Z.to_nat p) (c_str d)))).
Proof.
  induction fuel as [|fuel IH]; intros d old p count Hne Hp Hf Hc Hb; [lia|].
  cbn [replace_count_loop]. rewrite strstr_at_off by exact Hp.
  pose proof (find_sub_occurrences (c_str old) Hne (skipn (Z.to_nat p) (c_str d))) as Ho.
  destruct (find_sub _ _) as [k|] eqn:F; cbn [option_map].
  - apply find_sub_bound in F. rewrite List.length_skipn in F.
    assert (Hl : (0 < List.length (c_str old))%nat)
      by (destruct (c_str old); [contradiction|simpl; lia]).
    unfold strlen in *. rewrite wrap_small by sizes.
    rewrite IH; try assumption; try lia.
    rewrite Ho, skipn_skipn.
    replace (Z.to_nat (p + Z.of_nat k + sizeof (c_str old)))
      with (k + List.length (c_str old) + Z.to_nat p)%nat by lia.
    f_equal. lia.
  - rewrite Ho. f_equal. lia.
Qed.

Lemma memcpy_c_bytes rd dest new :
  memcpy rd dest (c_bytes new) (strlen new) = splice rd (Z.to_nat dest) (c_str new).
Proof.
  unfold memcpy, c_bytes, strlen. rewrite Nat2Z.id.
  rewrite firstn_app, Nat.sub_diag, firstn_length_self. cbn [firstn].
  now rewrite app_nil_r.
Qed.

Lemma replace_copy_loop_spec fuel : forall d old new p rd dest,
  c_str old <> [] ->
  0 <= p <= strlen d -> (Z.to_nat (strlen d - p) < fuel)%nat ->
  0 <= dest <= sizeof rd ->
  let sub := spec_substitute (c_str old) (c_str new) (skipn (Z.to_nat p) (c_str d)) in
  replace_copy_loop fuel d old new (strlen old) (strlen new) p rd dest =
  Returns (splice rd (Z.to_nat dest) sub, dest + sizeof sub).
Proof.
  induction fuel as [|fuel IH]; intros d old new p rd dest Hne Hp Hf Hd sub; [lia|].
  cbn [replace_copy_loop]. rewrite peek_in_c_str by exact Hp.
  destruct (Z.eqb_spec p (strlen d)) as [->|Hlt].
  - subst sub. unfold strlen. rewrite Nat2Z.id, skipn_all.
    cbn. rewrite splice_nil. repeat f_equal. lia.
  - rewrite strncmp_eq_at_off by exact Hp.
    assert (Hl : (0 < List.length (c_str old))%nat)
      by (destruct (c_str old); [contradiction|simpl; lia]).
    subst sub. rewrite (skipn_c_str_cons d p) by lia.
    rewrite spec_substitute_cons by exact Hne.
    rewrite <- (skipn_c_str_cons d p) by lia.
    destruct (is_prefix _ _) eqn:P.
    + apply is_prefix_length in P. rewrite List.length_skipn in P.
      unfold strlen in *. rewrite skipn_skipn.
      fold (strlen old). fold (strlen new). fold (strlen d).
      rewrite memcpy_c_bytes. unfold strlen.
      rewrite IH; try assumption; try (unfold strlen; lia).
      2:{ pose proof (splice_length_ge rd (Z.to_nat dest) (c_str new)). lia. }
      replace (Z.to_nat (p + sizeof (c_str old)))
        with (List.length (c_str old) + Z.to_nat p)%nat by lia.
      replace (Z.to_nat (dest + sizeof (c_str new)))
        with (Z.to_nat dest + List.length (c_str new))%nat by lia.
      rewrite splice_app by lia. rewrite List.length_app. do 2 f_equal. lia.
    + unfold poke. rewrite IH; try assumption; try lia.
      2:{ pose proof (splice_length_ge rd (Z.to_nat dest) [peek d p]).
          cbn [List.length] in *. lia. }
      replace (Z.to_nat (dest + 1)) with (Z.to_nat dest + List.length [peek d p])%nat
        by (cbn [List.length]; lia).
      rewrite splice_app by lia. cbn [app List.length]. do 2 f_equal. lia.
Qed.

Lemma str_new_granted cap h :
  fst (next_request h) = true -> cap <= size_half ->
  exists c,
    str_new cap h =
      Returns (Some {| length := 0; capacity := c;
                       data := poke (repeat (junk h) (Z.to_nat c)) 0 NUL |},
               snd (next_request h)) /\
    power_of_two c /\ STR_MIN_CAPACITY <= c <= size_half /\ cap <= c.
Proof.
  intros Hg Hc. unfold str_new.
  destruct (str_round_capacity_total (MAX cap 1)) as [c R].
  { unfold MAX. destruct (cap >? 1); sizes. }
  rewrite R. apply str_round_capacity_spec in R.
  destruct R as (Hp & Hr & Hm & _).
  assert (cap <= c) by (unfold MAX in Hm; destruct (Z.gtb_spec cap 1); lia).
  exists c. split; [|repeat split; try tauto; try lia].
  unfold bind, malloc. destruct (next_request h) as [ok h1].
  cbn [fst snd] in *. subst ok. reflexivity.
Qed.

Lemma poke_splice_end rd sub :
  sizeof sub < sizeof rd ->
  exists rest,
    poke (splice rd O sub) (sizeof sub) NUL = sub ++ NUL :: rest /\
    sizeof (poke (splice rd O sub) (sizeof sub) NUL) = sizeof rd.
Proof.
  intros H. unfold poke. rewrite Nat2Z.id.
  change (List.length sub) with (0 + List.length sub)%nat at 1.
  rewrite splice_app by lia. unfold splice. cbn [firstn app].
  rewrite <- app_assoc. cbn [app]. eexists. split; [reflexivity|].
  rewrite List.length_app. cbn [List.length].
  rewrite List.length_skipn, List.length_app. cbn [List.length Nat.add].
  rewrite List.length_firstn, List.length_app, !List.length_skipn. lia.
Qed.

Lemma str_replace_all_same fuel s old new h :
  str_replace_all fuel s old new h = str_replace fuel s old new h.
Proof. reflexivity. Qed.

Lemma strlen_le_length s : wf s -> strlen (data s) <= length s.
Proof.
  intros W. split_wf W.
  pose proof (strlen_at_off (data s) 0 (length s)) as H.
  unfold at_off in H. cbn [Z.to_nat skipn] in H. apply H; [lia|exact Wt].
Qed.

Lemma content_no_embedded_zero s :
  wf s -> strlen (data s) = length s -> content s = c_str (data s).
Proof.
  intros W H. unfold content, strlen in *. rewrite <- H, Nat2Z.id.
  apply c_str_prefix.
Qed.

(** Replacement outside the two defects. For a buffer satisfying the
    invariants, a non-empty [old], enough fuel, a granted allocation and
    a result below 2^63 bytes, [str_replace] and [str_replace_all] return
    the same buffer;
    its C string is the C string of [s] with every non-overlapping
    occurrence of [old] substituted by [new], and its length field is
    the length of [s] plus the number of those occurrences times
    [len(new) - len(old)]. When no zero byte lies inside the content of
    [s], this is the substituted content of [s], followed by the
    terminator. *)
Theorem str_replace_substitutes fuel s old new h :
  let occ := Z.of_nat (spec_occurrences (c_str old) (c_str (data s))) in
  wf s -> c_str old <> [] -> (Z.to_nat (length s) < fuel)%nat ->
  fst (next_request h) = true ->
  length s + occ * (strlen new - strlen old) < size_half ->
  str_replace_all fuel (Some s) (Some old) (Some new) h
    = str_replace fuel (Some s) (Some old) (Some new) h /\
  exists r,
    str_replace fuel (Some s) (Some old) (Some new) h
      = Returns (Some r, snd (next_request h)) /\
    length r = length s + occ * (strlen new - strlen old) /\
    c_str (data r) = spec_substitute (c_str old) (c_str new) (c_str (data s)) /\
    capacity_ok r /\
    Z.of_nat (List.length (data r)) = capacity r /\
    (strlen (data s) = length s ->
       content r = spec_substitute (c_str old) (c_str new) (content s) /\
       peek (data r) (length r) = NUL).
Proof.
  intros occ W Hne Hf Hg Hfit. split; [reflexivity|].
  pose proof (strlen_le_length s W) as Hcs.
  pose proof (strlen_nonneg (data s)) as Hcs0.
  pose proof (spec_occurrences_bound (c_str old) Hne _ (c_str (data s)) eq_refl) as Hocc.
  pose proof (spec_substitute_length (c_str old) (c_str new) Hne _ (c_str (data s)) eq_refl)
    as Hsub.
  fold occ in Hsub. unfold strlen in *.
  set (sub := spec_substitute (c_str old) (c_str new) (c_str (data s))) in *.
  set (R := length s + occ * (sizeof (c_str new) - sizeof (c_str old))) in *.
  assert (HR : sizeof sub <= R /\ 0 <= R) by (unfold R, occ in *; nia).
  destruct (str_new_granted (wrap (R + 1)) h Hg) as (c & En & Hp & Hc & Hm).
  { rewrite wrap_small by sizes. lia. }
  rewrite wrap_small in Hm by sizes.
  set (rd := poke (repeat (junk h) (Z.to_nat c)) 0 NUL) in *.
  assert (Hrd : sizeof rd = c).
  { unfold rd. rewrite poke_length; rewrite repeat_length; lia. }
  destruct (poke_splice_end rd sub) as (rest & Ed & El); [lia|].
  exists {| length := R; capacity := c;
            data := poke (splice rd O sub) (sizeof sub) NUL |}.
  refine (conj _ (conj _ (conj _ (conj _ (conj _ _)))));
    unfold capacity_ok; cbn [length capacity data].
  - unfold str_replace, bind, lift. split_wf W.
    fold (strlen old). fold (strlen new).
    rewrite replace_count_loop_spec; try assumption; unfold strlen; try sizes.
    cbn [Z.to_nat skipn]. rewrite Z.add_0_l. fold occ.
    fold R. rewrite (wrap_small R) by sizes. rewrite En.
    cbn [data].
    fold (strlen old). fold (strlen new).
    rewrite replace_copy_loop_spec; try assumption; unfold strlen; try sizes.
    cbn [Z.to_nat skipn fst snd]. fold sub. rewrite Z.add_0_l. reflexivity.
  - reflexivity.
  - rewrite Ed, c_str_app_fixed; [cbn; now rewrite app_nil_r|].
    apply (spec_substitute_no_zero _ _ Hne _ _ eq_refl); apply c_str_idem.
  - repeat split; [exact Hp|lia|lia].
  - lia.
  - intros Hz. assert (HRs : R = sizeof sub) by (unfold R; lia). rewrite Ed. split.
    + rewrite (content_no_embedded_zero s) by (unfold strlen; assumption). fold sub.
      unfold content. cbn [length data].
      rewrite HRs, Nat2Z.id, firstn_app, Nat.sub_diag, firstn_length_self.
      cbn [firstn]. apply app_nil_r.
    + rewrite HRs. unfold peek. rewrite Nat2Z.id, app_nth2, Nat.sub_diag by lia.
      reflexivity.
Qed.

Lemma str_replace_substitutes_witness :
  str_replace_all 10 (Some hello) (Some (lit "l")) (Some (lit "L")) generous
    = str_replace 10 (Some hello) (Some (lit "l")) (Some (lit "L")) generous /\
  exists r,
    str_replace 10 (Some hello) (Some (lit "l")) (Some (lit "L")) generous
      = Returns (Some r, snd (next_request generous)) /\
    length r = length hello
               + Z.of_nat (spec_occurrences (c_str (lit "l")) (c_str (data hello)))
                 * (strlen (lit "L") - strlen (lit "l")) /\
    c_str (data r)
      = spec_substitute (c_str (lit "l")) (c_str (lit "L")) (c_str (data hello)) /\
    capacity_ok r /\
    Z.of_nat (List.length (data r)) = capacity r /\
    (strlen (data hello) = length hello ->
       content r = spec_substitute (c_str (lit "l")) (c_str (lit "L")) (content hello) /\
       peek (data r) (length r) = NUL).
Proof.
  apply (str_replace_substitutes 10 hello (lit "l") (lit "L") generous).
  - exact wf_hello.
  - discriminate.
  - cbn. lia.
  - reflexivity.
  - reflexivity.
Defined.

(** The buffer [a_zero_a] is built by the interface. *)
Lemma a_zero_a_reachable :
  let s1 := {| length := 1; capacity := 16;
               data := lit "a" ++ NUL :: repeat "?"%char 14 |} in
  let s2 := {| length := 2; capacity := 16;
               data := lit "a" ++ NUL :: NUL :: repeat "?"%char 13 |} in
  str_from (Some (lit "a")) generous = Returns (Some s1, generous) /\
  str_resize (Some s1) 2 generous = Returns ((true, Some s2), generous) /\
  str_append (Some s2) (Some (lit "a")) generous
    = Returns ((true, Some a_zero_a), generous).
Proof. repeat split. Qed.

(** The buffer [str_replace] returns can lack the terminator: on
    [a_zero_a] the byte at index [length] of the result was never
    written. *)
Lemma str_replace_can_return_unterminated :
  str_replace 10 (Some a_zero_a) (Some (lit "a")) (Some (lit "bb")) generous
    = Returns (Some bb_unterminated, generous) /\
  peek (data bb_unterminated) (length bb_unterminated) <> NUL.
Proof. split; [reflexivity|discriminate]. Qed.

(** C5, at a buffer with a zero byte inside its content. The buffer
    [a_zero_a] satisfies the invariants and holds "a", a zero byte and
    "a". Both loops of [str_replace] and [str_replace_all] scan a C
    string and stop at the zero byte, so the occurrence after it is
    neither counted nor substituted; the length field is still computed
    from the length of the input. The result has length 4 over the bytes
    "bb" and a terminator: it is not the content with every occurrence
    substituted, its length is not the one of the formula, and the byte
    at index [length] was never written. With the empty string as [old]
    no result is returned, whatever the fuel. *)
Theorem str_replace_not_as_described :
  wf a_zero_a /\
  str_replace 10 (Some a_zero_a) (Some (lit "a")) (Some (lit "bb")) generous
    = Returns (Some bb_unterminated, generous) /\
  str_replace_all 10 (Some a_zero_a) (Some (lit "a")) (Some (lit "bb")) generous
    = Returns (Some bb_unterminated, generous) /\
  content bb_unterminated
    <> spec_substitute (c_str (lit "a")) (c_str (lit "bb")) (content a_zero_a) /\
  length bb_unterminated
    <> length a_zero_a
       + Z.of_nat (spec_occurrences (c_str (lit "a")) (content a_zero_a))
         * (strlen (lit "bb") - strlen (lit "a")) /\
  peek (data bb_unterminated) (length bb_unterminated) <> NUL /\
  ~ replaces_as_described a_zero_a (lit "a") (lit "bb") generous /\
  ~ replaces_as_described hello (lit "") (lit "x") generous.
Proof.
  split.
  { unfold wf, terminated. cbn [length capacity data a_zero_a].
    repeat split; try (vm_compute; congruence). }
  do 2 (split; [reflexivity|]). do 3 (split; [vm_compute; congruence|]).
  split.
  - intros (fuel & r & h' & E & _ & _ & L).
    destruct fuel as [|[|fuel]]; try discriminate.
    vm_compute in E. injection E as <- _. vm_compute in L. discriminate.
  - intros (fuel & r & h' & E & _).
    unfold str_replace, bind, lift in E. change (strlen (lit "")) with 0 in E.
    rewrite replace_count_loop_empty in E. discriminate.
Qed.

(** ** Splitting and joining *)

Lemma next_request_quiet h : script h = [] -> next_request h = (true, h).
Proof. intros H. unfold next_request. now rewrite H. Qed.

Lemma spec_join_cons d x y rest :
  spec_join d (x :: y :: rest) = x ++ d ++ spec_join d (y :: rest).
Proof. reflexivity. Qed.

Lemma spec_join_snoc d acc last :
  spec_join d (acc ++ [last]) = List.concat (map (fun x => x ++ d) acc) ++ last.
Proof.
  induction acc as [|x acc IH]; [reflexivity|].
  destruct acc as [|y acc].
  - cbn [app spec_join map List.concat]. now rewrite app_nil_r, <- app_assoc.
  - change ((x :: y :: acc) ++ [last]) with (x :: y :: (acc ++ [last])).
    rewrite spec_join_cons.
    change (y :: acc ++ [last]) with ((y :: acc) ++ [last]). rewrite IH.
    cbn [map List.concat]. now rewrite <- !app_assoc.
Qed.

Lemma spec_join_prefixed d x rest :
  x ++ List.concat (map (fun y => d ++ y) rest) = spec_join d (x :: rest).
Proof.
  revert x. induction rest as [|y rest IH]; intros x; [cbn; apply app_nil_r|].
  rewrite spec_join_cons, <- IH. cbn [map List.concat]. now rewrite <- app_assoc.
Qed.

Lemma find_sub_prefix hay needle k :
  find_sub hay needle = Some k -> is_prefix needle (skipn k hay) = true.
Proof.
  revert k. induction hay as [|c t IH]; intros k H; cbn [find_sub] in H.
  - destruct (is_prefix needle []) eqn:E; [|discriminate]. now injection H as <-.
  - destruct (is_prefix needle (c :: t)) eqn:E; [now injection H as <-|].
    destruct (find_sub t needle) as [j|]; [|discriminate].
    injection H as <-. cbn [skipn]. now apply IH.
Qed.

Lemma firstn_add {A} (a b : nat) (l : list A) :
  firstn (a + b) l = firstn a l ++ firstn b (skipn a l).
Proof.
  revert l. induction a as [|a IH]; intros l; [reflexivity|].
  destruct l as [|x l]; [now rewrite !firstn_nil|].
  cbn [Nat.add firstn skipn app]. now rewrite IH.
Qed.

Lemma c_str_starts l : exists rest, l = c_str l ++ rest.
Proof.
  exists (skipn (List.length (c_str l)) l).
  pose proof (firstn_skipn (List.length (c_str l)) l) as H.
  rewrite c_str_prefix in H. now symmetry.
Qed.

(** A found delimiter lies in the block where [strstr] says. *)
Lemma strstr_found d delim start k :
  0 <= start <= strlen d ->
  strstr (at_off d start) delim = Some k ->
  0 <= k /\ start + k + strlen delim <= strlen d /\
  firstn (Z.to_nat (k + strlen delim)) (at_off d start) =
  firstn (Z.to_nat k) (at_off d start) ++ c_str delim.
Proof.
  intros Hs H. rewrite strstr_at_off in H by exact Hs.
  destruct (find_sub _ _) as [j|] eqn:F; [|discriminate]. injection H as <-.
  pose proof (find_sub_bound _ _ _ F) as Hb. rewrite List.length_skipn in Hb.
  apply find_sub_prefix in F. rewrite skipn_skipn in F.
  unfold strlen in *. split; [lia|]. split; [lia|].
  replace (Z.to_nat (Z.of_nat j + sizeof (c_str delim)))
    with (j + List.length (c_str delim))%nat by lia.
  rewrite Nat2Z.id, firstn_add. f_equal. unfold at_off. rewrite skipn_skipn.
  rewrite <- c_str_skipn in F by lia.
  apply is_prefix_app in F.
  destruct (c_str_starts (skipn (j + Z.to_nat start) d)) as [rest Er].
  rewrite Er, F, <- app_assoc.
  rewrite firstn_app, Nat.sub_diag, firstn_length_self. cbn [firstn].
  apply app_nil_r.
Qed.

Lemma split_segment_granted d start len h :
  script h = [] ->
  0 <= start -> 0 <= len -> start + len <= sizeof d -> len < size_half ->
  exists sg,
    split_segment d start len h = Returns (Some sg, h) /\
    length sg = len /\ segment_ok sg /\
    content sg = firstn (Z.to_nat len) (at_off d start).
Proof.
  intros Hq Hs Hl Hb Hh. unfold split_segment, bind.
  destruct (str_new_granted (wrap (len + 1)) h) as (c & En & _ & Hc & Hm).
  { now rewrite next_request_quiet. }
  { rewrite wrap_small by sizes. lia. }
  rewrite wrap_small in Hm by sizes.
  rewrite next_request_quiet in En by exact Hq. cbn [snd] in En. rewrite En.
  set (rd := poke (repeat (junk h) (Z.to_nat c)) 0 NUL) in *.
  assert (Hrd : sizeof rd = c).
  { unfold rd. rewrite poke_length; rewrite repeat_length; lia. }
  eexists. split; [reflexivity|]. cbn [length capacity data].
  assert (Ha : sizeof (at_off d start) = sizeof d - start)
    by (apply at_off_length; lia).
  assert (Hm1 : sizeof (memcpy rd 0 (at_off d start) len) = sizeof rd)
    by (apply memcpy_length; lia).
  split; [reflexivity|]. split.
  - unfold segment_ok. cbn [length data]. rewrite poke_length; lia.
  - unfold content, poke. cbn [length data].
    rewrite firstn_splice_le by lia.
    unfold memcpy. change (Z.to_nat 0) with O.
    replace (Z.to_nat len) with (0 + List.length (firstn (Z.to_nat len) (at_off d start)))%nat
      at 1 by (rewrite List.length_firstn; lia).
    rewrite firstn_splice_end by lia. reflexivity.
Qed.

Lemma str_split_loop_spec fuel : forall d delim start acc h,
  script h = [] -> c_str delim <> [] ->
  0 <= start <= strlen d -> (Z.to_nat (strlen d - start) < fuel)%nat ->
  sizeof d <= size_half -> Forall segment_ok acc ->
  exists acc' start',
    str_split_loop fuel d delim (strlen delim) start acc h
      = Returns (Some (acc', start'), h) /\
    start <= start' <= strlen d /\ Forall segment_ok acc' /\
    List.concat (map (fun sg => content sg ++ c_str delim) acc') =
    List.concat (map (fun sg => content sg ++ c_str delim) acc)
    ++ firstn (Z.to_nat (start' - start)) (at_off d start).
Proof.
  induction fuel as [|fuel IH]; intros d delim start acc h Hq Hne Hs Hf Hd Hok; [lia|].
  cbn [str_split_loop].
  assert (Hcs : strlen d <= sizeof d)
    by (unfold strlen; pose proof (c_str_length_le d); lia).
  destruct (strstr (at_off d start) delim) as [k|] eqn:F.
  - destruct (strstr_found d delim start k Hs F) as (Hk & Hb & Hfst).
    assert (Hn : 0 < strlen delim)
      by (unfold strlen; destruct (c_str delim); [contradiction|simpl; lia]).
    destruct (split_segment_granted d start k h Hq) as (sg & Es & Ls & Oks & Cs);
      try lia.
    unfold bind. rewrite Es.
    destruct (IH d delim (start + k + strlen delim) (acc ++ [sg]) h)
      as (acc' & start' & E & Hr & Hok' & Hj); try assumption; try lia.
    { apply Forall_app. split; [exact Hok|]. constructor; [exact Oks|constructor]. }
    exists acc', start'. split; [exact E|]. split; [lia|]. split; [exact Hok'|].
    rewrite Hj, map_app, concat_app. cbn [map List.concat].
    rewrite app_nil_r, <- !app_assoc. f_equal.
    rewrite Cs, (app_assoc (firstn _ _)), <- Hfst.
    replace (Z.to_nat (start' - start))
      with (Z.to_nat (k + strlen delim) + Z.to_nat (start' - (start + k + strlen delim)))%nat
      by lia.
    rewrite firstn_add. f_equal. f_equal. unfold at_off. rewrite skipn_skipn.
    f_equal. lia.
  - exists acc, start. split; [reflexivity|]. split; [lia|]. split; [exact Hok|].
    rewrite Z.sub_diag. cbn [Z.to_nat firstn]. now rewrite app_nil_r.
Qed.

Lemma concat_segments_length delim acc :
  Forall segment_ok acc ->
  sizeof (List.concat (map (fun sg => content sg ++ delim) acc))
  = fold_right (fun sg t => length sg + t) 0 acc + sizeof acc * sizeof delim.
Proof.
  induction 1 as [|sg acc Hsg _ IH]; [reflexivity|].
  cbn [map List.concat fold_right List.length].
  rewrite !List.length_app, !Nat2Z.inj_add, IH. unfold content, segment_ok in *.
  rewrite List.length_firstn. lia.
Qed.

Lemma content_length sg : segment_ok sg -> sizeof (content sg) = length sg.
Proof. unfold segment_ok, content. rewrite List.length_firstn. lia. Qed.

(** The first loop of [str_join] on an array without null entries. *)
Lemma str_join_total_spec rest : forall done total,
  Forall segment_ok rest ->
  0 <= total ->
  total + fold_right (fun sg t => length sg + t) 0 rest < size_modulus ->
  sizeof (done ++ rest) < size_modulus ->
  str_join_total (List.length rest) (map Some (done ++ rest)) (sizeof done) total
  = Some (total + fold_right (fun sg t => length sg + t) 0 rest).
Proof.
  induction rest as [|x rest IH]; intros done total Hok Ht Hb Hc.
  - cbn. f_equal. lia.
  - inversion Hok as [|? ? Hx Hr]; subst. cbn [List.length str_join_total fold_right] in *.
    rewrite Nat2Z.id, nth_error_map, nth_error_app2, Nat.sub_diag by lia.
    cbn [nth_error option_map]. unfold segment_ok in Hx.
    assert (Hsum : 0 <= fold_right (fun sg t => length sg + t) 0 rest).
    { clear - Hr. induction Hr as [|y r Hy _ IHr]; cbn; [lia|].
      unfold segment_ok in Hy. lia. }
    rewrite List.length_app in Hc. cbn [List.length] in Hc.
    rewrite !wrap_small by sizes.
    replace (sizeof done + 1) with (sizeof (done ++ [x]))
      by (rewrite List.length_app; cbn [List.length]; lia).
    replace (done ++ x :: rest) with ((done ++ [x]) ++ rest)
      by (rewrite <- app_assoc; reflexivity).
    rewrite IH; try assumption; try lia.
    + f_equal. lia.
    + rewrite <- app_assoc, List.length_app. cbn [app List.length]. lia.
Qed.

(** The second loop of [str_join] past the first entry. *)
Lemma str_join_copy_spec delim rest : forall done rd dest,
  Forall segment_ok rest -> done <> [] ->
  sizeof (done ++ rest) < size_modulus ->
  0 <= dest <= sizeof rd ->
  let bytes := List.concat (map (fun sg => c_str delim ++ content sg) rest) in
  str_join_copy (List.length rest) (map Some (done ++ rest)) delim (strlen delim)
                (sizeof done) rd dest
  = (splice rd (Z.to_nat dest) bytes, dest + sizeof bytes).
Proof.
  induction rest as [|x rest IH]; intros done rd dest Hok Hne Hc Hd bytes.
  - subst bytes. cbn. rewrite splice_nil. f_equal. lia.
  - inversion Hok as [|? ? Hx Hr]; subst. cbn [List.length str_join_copy].
    assert (Hpos : 0 < sizeof done) by (destruct done; [contradiction|simpl; lia]).
    destruct (Z.gtb_spec (sizeof done) 0) as [_|]; [|lia].
    rewrite Nat2Z.id, nth_error_map, nth_error_app2, Nat.sub_diag by lia.
    cbn [nth_error option_map].
    rewrite List.length_app in Hc. cbn [List.length] in Hc.
    rewrite wrap_small by sizes.
    rewrite memcpy_c_bytes.
    change (memcpy ?r ?o (data x) (length x))
      with (splice r (Z.to_nat o) (content x)).
    replace (sizeof done + 1) with (sizeof (done ++ [x]))
      by (rewrite List.length_app; cbn [List.length]; lia).
    replace (done ++ x :: rest) with ((done ++ [x]) ++ rest)
      by (rewrite <- app_assoc; reflexivity).
    pose proof (content_length x Hx) as Hcx.
    pose proof (splice_length_ge rd (Z.to_nat dest) (c_str delim)) as G1.
    pose proof (splice_length_ge (splice rd (Z.to_nat dest) (c_str delim))
                  (Z.to_nat (dest + strlen delim)) (content x)) as G2.
    unfold strlen in *. unfold segment_ok in Hx.
    rewrite IH; try assumption; try lia.
    + subst bytes. cbn [map List.concat].
      replace (Z.to_nat (dest + sizeof (c_str delim) + length x))
        with (Z.to_nat (dest + sizeof (c_str delim)) + List.length (content x))%nat by lia.
      rewrite splice_app by lia.
      replace (Z.to_nat (dest + sizeof (c_str delim)))
        with (Z.to_nat dest + List.length (c_str delim))%nat by lia.
      rewrite splice_app by lia.
      rewrite !List.length_app, <- !app_assoc. f_equal. lia.
    + destruct done; discriminate.
    + rewrite <- app_assoc, List.length_app. cbn [app List.length]. lia.
Qed.

Lemma fold_lengths_app (a b : list str) :
  fold_right (fun sg t => length sg + t) 0 (a ++ b)
  = fold_right (fun sg t => length sg + t) 0 a
    + fold_right (fun sg t => length sg + t) 0 b.
Proof. induction a as [|x a IH]; cbn [app fold_right]; lia. Qed.

Lemma fold_lengths_nonneg (a : list str) :
  Forall segment_ok a -> 0 <= fold_right (fun sg t => length sg + t) 0 a.
Proof.
  induction 1 as [|x a Hx _ IH]; cbn [fold_right]; [lia|].
  unfold segment_ok in Hx. lia.
Qed.

(** [str_join] on the array [str_split] returns. *)
Lemma str_join_spec segs delim h :
  script h = [] -> segs <> [] -> Forall segment_ok segs ->
  let bytes := spec_join (c_str delim) (map content segs) in
  sizeof segs <= sizeof bytes + 1 -> sizeof bytes < size_half ->
  fold_right (fun sg t => length sg + t) 0 segs
    + (sizeof segs - 1) * strlen delim = sizeof bytes ->
  exists r,
    str_join (Some (map Some segs)) (sizeof segs) (Some delim) h
      = Returns (Some r, h) /\
    length r = sizeof bytes /\ content r = bytes /\
    peek (data r) (length r) = NUL.
Proof.
  intros Hq Hne Hok bytes Hcount Hfit Hsum.
  destruct segs as [|x rest]; [contradiction|]. clear Hne.
  unfold str_join.
  destruct (Z.eqb_spec (sizeof (x :: rest)) 0) as [Hz|_]; [simpl in Hz; lia|].
  pose proof (fold_lengths_nonneg _ Hok) as Hnn.
  pose proof (strlen_nonneg delim) as Hdn.
  assert (Hcnt : 1 <= sizeof (x :: rest)) by (simpl; lia).
  rewrite Nat2Z.id.
  pose proof (str_join_total_spec (x :: rest) [] 0 Hok) as Et.
  change ([] ++ x :: rest) with (x :: rest) in Et.
  change (sizeof (@nil str)) with 0 in Et. rewrite Et; clear Et; try sizes.
  2:{ assert (0 <= (sizeof (x :: rest) - 1) * strlen delim) by nia. sizes. }
  rewrite Z.add_0_l, Hsum, (wrap_small (sizeof bytes)) by sizes.
  destruct (str_new_granted (wrap (sizeof bytes + 1)) h) as (c & En & _ & Hc & Hm).
  { now rewrite next_request_quiet. }
  { rewrite wrap_small by sizes. lia. }
  rewrite wrap_small in Hm by sizes.
  rewrite next_request_quiet in En by exact Hq. cbn [snd] in En.
  unfold bind. rewrite En.
  set (rd := poke (repeat (junk h) (Z.to_nat c)) 0 NUL) in *.
  assert (Hrd : sizeof rd = c).
  { unfold rd. rewrite poke_length; rewrite repeat_length; lia. }
  cbn [List.length str_join_copy data capacity].
  change (0 >? 0) with false. cbn [Z.to_nat nth_error map].
  pose proof (Forall_inv Hok) as Hx. pose proof (Forall_inv_tail Hok) as Hr.
  change (wrap (0 + 1)) with (sizeof [x]).
  change (memcpy rd 0 (data x) (length x)) with (splice rd O (content x)).
  pose proof (content_length x Hx) as Hcx.
  pose proof (splice_length_ge rd O (content x)) as G1.
  change (Some x :: map Some rest) with (map Some ([x] ++ rest)).
  rewrite str_join_copy_spec; try assumption; try discriminate.
  2:{ cbn [app]. sizes. }
  2:{ unfold segment_ok in Hx. lia. }
  assert (Eb : content x
               ++ List.concat (map (fun sg => c_str delim ++ content sg) rest) = bytes).
  { unfold bytes. cbn [map]. rewrite <- spec_join_prefixed, map_map. reflexivity. }
  replace (Z.to_nat (0 + length x)) with (0 + List.length (content x))%nat by lia.
  rewrite splice_app by lia. rewrite Eb.
  replace (0 + length x + sizeof (List.concat (map (fun sg => c_str delim ++ content sg) rest)))
    with (sizeof bytes)
    by (rewrite <- Eb, List.length_app; lia).
  destruct (poke_splice_end rd bytes) as (tail & Ed & El); [lia|].
  eexists. split; [reflexivity|]. cbn [length data]. rewrite Ed.
  split; [reflexivity|]. split.
  - unfold content. cbn [length data].
    rewrite Nat2Z.id, firstn_app, Nat.sub_diag, firstn_length_self.
    cbn [firstn]. apply app_nil_r.
  - unfold peek. rewrite Nat2Z.id, app_nth2, Nat.sub_diag by lia. reflexivity.
Qed.

(** C4. For every buffer that satisfies the invariants and every
    non-empty delimiter, with enough fuel and an allocator that grants
    its requests, [str_split] returns at least one segment (the last one
    holds what follows the last delimiter, possibly nothing), no more
    than the array it allocated holds, and [str_join] of these segments
    with the same delimiter returns a buffer with the length and the
    content of the original, terminated. *)
Theorem split_then_join_reproduces fuel s delim h :
  wf s -> c_str delim <> [] -> (Z.to_nat (length s) < fuel)%nat ->
  script h = [] ->
  exists segs r,
    segs <> [] /\
    Z.of_nat (List.length segs) <= length s / strlen delim + 1 /\
    str_split fuel (Some s) (Some delim) h = Returns (Some segs, h) /\
    str_join (Some (map Some segs)) (Z.of_nat (List.length segs)) (Some delim) h
      = Returns (Some r, h) /\
    length r = length s /\
    content r = content s /\
    peek (data r) (length r) = NUL.
Proof.
  intros W Hne Hf Hq. pose proof (strlen_le_length s W) as Hcs.
  pose proof (strlen_nonneg (data s)) as Hcs0. split_wf W.
  assert (Hn : 0 < strlen delim)
    by (unfold strlen; destruct (c_str delim); [contradiction|simpl; lia]).
  destruct (str_split_loop_spec fuel (data s) delim 0 [] h)
    as (acc & start & El & Hr & Hok & Hj); try assumption; try lia; try constructor.
  cbn [map List.concat app] in Hj. rewrite Z.sub_0_r in Hj.
  unfold at_off in Hj. cbn [Z.to_nat skipn] in Hj.
  destruct (split_segment_granted (data s) start (length s - start) h)
    as (last & Es & Ll & Okl & Cl); try assumption; try sizes.
  assert (Hoks : Forall segment_ok (acc ++ [last])).
  { apply Forall_app. split; [exact Hok|]. constructor; [exact Okl|constructor]. }
  assert (Eb : spec_join (c_str delim) (map content (acc ++ [last])) = content s).
  { rewrite map_app. cbn [map]. rewrite spec_join_snoc, map_map, Hj, Cl.
    unfold content, at_off.
    replace (Z.to_nat (length s)) with (Z.to_nat start + Z.to_nat (length s - start))%nat
      by lia.
    now rewrite firstn_add. }
  assert (Hls : sizeof (content s) = length s).
  { unfold content. rewrite List.length_firstn. lia. }
  pose proof (concat_segments_length (c_str delim) acc Hok) as Hsum.
  rewrite Hj, List.length_firstn in Hsum.
  pose proof (fold_lengths_nonneg acc Hok) as Hnn.
  fold (strlen delim) in Hsum.
  assert (Hacc : sizeof acc <= start) by nia.
  destruct (str_join_spec (acc ++ [last]) delim h Hq) as (r & Ej & Lr & Cr & Tr);
    try exact Hoks; rewrite ?Eb, ?Hls.
  - destruct acc; discriminate.
  - rewrite List.length_app. cbn [List.length]. lia.
  - sizes.
  - rewrite fold_lengths_app, List.length_app. cbn [fold_right List.length]. nia.
  - exists (acc ++ [last]), r. split; [destruct acc; discriminate|].
    split.
    { rewrite List.length_app. cbn [List.length].
      assert (sizeof acc <= length s / strlen delim)
        by (apply Z.div_le_lower_bound; nia).
      lia. }
    split; [|split; [exact Ej|]].
    + unfold str_split. destruct (Z.eqb_spec (strlen delim) 0) as [|_]; [lia|].
      unfold bind, malloc. rewrite next_request_quiet by exact Hq.
      rewrite El, (wrap_small (length s - start)) by sizes. rewrite Es. reflexivity.
    + split; [rewrite Lr, Eb; exact Hls|]. split; [rewrite Cr; exact Eb|exact Tr].
Qed.

Lemma wf_a_comma_b : wf a_comma_b.
Proof.
  unfold wf, terminated. cbn [length capacity data a_comma_b].
  repeat split; try (vm_compute; congruence).
Qed.

Lemma split_then_join_reproduces_witness :
  exists segs r,
    segs <> [] /\
    Z.of_nat (List.length segs) <= length a_comma_b / strlen (lit ",") + 1 /\
    str_split 10 (Some a_comma_b) (Some (lit ",")) generous
      = Returns (Some segs, generous) /\
    str_join (Some (map Some segs)) (Z.of_nat (List.length segs)) (Some (lit ","))
             generous
      = Returns (Some r, generous) /\
    length r = length a_comma_b /\
    content r = content a_comma_b /\
    peek (data r) (length r) = NUL.
Proof.
  apply (split_then_join_reproduces 10 a_comma_b (lit ",") generous).
  - exact wf_a_comma_b.
  - discriminate.
  - cbn. lia.
  - reflexivity.
Defined.

(** ** Sample buffers *)

(** The sample buffers are those [str_from] builds. *)
Lemma samples_from :
  str_from (Some (lit "Hello")) generous = Returns (Some hello, generous) /\
  str_from (Some (lit "ab")) generous = Returns (Some ab, generous) /\
  str_from (Some (lit " ")) generous = Returns (Some blank, generous) /\
  str_from (Some (lit "abcdefghijklmnO")) generous = Returns (Some fifteen, generous) /\
  str_from (Some (lit "a,b")) generous = Returns (Some a_comma_b, generous).
Proof. repeat split. Qed.

(** ** Termination of the loop of [str_snake_case] *)

Lemma str_insert_returns s index (a : cstring) h :
  wf s -> 0 <= index -> length s + strlen a + 1 <= size_half ->
  exists ok r h',
    str_insert (Some s) index (Some a) h = Returns ((ok, r), h') /\
    (r = Some s \/
     exists s', r = Some s' /\ wf s' /\ length s' = length s + strlen a).
Proof.
  intros W Hi Hfit. pose proof (strlen_nonneg a) as Hn.
  assert (Hl0 : 0 <= length s) by (destruct W as ((? & _) & _); lia).
  destruct (str_insert (Some s) index (Some a) h) as [[[ok r] h']| |] eqn:E.
  - exists ok, r, h'. split; [reflexivity|]. destruct ok.
    + destruct r as [s'|].
      * right. exists s'. split; [reflexivity|]. split.
        -- eapply str_insert_wf; [exact W|exact Hi| |exact E]. sizes.
        -- unfold str_insert in E. destruct (index >? length s); [discriminate|].
           apply bind_returns in E. destruct E as ([ok r] & h1 & E1 & E).
           destruct (str_ensure_capacity_spec _ _ _ _ _ _ W E1)
             as [[-> ->] | (-> & s1 & -> & W1 & L1 & _)]; [discriminate|].
           unfold ret in E. injection E as <- _. cbn [length].
           split_wf W. rewrite wrap_small by sizes. lia.
      * exfalso. unfold str_insert in E. destruct (index >? length s); [discriminate|].
        apply bind_returns in E. destruct E as ([ok r] & h1 & E1 & E).
        destruct (str_ensure_capacity_spec _ _ _ _ _ _ W E1)
          as [[-> ->] | (-> & s1 & -> & _)]; discriminate.
    + left. eapply str_insert_failed. exact E.
  - exfalso. unfold str_insert in E. destruct (index >? length s); [discriminate|].
    unfold bind in E. split_wf W.
    destruct (str_ensure_capacity _ _ h) as [[[ok r] h1]| |] eqn:E1.
    + destruct ok, r; discriminate.
    + unfold str_ensure_capacity in E1. destruct (capacity s >=? _); [discriminate|].
      rewrite wrap_small in E1 by sizes.
      destruct (str_round_capacity_total (length s + strlen a + 1) Hfit) as [c R].
      rewrite R in E1. unfold bind, realloc in E1.
      destruct (next_request h) as [[|] ?]; discriminate.
    + unfold str_ensure_capacity in E1. destruct (capacity s >=? _); [discriminate|].
      destruct (str_round_capacity _); [|discriminate].
      unfold bind, realloc in E1. destruct (next_request h) as [[|] ?]; discriminate.
  - exfalso. unfold str_insert in E. destruct (index >? length s); [discriminate|].
    unfold bind in E.
    destruct (str_ensure_capacity _ _ h) as [[[ok r] h1]| |] eqn:E1.
    + destruct ok, r; discriminate.
    + discriminate.
    + unfold str_ensure_capacity in E1. destruct (capacity s >=? _); [discriminate|].
      destruct (str_round_capacity _); [|discriminate].
      unfold bind, realloc in E1. destruct (next_request h) as [[|] ?]; discriminate.
Qed.

(** With [length - i] rounds of fuel the loop of [str_snake_case] returns,
    provided the buffer can still double within the address space. *)
Lemma str_snake_case_loop_fuel fuel : forall s i h,
  wf s -> 0 <= i -> (Z.to_nat (length s - i) <= fuel)%nat ->
  length s + (length s - i) + 1 <= size_half ->
  exists s' h', str_snake_case_loop fuel s i h = Returns (s', h').
Proof.
  induction fuel as [|fuel IH]; intros s i h W Hi Hf Hfit;
    cbn [str_snake_case_loop].
  - destruct (Z.ltb_spec i (length s)); [lia|]. unfold ret. eauto.
  - destruct (Z.ltb_spec i (length s)) as [Hlt|Hge]; [|unfold ret; eauto].
    rewrite !(wrap_small (i + 1)) by sizes.
    rewrite (wrap_small (i + 1 + 1)) by sizes.
    destruct (isupper (peek (data s) i)); [|apply IH; try assumption; lia].
    pose proof (wf_poke_inside s i (tolower (peek (data s) i)) W (conj Hi Hlt)) as W1.
    destruct (i >? 0); [|apply IH; cbn [set_data length]; try assumption; lia].
    destruct (str_insert_returns (set_data s (poke (data s) i (tolower (peek (data s) i))))
                i (lit "_") h W1 Hi) as (ok & r & h' & E & Hr).
    { cbn [set_data length]. change (strlen (lit "_")) with 1. lia. }
    unfold bind. rewrite E. cbn [snd].
    destruct Hr as [-> | (s2 & -> & W2 & L2)].
    + apply IH; cbn [set_data length]; try assumption; lia.
    + change (strlen (lit "_")) with 1 in L2. cbn [set_data length] in L2.
      apply IH; try assumption; lia.
Qed.

(** ** Capacity management *)

(** A request the block already meets is granted without a call to the
    allocator. *)
Lemma str_ensure_capacity_noop s cap h :
  cap <= capacity s ->
  str_ensure_capacity (Some s) cap h = Returns ((true, Some s), h).
Proof.
  intros H. unfold str_ensure_capacity.
  destruct (Z.geb_spec (capacity s) cap); [reflexivity|lia].
Qed.

(** A larger request is rounded to the smallest power of two that is at
    least 16 and at least the request; the bytes of the block are kept. *)
Lemma str_ensure_capacity_grows s cap h :
  capacity s < cap -> cap <= size_half -> fst (next_request h) = true ->
  exists c,
    str_ensure_capacity (Some s) cap h
      = Returns ((true, Some {| length := length s; capacity := c;
                                data := firstn (Z.to_nat c) (data s)
                                        ++ repeat (junk h)
                                             (Z.to_nat c - List.length (data s)) |}),
                 snd (next_request h)) /\
    power_of_two c /\ STR_MIN_CAPACITY <= c /\ cap <= c /\
    (c = STR_MIN_CAPACITY \/ c / 2 < cap).
Proof.
  intros Hlt Hfit Hg. unfold str_ensure_capacity.
  destruct (Z.geb_spec (capacity s) cap); [lia|].
  destruct (str_round_capacity_total cap Hfit) as [c R]. rewrite R.
  apply str_round_capacity_spec in R. destruct R as (Hp & Hc & Hm & Hs).
  exists c. split; [|tauto].
  unfold bind, realloc. destruct (next_request h) as [ok h1].
  cbn [fst snd] in *. subst ok. reflexivity.
Qed.

Lemma str_ensure_capacity_granted_some s cap h h' :
  str_ensure_capacity (Some s) cap h = Returns ((true, None), h') -> False.
Proof.
  unfold str_ensure_capacity. destruct (capacity s >=? cap); [unfold ret; congruence|].
  destruct (str_round_capacity cap); [|discriminate].
  unfold bind, realloc. destruct (next_request h) as [[|] h1]; unfold ret; congruence.
Qed.

(** A mutating operation that reports a failure has left the buffer as
    it was. *)
Lemma mutate_failure_unchanged m s h r h' :
  mutate m s h = Returns ((false, r), h') -> r = Some s.
Proof.
  destruct m; cbn [mutate]; intros H;
    try (apply ret_pair_returns in H; destruct H; discriminate).
  - unfold str_append in H.
    apply bind_returns in H. destruct H as ([ok r0] & h1 & E & H). destruct ok.
    + destruct r0; unfold ret in H; try discriminate.
      apply str_ensure_capacity_granted_some in E. contradiction.
    + apply str_ensure_capacity_failed in E. subst r0. unfold ret in H. congruence.
  - unfold str_append_fmt in H.
    destruct (fmt_ret (vsnprintf 0) <? 0); [unfold ret in H; congruence|].
    apply bind_returns in H. destruct H as ([ok r0] & h1 & E & H). destruct ok.
    + destruct r0; [|apply str_ensure_capacity_granted_some in E; contradiction].
      destruct (_ || _); unfold ret in H; discriminate.
    + apply str_ensure_capacity_failed in E. subst r0. unfold ret in H. congruence.
  - unfold str_append_char in H.
    apply bind_returns in H. destruct H as ([ok r0] & h1 & E & H). destruct ok.
    + destruct r0; unfold ret in H; try discriminate.
      apply str_ensure_capacity_granted_some in E. contradiction.
    + apply str_ensure_capacity_failed in E. subst r0. unfold ret in H. congruence.
  - unfold str_prepend in H.
    apply bind_returns in H. destruct H as ([ok r0] & h1 & E & H). destruct ok.
    + destruct r0; unfold ret in H; try discriminate.
      apply str_ensure_capacity_granted_some in E. contradiction.
    + apply str_ensure_capacity_failed in E. subst r0. unfold ret in H. congruence.
  - eapply str_insert_failed. exact H.
  - unfold ret in H. injection H as H _. unfold str_remove in H.
    destruct (index >=? length s); congruence.
  - apply bind_returns in H. destruct H as (x & h1 & _ & H).
    apply ret_pair_returns in H. destruct H. discriminate.
  - unfold str_resize in H.
    apply bind_returns in H. destruct H as ([ok r0] & h1 & E & H). destruct ok.
    + destruct r0; unfold ret in H; try discriminate.
      apply str_ensure_capacity_granted_some in E. contradiction.
    + apply str_ensure_capacity_failed in E. subst r0. unfold ret in H. congruence.
Qed.

(** ** The capacity discipline *)

Lemma str_new_capacity_ok cap h r h' :
  str_new cap h = Returns (Some r, h') ->
  capacity_ok r /\ length r = 0 /\
  (capacity r = STR_MIN_CAPACITY \/ capacity r / 2 < MAX cap 1).
Proof.
  unfold str_new. destruct (str_round_capacity (MAX cap 1)) as [c|] eqn:R;
    [|discriminate].
  apply str_round_capacity_spec in R. destruct R as (Hp & Hc & Hm & Hs).
  intros H. apply bind_returns in H. destruct H as (m & h1 & _ & H).
  destruct m as [block|]; unfold ret in H; [|discriminate].
  injection H as <- _. unfold capacity_ok. cbn [length capacity].
  repeat split; try tauto; try sizes.
Qed.

Lemma str_from_capacity_ok cs h r h' :
  strlen cs < size_half ->
  str_from (Some cs) h = Returns (Some r, h') ->
  capacity_ok r /\ length r = strlen cs.
Proof.
  intros Hfit H. unfold str_from in H. pose proof (strlen_nonneg cs) as Hn.
  apply bind_returns in H. destruct H as (s0 & h1 & E & H).
  destruct s0 as [s0|]; unfold ret in H; [|discriminate]. injection H as <- _.
  unfold str_new in E. destruct (str_round_capacity _) as [c|] eqn:R; [|discriminate].
  apply str_round_capacity_spec in R. destruct R as (Hp & Hc & Hm & _).
  apply bind_returns in E. destruct E as (m & h2 & _ & E).
  destruct m as [block|]; unfold ret in E; [|discriminate]. injection E as <- _.
  rewrite wrap_small in Hm by sizes.
  unfold MAX in Hm. destruct (Z.gtb_spec (strlen cs + 1) 1);
    unfold capacity_ok; cbn [length capacity]; repeat split; try tauto; sizes.
Qed.







(** ** Termination outside the empty substring *)

Lemma str_remove_all_loop_returns fuel sub : forall d len p count,
  c_str sub <> [] ->
  0 <= p <= len -> len < sizeof d -> sizeof d <= size_half -> peek d len = NUL ->
  (Z.to_nat len < fuel)%nat ->
  exists r, str_remove_all_loop fuel sub (strlen sub) d len p count = Returns r.
Proof.
  induction fuel as [|fuel IH]; intros d len p count Hne Hp Hl Hd Hz Hf; [lia|].
  cbn [str_remove_all_loop].
  destruct (strstr (at_off d p) sub) as [k|] eqn:F; [|eauto].
  apply strstr_bound in F. destruct F as [Hk Hb].
  pose proof (strlen_at_off d p len Hp Hz) as Hs.
  assert (Hn : 0 < strlen sub)
    by (unfold strlen; destruct (c_str sub); [contradiction|simpl; lia]).
  rewrite (wrap_small (len - (p + k) - strlen sub + 1)) by sizes.
  rewrite (wrap_small (len - strlen sub)) by sizes.
  apply IH; try assumption; try lia.
  - rewrite memmove_length; lia.
  - rewrite memmove_length; lia.
  - rewrite peek_memmove_in by lia. rewrite <- Hz. f_equal. ring.
Qed.

(** With a non-empty substring and more fuel than the buffer has bytes,
    [str_remove_all] returns. *)
Lemma str_remove_all_returns fuel s sub :
  wf s -> c_str sub <> [] -> (Z.to_nat (length s) < fuel)%nat ->
  exists n s', str_remove_all fuel (Some s) (Some sub) = Returns (n, Some s').
Proof.
  intros W Hne Hf. split_wf W. unfold str_remove_all.
  destruct (str_remove_all_loop_returns fuel sub (data s) (length s) 0 0)
    as ([[d len] count] & E); try assumption; try lia.
  rewrite E. eauto.
Qed.

(** A request above 2^63 keeps [str_new] in the loop of
    [str_round_capacity]: [result] wraps to 0 and stays there. *)
Lemma str_new_never_returns cap h fuel :
  size_half < cap ->
  str_new cap h = Timeout /\
  str_round_capacity_loop fuel STR_MIN_CAPACITY (MAX cap 1) = None.
Proof.
  intros H.
  assert (Hm : size_half < MAX cap 1)
    by (unfold MAX; destruct (Z.gtb_spec cap 1); sizes).
  split; [|now apply str_round_capacity_hangs].
  unfold str_new, str_round_capacity. now rewrite str_round_capacity_hangs.
Qed.

(** ** What the trims remove *)

Lemma trims_keep_the_empty_buffer s :
  length s = 0 ->
  str_trim (Some s) = Some s /\ str_ltrim (Some s) = Some s /\
  str_rtrim (Some s) = Some s.
Proof.
  intros H. unfold str_trim, str_ltrim, str_rtrim. rewrite H. repeat split.
Qed.

Lemma skip_leading_stops n : forall d len start,
  0 <= start <= len -> len < size_half -> (Z.to_nat (len - start) <= n)%nat ->
  skip_leading n d len start = len \/
  isspace (peek d (skip_leading n d len start)) = false.
Proof.
  induction n as [|n IH]; intros d len start Hs Hl Hn; cbn [skip_leading].
  - left. lia.
  - destruct (Z.ltb_spec start len) as [Hlt|Hge]; cbn [andb]; [|left; lia].
    destruct (isspace (peek d start)) eqn:E; [|now right].
    rewrite wrap_small by sizes. apply IH; lia.
Qed.

Lemma skip_trailing_stops n : forall d start e,
  0 <= start -> 0 <= e < size_half -> (Z.to_nat (e - start) <= n)%nat ->
  skip_trailing n d start e <= start \/
  isspace (peek d (skip_trailing n d start e)) = false.
Proof.
  induction n as [|n IH]; intros d start e Hs He Hn; cbn [skip_trailing].
  - left. lia.
  - destruct (Z.gtb_spec e start) as [Hgt|Hle]; cbn [andb]; [|left; lia].
    destruct (isspace (peek d e)) eqn:E; [|now right].
    rewrite wrap_small by sizes. apply IH; lia.
Qed.

(** After [str_trim] the last byte of a buffer that is not empty is not
    whitespace, and the content is the slice of the original content
    between the margins. *)
Lemma str_trim_spec s s' :
  wf s -> str_trim (Some s) = Some s' -> 0 < length s' ->
  exists start,
    0 <= start /\ start + length s' <= length s /\
    content s' = firstn (Z.to_nat (length s')) (at_off (data s) start) /\
    isspace (peek (data s') (length s' - 1)) = false.
Proof.
  intros W H Hpos. unfold str_trim in H.
  destruct (Z.eqb_spec (length s) 0) as [Hz|Hnz];
    [injection H as <-; lia|].
  split_wf W. rewrite (wrap_small (length s - 1)) in H by sizes.
  pose proof (skip_leading_range (Z.to_nat (length s)) (data s) (length s) 0) as Hs.
  pose proof (skip_leading_stops (Z.to_nat (length s)) (data s) (length s) 0) as Hs'.
  set (start := skip_leading _ _ _ _) in *.
  pose proof (skip_trailing_range (Z.to_nat (length s)) (data s) start (length s - 1)) as He.
  pose proof (skip_trailing_stops (Z.to_nat (length s)) (data s) start (length s - 1)) as He'.
  set (e := skip_trailing _ _ _ _) in *.
  assert (Hlen : 0 <= e - start + 1 <= length s /\ e + 1 <= length s) by lia.
  rewrite !wrap_small in H by sizes. injection H as <-.
  cbn [length data] in *.
  assert (Hm : sizeof (memmove (data s) 0 start (e - start + 1)) = sizeof (data s))
    by (apply memmove_length; lia).
  exists start. split; [lia|]. split; [lia|]. split.
  - unfold content, poke. cbn [length data].
    rewrite firstn_splice_le by lia.
    unfold memmove, memcpy. change (Z.to_nat 0) with O.
    assert (Ha : sizeof (at_off (data s) start) = sizeof (data s) - start)
      by (apply at_off_length; lia).
    replace (Z.to_nat (e - start + 1))
      with (0 + List.length (firstn (Z.to_nat (e - start + 1)) (at_off (data s) start)))%nat
      at 1 by (rewrite List.length_firstn; lia).
    rewrite firstn_splice_end by lia. reflexivity.
  - rewrite peek_poke_other by lia.
    rewrite peek_memmove_in by lia.
    replace (start + (e - start + 1 - 1 - 0)) with e by ring.
    assert (Hs2 : start = length s \/ isspace (peek (data s) start) = false)
      by (apply Hs'; sizes).
    assert (He2 : e <= start \/ isspace (peek (data s) e) = false)
      by (apply He'; sizes).
    destruct He2 as [He2|He2]; [|exact He2].
    assert (Hes : e = start) by lia. rewrite Hes.
    destruct Hs2 as [Hs2|Hs2]; [lia|exact Hs2].
Qed.

(** After [str_rtrim] the last byte of a buffer longer than one byte is
    not whitespace; the byte at index 0 is never looked at. *)
Lemma str_rtrim_spec s s' :
  wf s -> str_rtrim (Some s) = Some s' -> 1 < length s' ->
  length s' <= length s /\
  content s' = firstn (Z.to_nat (length s')) (data s) /\
  isspace (peek (data s') (length s' - 1)) = false.
Proof.
  intros W H Hpos. unfold str_rtrim in H.
  destruct (Z.eqb_spec (length s) 0) as [Hz|Hnz];
    [injection H as <-; lia|].
  split_wf W. rewrite (wrap_small (length s - 1)) in H by sizes.
  pose proof (skip_trailing_range (Z.to_nat (length s)) (data s) 0 (length s - 1)) as He.
  pose proof (skip_trailing_stops (Z.to_nat (length s)) (data s) 0 (length s - 1)) as He'.
  set (e := skip_trailing _ _ _ _) in *.
  rewrite !wrap_small in H by sizes. injection H as <-.
  cbn [length data] in *. split; [lia|]. split.
  - unfold content, poke. cbn [length data]. rewrite firstn_splice_le by lia.
    reflexivity.
  - rewrite peek_poke_other by lia. replace (e + 1 - 1) with e by ring.
    assert (He2 : e <= 0 \/ isspace (peek (data s) e) = false)
      by (apply He'; sizes).
    destruct He2 as [He2|He2]; [lia|exact He2].
Qed.

(** ** The counters of the bounded loops *)

(** The loops that the source bounds by the length carry a counter in the
    embedding. With as many rounds as bytes are left the counter is
    never what ends the loop: more rounds change nothing. *)

Lemma str_to_lower_loop_counter n : forall m d len i,
  0 <= i -> len < size_half ->
  (Z.to_nat (len - i) <= n)%nat -> (Z.to_nat (len - i) <= m)%nat ->
  str_to_lower_loop n d len i = str_to_lower_loop m d len i.
Proof.
  induction n as [|n IH]; intros m d len i Hi Hl Hn Hm.
  - destruct m as [|m]; [reflexivity|]. cbn [str_to_lower_loop].
    destruct (Z.ltb_spec i len); [lia|reflexivity].
  - cbn [str_to_lower_loop]. destruct (Z.ltb_spec i len) as [Hlt|Hge].
    + destruct m as [|m]; [lia|]. cbn [str_to_lower_loop].
      destruct (Z.ltb_spec i len); [|lia].
      rewrite wrap_small by sizes. apply IH; lia.
    + destruct m as [|m]; [reflexivity|]. cbn [str_to_lower_loop].
      destruct (Z.ltb_spec i len); [lia|reflexivity].
Qed.

Lemma str_to_upper_loop_counter n : forall m d len i,
  0 <= i -> len < size_half ->
  (Z.to_nat (len - i) <= n)%nat -> (Z.to_nat (len - i) <= m)%nat ->
  str_to_upper_loop n d len i = str_to_upper_loop m d len i.
Proof.
  induction n as [|n IH]; intros m d len i Hi Hl Hn Hm.
  - destruct m as [|m]; [reflexivity|]. cbn [str_to_upper_loop].
    destruct (Z.ltb_spec i len); [lia|reflexivity].
  - cbn [str_to_upper_loop]. destruct (Z.ltb_spec i len) as [Hlt|Hge].
    + destruct m as [|m]; [lia|]. cbn [str_to_upper_loop].
      destruct (Z.ltb_spec i len); [|lia].
      rewrite wrap_small by sizes. apply IH; lia.
    + destruct m as [|m]; [reflexivity|]. cbn [str_to_upper_loop].
      destruct (Z.ltb_spec i len); [lia|reflexivity].
Qed.

Lemma str_camel_case_loop_counter n : forall m d len read write cap,
  0 <= read -> 0 <= write -> write <= read -> len < size_half ->
  (Z.to_nat (len - read) <= n)%nat -> (Z.to_nat (len - read) <= m)%nat ->
  str_camel_case_loop n d len read write cap
  = str_camel_case_loop m d len read write cap.
Proof.
  induction n as [|n IH]; intros m d len read write cap Hr Hw Hwr Hl Hn Hm.
  - destruct m as [|m]; [reflexivity|]. cbn [str_camel_case_loop].
    destruct (Z.ltb_spec read len); [lia|reflexivity].
  - cbn [str_camel_case_loop]. destruct (Z.ltb_spec read len) as [Hlt|Hge].
    + destruct m as [|m]; [lia|]. cbn [str_camel_case_loop].
      destruct (Z.ltb_spec read len); [|lia].
      rewrite !(wrap_small (read + 1)), !(wrap_small (write + 1)) by sizes.
      destruct (_ || _); [apply IH; lia|].
      destruct cap; apply IH; lia.
    + destruct m as [|m]; [reflexivity|]. cbn [str_camel_case_loop].
      destruct (Z.ltb_spec read len); [lia|reflexivity].
Qed.

Lemma str_pascal_case_loop_counter n : forall m d len read write nw,
  0 <= read -> 0 <= write -> write <= read -> len < size_half ->
  (Z.to_nat (len - read) <= n)%nat -> (Z.to_nat (len - read) <= m)%nat ->
  str_pascal_case_loop n d len read write nw
  = str_pascal_case_loop m d len read write nw.
Proof.
  induction n as [|n IH]; intros m d len read write nw Hr Hw Hwr Hl Hn Hm.
  - destruct m as [|m]; [reflexivity|]. cbn [str_pascal_case_loop].
    destruct (Z.ltb_spec read len); [lia|reflexivity].
  - cbn [str_pascal_case_loop]. destruct (Z.ltb_spec read len) as [Hlt|Hge].
    + destruct m as [|m]; [lia|]. cbn [str_pascal_case_loop].
      destruct (Z.ltb_spec read len); [|lia].
      rewrite !(wrap_small (read + 1)), !(wrap_small (write + 1)) by sizes.
      destruct (_ || _); [apply IH; lia|].
      destruct nw; [apply IH; lia|].
      destruct (_ && _); apply IH; lia.
    + destruct m as [|m]; [reflexivity|]. cbn [str_pascal_case_loop].
      destruct (Z.ltb_spec read len); [lia|reflexivity].
Qed.

Lemma skip_leading_counter n : forall m d len start,
  0 <= start -> len < size_half ->
  (Z.to_nat (len - start) <= n)%nat -> (Z.to_nat (len - start) <= m)%nat ->
  skip_leading n d len start = skip_leading m d len start.
Proof.
  induction n as [|n IH]; intros m d len start Hs Hl Hn Hm.
  - destruct m as [|m]; [reflexivity|]. cbn [skip_leading].
    destruct (Z.ltb_spec start len); [lia|reflexivity].
  - cbn [skip_leading]. destruct (Z.ltb_spec start len) as [Hlt|Hge]; cbn [andb].
    + destruct m as [|m]; [lia|]. cbn [skip_leading].
      destruct (Z.ltb_spec start len); [|lia]. cbn [andb].
      destruct (isspace _); [|reflexivity].
      rewrite wrap_small by sizes. apply IH; lia.
    + destruct m as [|m]; [reflexivity|]. cbn [skip_leading].
      destruct (Z.ltb_spec start len); [lia|reflexivity].
Qed.

Lemma skip_trailing_counter n : forall m d start e,
  0 <= start -> 0 <= e < size_half ->
  (Z.to_nat (e - start) <= n)%nat -> (Z.to_nat (e - start) <= m)%nat ->
  skip_trailing n d start e = skip_trailing m d start e.
Proof.
  induction n as [|n IH]; intros m d start e Hs He Hn Hm.
  - destruct m as [|m]; [reflexivity|]. cbn [skip_trailing].
    destruct (Z.gtb_spec e start); [lia|reflexivity].
  - cbn [skip_trailing]. destruct (Z.gtb_spec e start) as [Hgt|Hle]; cbn [andb].
    + destruct m as [|m]; [lia|]. cbn [skip_trailing].
      destruct (Z.gtb_spec e start); [|lia]. cbn [andb].
      destruct (isspace _); [|reflexivity].
      rewrite wrap_small by sizes. apply IH; lia.
    + destruct m as [|m]; [reflexivity|]. cbn [skip_trailing].
      destruct (Z.gtb_spec e start); [lia|reflexivity].
Qed.

Lemma str_reverse_in_place_loop_counter n : forall m d start e,
  (Z.to_nat (e - start) <= n)%nat -> (Z.to_nat (e - start) <= m)%nat ->
  str_reverse_in_place_loop n d start e = str_reverse_in_place_loop m d start e.
Proof.
  induction n as [|n IH]; intros m d start e Hn Hm.
  - destruct m as [|m]; [reflexivity|]. cbn [str_reverse_in_place_loop].
    destruct (Z.ltb_spec start e); [lia|reflexivity].
  - cbn [str_reverse_in_place_loop]. destruct (Z.ltb_spec start e) as [Hlt|Hge].
    + destruct m as [|m]; [lia|]. cbn [str_reverse_in_place_loop].
      destruct (Z.ltb_spec start e); [|lia]. apply IH; lia.
    + destruct m as [|m]; [reflexivity|]. cbn [str_reverse_in_place_loop].
      destruct (Z.ltb_spec start e); [lia|reflexivity].
Qed.

(** ** The content after a write *)

Lemma firstn_splice dst off src n :
  (off <= List.length dst)%nat ->
  firstn n (splice dst off src) =
  firstn (Nat.min n off) dst ++ firstn (n - off) src
  ++ firstn (n - off - List.length src) (skipn (off + List.length src) dst).
Proof.
  intros H. unfold splice.
  rewrite !firstn_app, firstn_firstn, List.length_firstn.
  now rewrite (Nat.min_l off) by lia.
Qed.

Lemma skipn_splice dst off src :
  (off <= List.length dst)%nat ->
  skipn off (splice dst off src) = src ++ skipn (off + List.length src) dst.
Proof.
  intros H. unfold splice. rewrite skipn_app, List.length_firstn.
  rewrite (Nat.min_l off) by lia. rewrite Nat.sub_diag.
  rewrite skipn_all2 by (rewrite List.length_firstn; lia). reflexivity.
Qed.

Lemma content_grown s s1 tail :
  0 <= length s <= sizeof (data s) -> length s1 = length s ->
  data s1 = data s ++ tail -> content s1 = content s.
Proof.
  intros Hl L D. unfold content. rewrite L, D, firstn_app.
  replace (Z.to_nat (length s) - List.length (data s))%nat with O by lia.
  cbn [firstn]. now rewrite app_nil_r.
Qed.

Lemma content_length_wf s : wf s -> sizeof (content s) = length s.
Proof.
  intros (Wl & Wc & Wd & Wt). unfold content. rewrite List.length_firstn. lia.
Qed.

Ltac ensure_data H W :=
  let ok := fresh "ok" in let r := fresh "r" in let h1 := fresh "h" in
  let E := fresh "E" in
  apply bind_returns in H; destruct H as ([ok r] & h1 & E & H);
  destruct (str_ensure_capacity_spec _ _ _ _ _ _ W E)
    as [[-> ->] | (-> & ?s1 & -> & ?W1 & ?L1 & ?C1 & ?K1 & ?tail & ?D1)]; [discriminate|].

Lemma memcpy_c_bytes_all rd dest a :
  memcpy rd dest (c_bytes a) (strlen a + 1) = splice rd (Z.to_nat dest) (c_str a ++ [NUL]).
Proof.
  unfold memcpy, c_bytes. f_equal. apply firstn_all2.
  rewrite List.length_app. cbn [List.length]. unfold strlen. lia.
Qed.

Lemma str_append_content s a h s' h' :
  wf s -> strlen a < size_half ->
  str_append (Some s) (Some a) h = Returns ((true, Some s'), h') ->
  capacity s <= capacity s' /\
  length s' = length s + strlen a /\ content s' = content s ++ c_str a.
Proof.
  intros W Ha H. unfold str_append in H. ensure_data H W.
  unfold ret in H. injection H as <- <-.
  pose proof (strlen_nonneg a) as Hn.
  assert (Hc : content s1 = content s)
    by (destruct W as (? & ? & ? & ?); eapply content_grown; eauto; lia).
  split_wf W. split_wf W1. rewrite wrap_small in C1 by sizes.
  cbn [length capacity]. rewrite !wrap_small by sizes.
  split; [lia|]. split; [lia|].
  rewrite <- Hc. unfold content at 1. cbn [length data].
  rewrite memcpy_c_bytes_all, firstn_splice by lia.
  unfold strlen in *. rewrite List.length_app. cbn [List.length].
  replace (Nat.min _ _) with (Z.to_nat (length s1)) by lia.
  replace (Z.to_nat (length s1 + sizeof (c_str a)) - Z.to_nat (length s1))%nat
    with (List.length (c_str a)) by lia.
  rewrite firstn_app, firstn_all, Nat.sub_diag. cbn [firstn].
  replace (List.length (c_str a) - (List.length (c_str a) + 1))%nat with O by lia.
  cbn [firstn]. now rewrite !app_nil_r.
Qed.

Lemma poke_as_splice d i c : poke d i c = splice d (Z.to_nat i) [c].
Proof. reflexivity. Qed.

Lemma str_append_char_content s c h s' h' :
  wf s ->
  str_append_char (Some s) c h = Returns ((true, Some s'), h') ->
  capacity s <= capacity s' /\
  length s' = length s + 1 /\ content s' = content s ++ [c].
Proof.
  intros W H. unfold str_append_char in H. ensure_data H W.
  unfold ret in H. injection H as <- <-.
  assert (Hc : content s1 = content s)
    by (destruct W as (? & ? & ? & ?); eapply content_grown; eauto; lia).
  split_wf W. split_wf W1. rewrite wrap_small in C1 by sizes.
  cbn [length capacity]. rewrite !wrap_small by sizes.
  split; [lia|]. split; [lia|].
  rewrite <- Hc. unfold content at 1. cbn [length data].
  rewrite !poke_as_splice.
  rewrite firstn_splice_le;
    [|lia|rewrite splice_length by (cbn [List.length]; lia); lia].
  replace (Z.to_nat (length s1 + 1)) with (Z.to_nat (length s1) + List.length [c])%nat
    by (cbn [List.length]; lia).
  rewrite firstn_splice_end by lia. reflexivity.
Qed.

Lemma memmove_as_splice d to from n :
  memmove d to from n
  = splice d (Z.to_nat to) (firstn (Z.to_nat n) (skipn (Z.to_nat from) d)).
Proof. reflexivity. Qed.

Lemma str_prepend_content s a h s' h' :
  wf s -> strlen a < size_half ->
  str_prepend (Some s) (Some a) h = Returns ((true, Some s'), h') ->
  capacity s <= capacity s' /\
  length s' = length s + strlen a /\ content s' = c_str a ++ content s.
Proof.
  intros W Ha H. unfold str_prepend in H. ensure_data H W.
  unfold ret in H. injection H as <- <-.
  pose proof (strlen_nonneg a) as Hn.
  assert (Hc : content s1 = content s)
    by (destruct W as (? & ? & ? & ?); eapply content_grown; eauto; lia).
  split_wf W. split_wf W1. rewrite wrap_small in C1 by sizes.
  cbn [length capacity]. rewrite !wrap_small by sizes.
  split; [lia|]. split; [lia|].
  rewrite <- Hc. unfold content at 1. cbn [length data].
  rewrite memcpy_c_bytes, memmove_as_splice. cbn [Z.to_nat skipn].
  set (moved := firstn (Z.to_nat (length s1 + 1)) (data s1)).
  assert (Hmv : List.length moved = Z.to_nat (length s1 + 1))
    by (unfold moved; rewrite List.length_firstn; lia).
  unfold strlen in *.
  rewrite firstn_splice by lia. cbn [Nat.min firstn app]. rewrite Nat.min_0_r.
  cbn [firstn app]. rewrite Nat.sub_0_r.
  rewrite firstn_all2 by lia. f_equal.
  replace (Z.to_nat (sizeof (c_str a))) with (List.length (c_str a)) by lia.
  cbn [Nat.add]. rewrite skipn_splice by lia.
  rewrite firstn_app, Hmv.
  replace (Z.to_nat (length s1 + sizeof (c_str a)) - List.length (c_str a))%nat
    with (Z.to_nat (length s1)) by lia.
  replace (Z.to_nat (length s1) - Z.to_nat (length s1 + 1))%nat with O by lia.
  cbn [firstn]. rewrite app_nil_r. unfold moved, content.
  rewrite firstn_firstn. f_equal. lia.
Qed.

Lemma str_insert_content s index a h s' h' :
  wf s -> 0 <= index -> strlen a < size_half ->
  str_insert (Some s) index (Some a) h = Returns ((true, Some s'), h') ->
  index <= length s /\ capacity s <= capacity s' /\
  length s' = length s + strlen a /\
  content s' = firstn (Z.to_nat index) (content s) ++ c_str a
               ++ skipn (Z.to_nat index) (content s).
Proof.
  intros W Hi Ha H. unfold str_insert in H.
  destruct (Z.gtb_spec index (length s)) as [Hgt | Hle]; [discriminate|].
  ensure_data H W.
  unfold ret in H. injection H as <- <-.
  pose proof (strlen_nonneg a) as Hn.
  assert (Hc : content s1 = content s)
    by (destruct W as (? & ? & ? & ?); eapply content_grown; eauto; lia).
  split_wf W. split_wf W1. rewrite wrap_small in C1 by sizes.
  cbn [length capacity]. rewrite !wrap_small by sizes.
  split; [lia|]. split; [lia|]. split; [lia|].
  rewrite <- Hc. unfold content at 1. cbn [length data].
  rewrite memcpy_c_bytes, memmove_as_splice.
  set (moved := firstn (Z.to_nat (length s1 - index + 1))
                       (skipn (Z.to_nat index) (data s1))).
  assert (Hmv : List.length moved = Z.to_nat (length s1 - index + 1))
    by (unfold moved; rewrite List.length_firstn, List.length_skipn; lia).
  unfold strlen in *.
  assert (Hsp : List.length (splice (data s1) (Z.to_nat (index + sizeof (c_str a))) moved)
                = List.length (data s1)) by (apply splice_length; lia).
  rewrite firstn_splice by lia.
  replace (Nat.min _ _) with (Z.to_nat index) by lia.
  rewrite firstn_splice_le by lia.
  replace (Z.to_nat (length s1 + sizeof (c_str a)) - Z.to_nat index)%nat
    with (List.length (c_str a) + Z.to_nat (length s1 - index))%nat by lia.
  rewrite (firstn_all2 (c_str a)) by lia.
  replace (List.length (c_str a) + Z.to_nat (length s1 - index) - List.length (c_str a))%nat
    with (Z.to_nat (length s1 - index)) by lia.
  replace (Z.to_nat index + List.length (c_str a))%nat
    with (Z.to_nat (index + sizeof (c_str a))) by lia.
  rewrite skipn_splice by lia.
  rewrite firstn_app, Hmv.
  replace (Z.to_nat (length s1 - index) - Z.to_nat (length s1 - index + 1))%nat
    with O by lia.
  cbn [firstn]. rewrite app_nil_r. unfold moved, content.
  rewrite firstn_firstn, firstn_firstn.
  replace (Nat.min (Z.to_nat index) (Z.to_nat (length s1))) with (Z.to_nat index) by lia.
  f_equal. f_equal. rewrite skipn_firstn_comm. f_equal. lia.
Qed.

Lemma str_remove_content s index count s' :
  wf s -> 0 <= index -> 0 <= count ->
  str_remove (Some s) index count = (true, Some s') ->
  index < length s /\ capacity s' = capacity s /\
  length s' = length s - Z.min count (length s - index) /\
  content s' = firstn (Z.to_nat index) (content s)
               ++ skipn (Z.to_nat (index + count)) (content s).
Proof.
  intros W Hi Hc H. unfold str_remove in H.
  destruct (Z.geb_spec index (length s)) as [Hge | Hlt]; [discriminate|].
  injection H as <-. split_wf W. split; [lia|]. split; [reflexivity|].
  cbn [length]. rewrite (wrap_small (length s - index)) by sizes.
  assert (Hm : MIN count (length s - index) = Z.min count (length s - index))
    by (unfold MIN; destruct (Z.ltb_spec count (length s - index)); lia).
  rewrite Hm. set (c := Z.min count (length s - index)).
  assert (Hcr : 0 <= c <= length s - index) by (unfold c; lia).
  rewrite !wrap_small by sizes. split; [reflexivity|].
  unfold content at 1. cbn [length data].
  rewrite memmove_as_splice.
  set (moved := firstn _ (skipn _ (data s))).
  assert (Hmv : List.length moved = Z.to_nat (length s - index - c + 1))
    by (unfold moved; rewrite List.length_firstn, List.length_skipn; lia).
  rewrite firstn_splice by lia.
  replace (Nat.min _ _) with (Z.to_nat index) by lia.
  rewrite Hmv.
  replace (Z.to_nat (length s - c) - Z.to_nat index - Z.to_nat (length s - index - c + 1))%nat
    with O by lia.
  cbn [firstn]. rewrite app_nil_r. unfold moved, content.
  rewrite firstn_firstn, firstn_firstn.
  replace (Nat.min (Z.to_nat index) (Z.to_nat (length s))) with (Z.to_nat index) by lia.
  f_equal. rewrite skipn_firstn_comm.
  destruct (Z.le_gt_cases count (length s - index)) as [Hle | Hgt].
  - replace c with count by (unfold c; lia).
    rewrite Nat.min_l by lia. f_equal. lia.
  - replace c with (length s - index) by (unfold c; lia).
    replace (Z.to_nat (length s) - Z.to_nat (index + count))%nat with O by lia.
    replace (Nat.min _ _) with O by lia. reflexivity.
Qed.

Lemma str_resize_content s n h s' h' :
  wf s -> 0 <= n < size_modulus - 1 ->
  str_resize (Some s) n h = Returns ((true, Some s'), h') ->
  capacity s <= capacity s' /\ length s' = n /\
  content s' = firstn (Z.to_nat n) (content s)
               ++ repeat NUL (Z.to_nat (n - length s)).
Proof.
  intros W Hn H. unfold str_resize in H. ensure_data H W.
  unfold ret in H. injection H as <- <-.
  assert (Hc : content s1 = content s)
    by (destruct W as (? & ? & ? & ?); eapply content_grown; eauto; lia).
  split_wf W. split_wf W1. rewrite wrap_small in C1 by sizes.
  cbn [length capacity]. split; [lia|]. split; [reflexivity|].
  rewrite <- Hc, <- L1. unfold content at 1. cbn [length data].
  rewrite poke_as_splice.
  destruct (Z.gtb_spec n (length s1)) as [Hgt | Hle].
  - rewrite wrap_small by sizes.
    assert (Hms : sizeof (memset (data s1) (length s1) NUL (n - length s1))
                  = sizeof (data s1)) by (apply memset_length; lia).
    rewrite firstn_splice_le by lia. unfold memset.
    replace (Z.to_nat n)
      with (Z.to_nat (length s1) + List.length (repeat NUL (Z.to_nat (n - length s1))))%nat
      at 1 by (rewrite repeat_length; lia).
    rewrite firstn_splice_end by lia. f_equal.
    unfold content. rewrite firstn_firstn. f_equal. lia.
  - rewrite firstn_splice_le by lia.
    replace (Z.to_nat (n - length s1)) with O by lia. cbn [repeat].
    rewrite app_nil_r. unfold content. rewrite firstn_firstn. f_equal. lia.
Qed.


(** ** What the operations on a handle do *)

Lemma str_ensure_capacity_total s cap h :
  cap <= size_half ->
  exists ok r h', str_ensure_capacity (Some s) cap h = Returns ((ok, r), h').
Proof.
  intros Hc. unfold str_ensure_capacity.
  destruct (capacity s >=? cap); [unfold ret; eauto|].
  destruct (str_round_capacity_total cap Hc) as (c & ->).
  unfold bind, realloc. destruct (next_request h) as [[|] h1]; unfold ret; eauto.
Qed.

Ltac ensure_cases s cap h W E :=
  let ok := fresh "ok" in let r := fresh "r" in let h1 := fresh "h" in
  destruct (str_ensure_capacity_total s cap h) as (ok & r & h1 & E);
  [|destruct (str_ensure_capacity_spec _ _ _ _ _ _ W E)
      as [[-> ->] | (-> & ?s1 & -> & _)]].

(** X1. [str_append] on a buffer that satisfies the invariants, when the
    new length and its terminator fit 2^63 bytes: the call returns. On
    success the content is the old content followed by the C string
    [append], the length has grown by the length of that string, the
    capacity has not shrunk and the invariants hold. On failure the
    buffer is the one before. *)
Theorem str_append_appends s a h :
  wf s -> length s + strlen a + 1 <= size_half ->
  exists ok r h',
    str_append (Some s) (Some a) h = Returns ((ok, r), h') /\
    if ok
    then exists s', r = Some s' /\ wf s' /\ capacity s <= capacity s' /\
                    length s' = length s + strlen a /\
                    content s' = content s ++ c_str a
    else r = Some s.
Proof.
  intros W Hfit. pose proof (strlen_nonneg a) as Hn.
  assert (Wl : 0 <= length s) by (destruct W; lia).
  ensure_cases s (wrap (length s + strlen a + 1)) h W E.
  - rewrite wrap_small by sizes. lia.
  - exists false, (Some s), h0. split; [|reflexivity].
    unfold str_append, bind. now rewrite E.
  - assert (Hrun : exists s', str_append (Some s) (Some a) h = Returns ((true, Some s'), h0))
      by (unfold str_append, bind; rewrite E; eexists; reflexivity).
    destruct Hrun as (s' & Hrun). exists true, (Some s'), h0. split; [exact Hrun|].
    exists s'. split; [reflexivity|]. split; [eapply str_append_wf; eauto; lia|].
    eapply str_append_content; eauto; lia.
Qed.

Lemma str_append_appends_witness :
  exists ok r h',
    str_append (Some hello) (Some (lit " World")) generous = Returns ((ok, r), h') /\
    if ok
    then exists s', r = Some s' /\ wf s' /\ capacity hello <= capacity s' /\
                    length s' = length hello + strlen (lit " World") /\
                    content s' = content hello ++ c_str (lit " World")
    else r = Some hello.
Proof.
  apply (str_append_appends hello (lit " World") generous).
  - exact wf_hello.
  - vm_compute. discriminate.
Defined.

Lemma str_at_content s i :
  0 <= i -> 0 <= length s ->
  str_at (Some s) i = nth (Z.to_nat i) (content s) NUL.
Proof.
  intros Hi Hl. unfold str_at, content, peek. rewrite nth_firstn.
  destruct (Z.ltb_spec i (length s)) as [H | H];
    destruct (Nat.ltb_spec (Z.to_nat i) (Z.to_nat (length s))); try reflexivity; lia.
Qed.

(** X2. [str_append_char] on a buffer that satisfies the invariants and
    holds at most 2^63 - 2 bytes: the call returns. On success the
    content is the old content followed by the byte, which [str_at] reads
    back at the old length; the capacity has not shrunk and the
    invariants hold. On failure the buffer is the one before. *)
Theorem str_append_char_appends s c h :
  wf s -> length s + 2 <= size_half ->
  exists ok r h',
    str_append_char (Some s) c h = Returns ((ok, r), h') /\
    if ok
    then exists s', r = Some s' /\ wf s' /\ capacity s <= capacity s' /\
                    length s' = length s + 1 /\
                    content s' = content s ++ [c] /\
                    str_at (Some s') (length s) = c
    else r = Some s.
Proof.
  intros W Hfit.
  assert (Wl : 0 <= length s) by (destruct W; lia).
  ensure_cases s (wrap (length s + 2)) h W E.
  - rewrite wrap_small by sizes. lia.
  - exists false, (Some s), h0. split; [|reflexivity].
    unfold str_append_char, bind. now rewrite E.
  - assert (Hrun : exists s', str_append_char (Some s) c h = Returns ((true, Some s'), h0))
      by (unfold str_append_char, bind; rewrite E; eexists; reflexivity).
    destruct Hrun as (s' & Hrun). exists true, (Some s'), h0. split; [exact Hrun|].
    exists s'. split; [reflexivity|]. split; [eapply str_append_char_wf; eauto|].
    destruct (str_append_char_content _ _ _ _ _ W Hrun) as (K & L & C).
    repeat split; try assumption.
    rewrite str_at_content, C by lia.
    pose proof (content_length_wf s W) as Hcl.
    rewrite app_nth2 by lia.
    replace (Z.to_nat (length s) - List.length (content s))%nat with O by lia.
    reflexivity.
Qed.

Lemma str_append_char_appends_witness :
  exists ok r h',
    str_append_char (Some hello) "!"%char generous = Returns ((ok, r), h') /\
    if ok
    then exists s', r = Some s' /\ wf s' /\ capacity hello <= capacity s' /\
                    length s' = length hello + 1 /\
                    content s' = content hello ++ ["!"%char] /\
                    str_at (Some s') (length hello) = "!"%char
    else r = Some hello.
Proof.
  apply (str_append_char_appends hello "!"%char generous).
  - exact wf_hello.
  - vm_compute. discriminate.
Defined.

(** X3. [str_prepend] on a buffer that satisfies the invariants, when
    the new length and its terminator fit 2^63 bytes: the call returns.
    On success the content is the C string [prepend] followed by the old
    content, the capacity has not shrunk and the invariants hold. On
    failure the buffer is the one before. *)
Theorem str_prepend_prepends s a h :
  wf s -> length s + strlen a + 1 <= size_half ->
  exists ok r h',
    str_prepend (Some s) (Some a) h = Returns ((ok, r), h') /\
    if ok
    then exists s', r = Some s' /\ wf s' /\ capacity s <= capacity s' /\
                    length s' = length s + strlen a /\
                    content s' = c_str a ++ content s
    else r = Some s.
Proof.
  intros W Hfit. pose proof (strlen_nonneg a) as Hn.
  assert (Wl : 0 <= length s) by (destruct W; lia).
  ensure_cases s (wrap (length s + strlen a + 1)) h W E.
  - rewrite wrap_small by sizes. lia.
  - exists false, (Some s), h0. split; [|reflexivity].
    unfold str_prepend, bind. now rewrite E.
  - assert (Hrun : exists s', str_prepend (Some s) (Some a) h = Returns ((true, Some s'), h0))
      by (unfold str_prepend, bind; rewrite E; eexists; reflexivity).
    destruct Hrun as (s' & Hrun). exists true, (Some s'), h0. split; [exact Hrun|].
    exists s'. split; [reflexivity|]. split; [eapply str_prepend_wf; eauto; lia|].
    eapply str_prepend_content; eauto; lia.
Qed.

Lemma str_prepend_prepends_witness :
  exists ok r h',
    str_prepend (Some hello) (Some (lit "Oh, ")) generous = Returns ((ok, r), h') /\
    if ok
    then exists s', r = Some s' /\ wf s' /\ capacity hello <= capacity s' /\
                    length s' = length hello + strlen (lit "Oh, ") /\
                    content s' = c_str (lit "Oh, ") ++ content hello
    else r = Some hello.
Proof.
  apply (str_prepend_prepends hello (lit "Oh, ") generous).
  - exact wf_hello.
  - vm_compute. discriminate.
Defined.

(** X4. [str_insert] on a buffer that satisfies the invariants, when the
    new length and its terminator fit 2^63 bytes: the call returns. An
    index above the length is refused before any allocation. On success
    the content is the old content up to [index], the C string [insert],
    and the old content from [index] on; the capacity has not shrunk and
    the invariants hold. On failure the buffer is the one before. *)
Theorem str_insert_inserts s index a h :
  wf s -> 0 <= index -> length s + strlen a + 1 <= size_half ->
  exists ok r h',
    str_insert (Some s) index (Some a) h = Returns ((ok, r), h') /\
    (length s < index -> ok = false /\ h' = h) /\
    if ok
    then exists s', r = Some s' /\ wf s' /\ capacity s <= capacity s' /\
                    length s' = length s + strlen a /\
                    content s' = firstn (Z.to_nat index) (content s) ++ c_str a
                                 ++ skipn (Z.to_nat index) (content s)
    else r = Some s.
Proof.
  intros W Hi Hfit. pose proof (strlen_nonneg a) as Hn.
  assert (Wl : 0 <= length s) by (destruct W; lia).
  destruct (Z.gtb_spec index (length s)) as [Hgt | Hle].
  { exists false, (Some s), h. unfold str_insert.
    destruct (Z.gtb_spec index (length s)); [|lia]. repeat split. }
  ensure_cases s (wrap (length s + strlen a + 1)) h W E.
  - rewrite wrap_small by sizes. lia.
  - exists false, (Some s), h0. split; [|split; [lia|reflexivity]].
    unfold str_insert, bind. destruct (Z.gtb_spec index (length s)); [lia|].
    now rewrite E.
  - assert (Hrun : exists s', str_insert (Some s) index (Some a) h
                              = Returns ((true, Some s'), h0)).
    { unfold str_insert, bind. destruct (Z.gtb_spec index (length s)); [lia|].
      rewrite E. eexists. reflexivity. }
    destruct Hrun as (s' & Hrun). exists true, (Some s'), h0. split; [exact Hrun|].
    split; [lia|].
    exists s'. split; [reflexivity|].
    split; [apply (str_insert_wf s index a h s' h0); auto; lia|].
    apply (str_insert_content s index a h s' h0); auto; lia.
Qed.

Lemma str_insert_inserts_witness :
  exists ok r h',
    str_insert (Some hello) 2 (Some (lit "--")) generous = Returns ((ok, r), h') /\
    (length hello < 2 -> ok = false /\ h' = generous) /\
    if ok
    then exists s', r = Some s' /\ wf s' /\ capacity hello <= capacity s' /\
                    length s' = length hello + strlen (lit "--") /\
                    content s' = firstn (Z.to_nat 2) (content hello) ++ c_str (lit "--")
                                 ++ skipn (Z.to_nat 2) (content hello)
    else r = Some hello.
Proof.
  apply (str_insert_inserts hello 2 (lit "--") generous).
  - exact wf_hello.
  - lia.
  - vm_compute. discriminate.
Defined.

Lemma str_remove_accepts s index count :
  index < length s -> exists s', str_remove (Some s) index count = (true, Some s').
Proof.
  intros H. unfold str_remove. destruct (Z.geb_spec index (length s)); [lia|].
  eexists. reflexivity.
Qed.

(** X5. [str_remove] on a buffer that satisfies the invariants fails,
    leaving the buffer alone, exactly when [index] is not below the
    length (so always on an empty buffer). Otherwise it takes out the
    [count] bytes from [index] on, or as many as there are: the content
    is the old content up to [index] followed by the old content from
    [index + count] on; capacity and invariants are kept. *)
Theorem str_remove_removes s index count :
  wf s -> 0 <= index -> 0 <= count ->
  if index <? length s
  then exists s', str_remove (Some s) index count = (true, Some s') /\
                  wf s' /\ capacity s' = capacity s /\
                  length s' = length s - Z.min count (length s - index) /\
                  content s' = firstn (Z.to_nat index) (content s)
                               ++ skipn (Z.to_nat (index + count)) (content s)
  else str_remove (Some s) index count = (false, Some s).
Proof.
  intros W Hi Hc. destruct (Z.ltb_spec index (length s)) as [Hlt | Hge].
  - destruct (str_remove_accepts s index count Hlt) as (s' & Hrun).
    exists s'. split; [exact Hrun|].
    split; [apply (str_remove_wf s index count s'); auto|].
    apply (str_remove_content s index count s'); auto.
  - unfold str_remove. destruct (Z.geb_spec index (length s)); [reflexivity|lia].
Qed.

Lemma str_remove_removes_witness :
  if 1 <? length hello
  then exists s', str_remove (Some hello) 1 3 = (true, Some s') /\
                  wf s' /\ capacity s' = capacity hello /\
                  length s' = length hello - Z.min 3 (length hello - 1) /\
                  content s' = firstn (Z.to_nat 1) (content hello)
                               ++ skipn (Z.to_nat (1 + 3)) (content hello)
  else str_remove (Some hello) 1 3 = (false, Some hello).
Proof.
  apply (str_remove_removes hello 1 3).
  - exact wf_hello.
  - lia.
  - lia.
Defined.

(** X6. Removing at the same index as many bytes as a successful
    [str_insert] of a non-empty string has put in gives back the length
    and the content of the buffer before the insertion. *)
Theorem str_insert_then_remove s index a h s1 h1 :
  wf s -> 0 <= index -> 0 < strlen a < size_half ->
  str_insert (Some s) index (Some a) h = Returns ((true, Some s1), h1) ->
  exists s2,
    str_remove (Some s1) index (strlen a) = (true, Some s2) /\
    wf s2 /\ length s2 = length s /\ content s2 = content s.
Proof.
  intros W Hi Ha H.
  pose proof (str_insert_wf _ _ _ _ _ _ W Hi (proj2 Ha) H) as W1.
  destruct (str_insert_content _ _ _ _ _ _ W Hi (proj2 Ha) H) as (Hle & _ & L1 & C1).
  destruct (str_remove_accepts s1 index (strlen a)) as (s2 & R); [lia|].
  pose proof (str_remove_wf s1 index (strlen a) s2 W1 Hi ltac:(lia) R) as W2.
  destruct (str_remove_content s1 index (strlen a) s2 W1 Hi ltac:(lia) R)
    as (_ & _ & L2 & C2).
  exists s2. split; [exact R|]. split; [exact W2|]. split; [lia|].
  rewrite C2, C1. pose proof (content_length_wf s W) as Hcl.
  assert (Hf : List.length (firstn (Z.to_nat index) (content s)) = Z.to_nat index)
    by (rewrite List.length_firstn; lia).
  rewrite firstn_app, Hf, Nat.sub_diag. cbn [firstn]. rewrite app_nil_r.
  rewrite firstn_firstn, Nat.min_id.
  rewrite skipn_app, Hf.
  rewrite (skipn_all2 (firstn _ _)) by lia. cbn [app].
  unfold strlen in *.
  replace (Z.to_nat (index + sizeof (c_str a)) - Z.to_nat index)%nat
    with (List.length (c_str a)) by lia.
  rewrite skipn_app, Nat.sub_diag, skipn_all. cbn [app skipn].
  apply firstn_skipn.
Qed.

Lemma str_insert_then_remove_witness :
  exists s2,
    str_remove (Some {| length := 7; capacity := 16;
                        data := lit "He--llo" ++ NUL :: repeat "?"%char 8 |})
               2 (strlen (lit "--")) = (true, Some s2) /\
    wf s2 /\ length s2 = length hello /\ content s2 = content hello.
Proof.
  apply (str_insert_then_remove hello 2 (lit "--") generous _ generous).
  - exact wf_hello.
  - lia.
  - vm_compute. split; reflexivity.
  - reflexivity.
Defined.

(** X7. [str_resize] to a length below 2^63 on a buffer that satisfies
    the invariants: the call returns. On success the length is the new
    length and the content is the old content cut to it, or the old
    content followed by zero bytes up to it; the capacity has not shrunk
    and the invariants hold. On failure the buffer is the one before. *)
Theorem str_resize_resizes s n h :
  wf s -> 0 <= n < size_half ->
  exists ok r h',
    str_resize (Some s) n h = Returns ((ok, r), h') /\
    if ok
    then exists s', r = Some s' /\ wf s' /\ capacity s <= capacity s' /\
                    length s' = n /\
                    content s' = firstn (Z.to_nat n) (content s)
                                 ++ repeat NUL (Z.to_nat (n - length s))
    else r = Some s.
Proof.
  intros W Hn.
  ensure_cases s (wrap (n + 1)) h W E.
  - rewrite wrap_small by sizes. lia.
  - exists false, (Some s), h0. split; [|reflexivity].
    unfold str_resize, bind. now rewrite E.
  - assert (Hrun : exists s', str_resize (Some s) n h = Returns ((true, Some s'), h0))
      by (unfold str_resize, bind; rewrite E; eexists; reflexivity).
    destruct Hrun as (s' & Hrun). exists true, (Some s'), h0. split; [exact Hrun|].
    exists s'. split; [reflexivity|]. split; [eapply str_resize_wf; eauto; sizes|].
    eapply str_resize_content; eauto; sizes.
Qed.

Lemma str_resize_resizes_witness :
  exists ok r h',
    str_resize (Some hello) 8 generous = Returns ((ok, r), h') /\
    if ok
    then exists s', r = Some s' /\ wf s' /\ capacity hello <= capacity s' /\
                    length s' = 8 /\
                    content s' = firstn (Z.to_nat 8) (content hello)
                                 ++ repeat NUL (Z.to_nat (8 - length hello))
    else r = Some hello.
Proof.
  apply (str_resize_resizes hello 8 generous).
  - exact wf_hello.
  - vm_compute. split; [discriminate|reflexivity].
Defined.

(** ** The constructors *)

Lemma power_of_two_below r r' :
  power_of_two r -> power_of_two r' -> r' < r -> r' <= r / 2.
Proof.
  intros (k & Hk & ->) (k' & Hk' & ->) H.
  apply Z.pow_lt_mono_r_iff in H; try lia.
  replace k with (k - 1 + 1) by ring. rewrite Z.pow_add_r by lia.
  change (2 ^ 1) with 2. rewrite Z.div_mul by lia.
  apply Z.pow_le_mono_r; lia.
Qed.

(** X8. For a request of at most 2^63 bytes [str_round_capacity] returns
    the least power of two that is at least 16 and at least the request. *)
Theorem str_round_capacity_least cap :
  cap <= size_half ->
  exists r,
    str_round_capacity cap = Some r /\
    power_of_two r /\ STR_MIN_CAPACITY <= r /\ cap <= r /\
    forall r', power_of_two r' -> STR_MIN_CAPACITY <= r' -> cap <= r' -> r <= r'.
Proof.
  intros H. destruct (str_round_capacity_total cap H) as (r & R).
  exists r. split; [exact R|].
  apply str_round_capacity_spec in R. destruct R as (Hp & Hr & Hc & Hm).
  repeat split; try tauto; try lia.
  intros r' Hp' H16 Hc'. destruct Hm as [-> | Hm]; [exact H16|].
  destruct (Z.le_gt_cases r r') as [Hle | Hgt]; [exact Hle|].
  pose proof (power_of_two_below r r' Hp Hp') as Hb. lia.
Qed.

Lemma str_round_capacity_least_witness :
  exists r,
    str_round_capacity 17 = Some r /\
    power_of_two r /\ STR_MIN_CAPACITY <= r /\ 17 <= r /\
    forall r', power_of_two r' -> STR_MIN_CAPACITY <= r' -> 17 <= r' -> r <= r'.
Proof.
  apply (str_round_capacity_least 17). vm_compute. discriminate.
Defined.

(** X9. A request of more than 2^63 bytes never returns: the doubling in
    [str_round_capacity] wraps to 0 and stays below the request, whatever
    the number of rounds. [str_new] with such a capacity, and
    [str_ensure_capacity] and [str_resize] when they have to grow the
    buffer that far, do not come back. *)
Theorem oversized_request_never_returns cap s h fuel :
  size_half < cap < size_modulus ->
  str_round_capacity_loop fuel STR_MIN_CAPACITY cap = None /\
  str_new cap h = Timeout /\
  (capacity s <= size_half -> str_ensure_capacity (Some s) cap h = Timeout) /\
  (capacity s <= size_half -> str_resize (Some s) (cap - 1) h = Timeout).
Proof.
  intros Hc.
  assert (He : capacity s <= size_half -> str_ensure_capacity (Some s) cap h = Timeout).
  { intros Hs. unfold str_ensure_capacity.
    destruct (Z.geb_spec (capacity s) cap); [lia|].
    unfold str_round_capacity. rewrite str_round_capacity_hangs by lia. reflexivity. }
  split; [apply str_round_capacity_hangs; lia|].
  split; [apply (str_new_never_returns cap h fuel); lia|].
  split; [exact He|].
  intros Hs. unfold str_resize, bind.
  replace (cap - 1 + 1) with cap by ring. rewrite wrap_small by sizes.
  now rewrite He.
Qed.

Lemma oversized_request_never_returns_witness :
  str_round_capacity_loop 1000 STR_MIN_CAPACITY (size_half + 1) = None /\
  str_new (size_half + 1) generous = Timeout /\
  (capacity hello <= size_half ->
   str_ensure_capacity (Some hello) (size_half + 1) generous = Timeout) /\
  (capacity hello <= size_half ->
   str_resize (Some hello) (size_half + 1 - 1) generous = Timeout).
Proof.
  apply (oversized_request_never_returns (size_half + 1) hello generous 1000).
  vm_compute. split; reflexivity.
Defined.

Lemma str_new_spec cap h r h' :
  str_new cap h = Returns (Some r, h') ->
  wf r /\ capacity_ok r /\ length r = 0 /\ content r = [] /\
  MAX cap 1 <= capacity r /\
  (capacity r = STR_MIN_CAPACITY \/ capacity r / 2 < MAX cap 1) /\
  fst (next_request h) = true /\ h' = snd (next_request h).
Proof.
  intros H.
  destruct (str_new_capacity_ok _ _ _ _ H) as (Hok & Hl & Hm).
  unfold str_new in H.
  destruct (str_round_capacity (MAX cap 1)) as [c|] eqn:R; [|discriminate].
  apply str_round_capacity_spec in R. destruct R as (Hp & Hc & Hcap & _).
  unfold bind, malloc in H. destruct (next_request h) as [ok h1].
  destruct ok; unfold ret in H; [|discriminate]. injection H as <- <-.
  cbn [length capacity data fst snd] in *.
  assert (Hb : sizeof (repeat (junk h) (Z.to_nat c)) = c)
    by (rewrite repeat_length; sizes).
  split.
  { unfold wf, terminated. cbn [length capacity data].
    rewrite poke_length by sizes. rewrite peek_poke_same by sizes.
    repeat split; sizes. }
  repeat split; try assumption; try sizes. apply Hok. apply Hok.
Qed.

Lemma str_new_heap cap h r h' :
  str_new cap h = Returns (r, h') -> h' = snd (next_request h).
Proof.
  unfold str_new. destruct (str_round_capacity (MAX cap 1)); [|discriminate].
  unfold bind, malloc. destruct (next_request h) as [ok h1].
  unfold ret. intros H. now injection H as _ <-.
Qed.

Lemma str_new_total cap h :
  cap <= size_half ->
  exists r h',
    str_new cap h = Returns (r, h') /\
    (r = None -> fst (next_request h) = false).
Proof.
  intros Hc. unfold str_new.
  destruct (str_round_capacity_total (MAX cap 1)) as [c R].
  { unfold MAX. destruct (cap >? 1); sizes. }
  rewrite R. unfold bind, malloc. destruct (next_request h) as [ok h1].
  destruct ok; unfold ret; eexists _, h1; (split; [reflexivity|]);
    [discriminate|reflexivity].
Qed.

Lemma str_new_refused cap h :
  fst (next_request h) = false -> cap <= size_half ->
  str_new cap h = Returns (None, snd (next_request h)).
Proof.
  intros G Hc. destruct (str_new_total cap h Hc) as (r & h' & E & _).
  pose proof (str_new_heap _ _ _ _ E) as ->. destruct r as [r|]; [|exact E].
  destruct (str_new_spec _ _ _ _ E) as (_ & _ & _ & _ & _ & _ & G' & _). congruence.
Qed.

(** X10. [str_new] with a request of at most 2^63 bytes returns; the
    result is null exactly when the allocator refuses, and otherwise an
    empty, terminated buffer whose capacity is the rounded request. *)
Theorem str_new_gives_empty_buffer cap h :
  cap <= size_half ->
  exists r h',
    str_new cap h = Returns (r, h') /\
    match r with
    | None => fst (next_request h) = false
    | Some s =>
        fst (next_request h) = true /\
        wf s /\ capacity_ok s /\ length s = 0 /\ content s = [] /\
        str_round_capacity (MAX cap 1) = Some (capacity s)
    end.
Proof.
  intros Hc. destruct (str_new_total cap h Hc) as (r & h' & E & Hr).
  exists r, h'. split; [exact E|]. destruct r as [s|]; [|now apply Hr].
  destruct (str_new_spec _ _ _ _ E) as (W & K & L & C & _ & _ & G & _).
  do 5 (split; [assumption|]).
  unfold str_new in E.
  destruct (str_round_capacity (MAX cap 1)) as [c|]; [|discriminate].
  apply bind_returns in E. destruct E as (m & h1 & _ & E).
  destruct m; unfold ret in E; [|discriminate]. now injection E as <- _.
Qed.

Lemma str_new_gives_empty_buffer_witness :
  exists r h',
    str_new 100 generous = Returns (r, h') /\
    match r with
    | None => fst (next_request generous) = false
    | Some s =>
        fst (next_request generous) = true /\
        wf s /\ capacity_ok s /\ length s = 0 /\ content s = [] /\
        str_round_capacity (MAX 100 1) = Some (capacity s)
    end.
Proof.
  apply (str_new_gives_empty_buffer 100 generous). vm_compute. discriminate.
Defined.

Lemma str_from_spec cs h r h' :
  strlen cs < size_half ->
  str_from (Some cs) h = Returns (Some r, h') ->
  wf r /\ capacity_ok r /\ length r = strlen cs /\ content r = c_str cs /\
  c_str (data r) = c_str cs.
Proof.
  intros Hfit H. pose proof (strlen_nonneg cs) as Hn.
  destruct (str_from_capacity_ok _ _ _ _ Hfit H) as (Hok & Hl).
  unfold str_from in H.
  apply bind_returns in H. destruct H as (s0 & h1 & E & H).
  destruct s0 as [s0|]; unfold ret in H; [|discriminate]. injection H as <- <-.
  destruct (str_new_spec _ _ _ _ E) as (W0 & _ & L0 & _ & Hm & _).
  rewrite wrap_small in * by sizes.
  assert (Hcap : strlen cs + 1 <= capacity s0)
    by (unfold MAX in Hm; destruct (Z.gtb_spec (strlen cs + 1) 1); lia).
  split_wf W0. cbn [length capacity data] in *.
  rewrite memcpy_c_bytes_all. cbn [Z.to_nat].
  assert (Hsp : exists rest,
            splice (data s0) 0 (c_str cs ++ [NUL]) = c_str cs ++ NUL :: rest /\
            sizeof (splice (data s0) 0 (c_str cs ++ [NUL])) = sizeof (data s0)).
  { unfold splice. cbn [firstn app Nat.add]. rewrite <- app_assoc. cbn [app].
    eexists. split; [reflexivity|].
    rewrite List.length_app. cbn [List.length].
    rewrite List.length_skipn, List.length_app. cbn [List.length].
    unfold strlen in *. lia. }
  destruct Hsp as (rest & -> & Hlen).
  split; [|split; [exact Hok|split; [reflexivity|split]]].
  - unfold wf, terminated; cbn [length capacity data].
    repeat split; try lia.
    unfold peek, strlen. rewrite Nat2Z.id, app_nth2 by lia.
    now rewrite Nat.sub_diag.
  - unfold content, strlen. cbn [length data]. rewrite Nat2Z.id.
    rewrite firstn_app, firstn_all, Nat.sub_diag. cbn [firstn]. apply app_nil_r.
  - apply c_str_app_nul.
Qed.

(** X11. [str_from] copies a C string: for a string shorter than 2^63
    bytes it returns, null exactly when the allocator refuses, and
    otherwise (the allocator having granted the one request) a buffer that
    satisfies the invariants, whose content is the string and whose
    block, read back through [str_cstr] as a C string, is the string
    again. *)
Theorem str_from_copies cs h :
  strlen cs < size_half ->
  exists r h',
    str_from (Some cs) h = Returns (r, h') /\
    h' = snd (next_request h) /\
    match r with
    | None => fst (next_request h) = false
    | Some s =>
        fst (next_request h) = true /\
        wf s /\ capacity_ok s /\ length s = strlen cs /\ content s = c_str cs /\
        option_map c_str (str_cstr (Some s)) = Some (c_str cs)
    end.
Proof.
  intros Hfit. pose proof (strlen_nonneg cs) as Hn.
  destruct (str_new_total (wrap (strlen cs + 1)) h) as (r0 & h1 & E & Hr).
  { rewrite wrap_small by sizes. lia. }
  pose proof (str_new_heap _ _ _ _ E) as Hh.
  destruct r0 as [s0|].
  - assert (Hrun : exists s, str_from (Some cs) h = Returns (Some s, h1))
      by (unfold str_from, bind; rewrite E; eexists; reflexivity).
    destruct Hrun as (s & Hrun). exists (Some s), h1. split; [exact Hrun|].
    split; [exact Hh|].
    destruct (str_new_spec _ _ _ _ E) as (_ & _ & _ & _ & _ & _ & G & _).
    split; [exact G|].
    destruct (str_from_spec _ _ _ _ Hfit Hrun) as (W & K & L & C & D).
    cbn [str_cstr option_map]. rewrite D. do 4 (split; [assumption|]). reflexivity.
  - exists None, h1. split; [|split; [exact Hh|now apply Hr]].
    unfold str_from, bind. now rewrite E.
Qed.

Lemma str_from_copies_witness :
  exists r h',
    str_from (Some (lit "Hello")) generous = Returns (r, h') /\
    h' = snd (next_request generous) /\
    match r with
    | None => fst (next_request generous) = false
    | Some s =>
        fst (next_request generous) = true /\
        wf s /\ capacity_ok s /\ length s = strlen (lit "Hello") /\
        content s = c_str (lit "Hello") /\
        option_map c_str (str_cstr (Some s)) = Some (c_str (lit "Hello"))
    end.
Proof.
  apply (str_from_copies (lit "Hello") generous). vm_compute. reflexivity.
Defined.

(** X12. [str_ensure_capacity] on a buffer that satisfies the invariants,
    for a request of at most 2^63 bytes: when the capacity suffices the
    buffer and the allocator are left alone; otherwise the block is
    reallocated at the rounded request. On success length and content are
    kept and the capacity is at least the request and never smaller than
    before; on failure the buffer is the one before. *)
Theorem str_ensure_capacity_keeps_content s cap h :
  wf s -> cap <= size_half ->
  exists ok r h',
    str_ensure_capacity (Some s) cap h = Returns ((ok, r), h') /\
    (cap <= capacity s -> ok = true /\ r = Some s /\ h' = h) /\
    if ok
    then exists s1, r = Some s1 /\ wf s1 /\ length s1 = length s /\
                    content s1 = content s /\ cap <= capacity s1 /\
                    capacity s <= capacity s1 /\
                    (capacity s < cap -> str_round_capacity cap = Some (capacity s1))
    else r = Some s /\ fst (next_request h) = false.
Proof.
  intros W Hc. destruct (Z.le_gt_cases cap (capacity s)) as [Hle | Hgt].
  - exists true, (Some s), h. split; [now apply str_ensure_capacity_noop|].
    split; [tauto|]. exists s. split; [reflexivity|]. split; [exact W|].
    repeat split; lia.
  - assert (Hshape : str_ensure_capacity (Some s) cap h =
              match str_round_capacity cap with
              | None => Timeout
              | Some c =>
                  bind (realloc (data s) c) (fun m =>
                    match m with
                    | None => ret (false, Some s)
                    | Some block =>
                        ret (true, Some {| length := length s; capacity := c;
                                           data := block |})
                    end) h
              end).
    { unfold str_ensure_capacity. destruct (Z.geb_spec (capacity s) cap); [lia|].
      destruct (str_round_capacity cap); reflexivity. }
    destruct (str_round_capacity_total cap Hc) as (c & R). rewrite R in Hshape.
    unfold bind, realloc in Hshape. destruct (next_request h) as [ok h1] eqn:N.
    destruct ok; unfold ret in Hshape.
    + eexists true, _, h1. split; [exact Hshape|]. split; [lia|].
      destruct (str_ensure_capacity_spec _ _ _ _ _ _ W Hshape)
        as [[? _] | (_ & s1 & Es & W1 & L1 & C1 & K1 & tail & D1)]; [discriminate|].
      exists s1. split; [exact Es|]. injection Es as Es.
      split; [exact W1|]. split; [exact L1|].
      split; [destruct W as (? & ? & ? & ?); eapply content_grown; eauto; lia|].
      split; [exact C1|]. split; [exact K1|].
      intros _. now rewrite <- Es.
    + exists false, (Some s), h1. split; [exact Hshape|]. split; [lia|].
      split; reflexivity.
Qed.

Lemma str_ensure_capacity_keeps_content_witness :
  exists ok r h',
    str_ensure_capacity (Some hello) 100 generous = Returns ((ok, r), h') /\
    (100 <= capacity hello -> ok = true /\ r = Some hello /\ h' = generous) /\
    if ok
    then exists s1, r = Some s1 /\ wf s1 /\ length s1 = length hello /\
                    content s1 = content hello /\ 100 <= capacity s1 /\
                    capacity hello <= capacity s1 /\
                    (capacity hello < 100 ->
                     str_round_capacity 100 = Some (capacity s1))
    else r = Some hello /\ fst (next_request generous) = false.
Proof.
  apply (str_ensure_capacity_keeps_content hello 100 generous).
  - exact wf_hello.
  - vm_compute. discriminate.
Defined.

Lemma MIN_min a b : MIN a b = Z.min a b.
Proof. unfold MIN. destruct (Z.ltb_spec a b); lia. Qed.

Lemma str_substr_spec s start len h r h' :
  wf s -> 0 <= start -> 0 <= len ->
  str_substr (Some s) start len h = Returns (Some r, h') ->
  start < length s /\ wf r /\ capacity_ok r /\
  length r = Z.min len (length s - start) /\
  content r = firstn (Z.to_nat len) (skipn (Z.to_nat start) (content s)).
Proof.
  intros W Hs Hl H. unfold str_substr in H.
  destruct (Z.geb_spec start (length s)) as [Hge | Hlt]; [discriminate|].
  split; [exact Hlt|]. split_wf W.
  rewrite (wrap_small (length s - start)) in H by sizes. rewrite MIN_min in H.
  set (n := Z.min len (length s - start)) in *.
  assert (Hn : 0 <= n <= length s - start) by (unfold n; lia).
  rewrite wrap_small in H by sizes.
  apply bind_returns in H. destruct H as (r0 & h1 & E & H).
  destruct r0 as [r0|]; unfold ret in H; [|discriminate]. injection H as <- <-.
  destruct (str_new_spec _ _ _ _ E) as (W0 & K0 & L0 & _ & Hm & _).
  assert (Hcap : n + 1 <= capacity r0)
    by (unfold MAX in Hm; destruct (Z.gtb_spec (n + 1) 1); lia).
  split_wf W0. unfold memcpy, at_off. cbn [Z.to_nat].
  set (sub := firstn (Z.to_nat n) (skipn (Z.to_nat start) (data s))).
  assert (Hsub : sizeof sub = n)
    by (unfold sub; rewrite List.length_firstn, List.length_skipn; lia).
  destruct (poke_splice_end (data r0) sub) as (rest & Hd & Hlen); [lia|].
  rewrite Hsub in Hd, Hlen. rewrite Hd in *.
  split; [|split; [|split; [reflexivity|]]].
  - unfold wf, terminated; cbn [length capacity data]. repeat split; try lia.
    unfold peek. rewrite app_nth2 by lia.
    replace (Z.to_nat n - List.length sub)%nat with O by lia. reflexivity.
  - destruct K0 as (Hp & H16 & _). unfold capacity_ok; cbn [length capacity].
    repeat split; try assumption; lia.
  - unfold content at 1. cbn [length data].
    rewrite firstn_app. replace (Z.to_nat n - List.length sub)%nat with O by lia.
    rewrite firstn_all2 by lia. cbn [firstn]. rewrite app_nil_r.
    unfold sub, content. rewrite skipn_firstn_comm, firstn_firstn.
    f_equal. unfold n. lia.
Qed.

(** X13. [str_substr] on a buffer that satisfies the invariants returns;
    the result is null when [start] is not below the length (so always
    for an empty buffer), and then nothing was requested of the
    allocator, or when the allocator refuses the one request; otherwise
    ([start] below the length and the request granted) it is a new buffer
    that satisfies the invariants and holds the [len] bytes of the
    content from [start] on, or as many as there are. *)
Theorem str_substr_copies s start len h :
  wf s -> 0 <= start -> 0 <= len ->
  exists r h',
    str_substr (Some s) start len h = Returns (r, h') /\
    match r with
    | None =>
        length s <= start /\ h' = h \/
        start < length s /\ fst (next_request h) = false /\
        h' = snd (next_request h)
    | Some r0 =>
        fst (next_request h) = true /\ h' = snd (next_request h) /\
        start < length s /\ wf r0 /\ capacity_ok r0 /\
        length r0 = Z.min len (length s - start) /\
        content r0 = firstn (Z.to_nat len) (skipn (Z.to_nat start) (content s))
    end.
Proof.
  intros W Hs Hl.
  destruct (Z.geb_spec start (length s)) as [Hge | Hlt].
  { exists None, h. unfold str_substr.
    destruct (Z.geb_spec start (length s)); [|lia]. split; [reflexivity|].
    left. split; [lia|reflexivity]. }
  assert (Wc : length s < size_half) by (destruct W as (? & ? & ? & ?); lia).
  set (n := MIN len (wrap (length s - start))).
  assert (Hn : 0 <= n <= length s - start)
    by (unfold n; rewrite wrap_small by sizes; rewrite MIN_min; lia).
  destruct (str_new_total (wrap (n + 1)) h) as (r0 & h1 & E & Hr).
  { rewrite wrap_small by sizes. lia. }
  assert (Hshape : str_substr (Some s) start len h =
            Returns (match r0 with
                     | Some r0 =>
                         Some {| length := n; capacity := capacity r0;
                                 data := poke (memcpy (data r0) 0
                                                 (at_off (data s) start) n) n NUL |}
                     | None => None
                     end, h1)).
  { unfold str_substr. destruct (Z.geb_spec start (length s)); [lia|].
    fold n. unfold bind. rewrite E. reflexivity. }
  pose proof (str_new_heap _ _ _ _ E) as Hh.
  destruct r0 as [r0|].
  - eexists _, h1. split; [exact Hshape|].
    destruct (str_new_spec _ _ _ _ E) as (_ & _ & _ & _ & _ & _ & G & _).
    split; [exact G|]. split; [exact Hh|].
    apply (str_substr_spec s start len h _ h1); assumption.
  - exists None, h1. split; [exact Hshape|]. right.
    split; [exact Hlt|]. split; [now apply Hr|exact Hh].
Qed.

Lemma str_substr_copies_witness :
  exists r h',
    str_substr (Some hello_world) 6 100 generous = Returns (r, h') /\
    match r with
    | None =>
        length hello_world <= 6 /\ h' = generous \/
        6 < length hello_world /\ fst (next_request generous) = false /\
        h' = snd (next_request generous)
    | Some r0 =>
        fst (next_request generous) = true /\ h' = snd (next_request generous) /\
        6 < length hello_world /\ wf r0 /\ capacity_ok r0 /\
        length r0 = Z.min 100 (length hello_world - 6) /\
        content r0 = firstn (Z.to_nat 100) (skipn (Z.to_nat 6) (content hello_world))
    end.
Proof.
  apply (str_substr_copies hello_world 6 100 generous).
  - unfold wf, terminated. cbn [length capacity data hello_world].
    repeat split; try (vm_compute; congruence).
  - lia.
  - lia.
Defined.

Lemma to_int_small z : - 2147483648 <= z < 2147483648 -> to_int z = z.
Proof. intros H. unfold to_int. rewrite Z.mod_small; lia. Qed.





(** ** Formatting with a conforming [vsnprintf] *)

Lemma splice_same (d : list ascii) : forall i c,
  (i < List.length d)%nat -> nth i d NUL = c -> splice d i [c] = d.
Proof.
  unfold splice. induction d as [|x d IH]; intros i c Hi Hc; cbn [List.length] in *.
  - lia.
  - destruct i as [|i]; cbn [firstn skipn app nth Nat.add List.length] in *.
    + now subst.
    + f_equal. rewrite <- (IH i c) at 3 by (assumption || lia).
      cbn [List.length]. reflexivity.
Qed.

Lemma poke_same d i c : 0 <= i < sizeof d -> peek d i = c -> poke d i c = d.
Proof. intros Hi Hc. unfold poke. apply splice_same; [lia|exact Hc]. Qed.

Lemma vsnprintf_text_fits t n :
  strlen t < n ->
  vsnprintf_text t n = {| fmt_ret := strlen t; fmt_out := c_str t ++ [NUL] |}.
Proof.
  intros H. pose proof (strlen_nonneg t). unfold vsnprintf_text.
  destruct (Z.leb_spec n 0); [lia|].
  rewrite firstn_all2 by (unfold strlen in *; lia). reflexivity.
Qed.

(** X15. With a [vsnprintf] that behaves as the C standard prescribes and
    formats to a text of fewer than [INT_MAX] bytes, the formatted
    operations do what the plain ones do with that text: [str_format] is
    [str_from] and, on a buffer that satisfies the invariants,
    [str_append_fmt] is [str_append]. *)
Theorem formatted_operations_agree t s h :
  strlen t < 2147483647 -> wf s -> length s + strlen t + 1 <= size_half ->
  str_format (vsnprintf_text t) h = str_from (Some t) h /\
  str_append_fmt (vsnprintf_text t) (Some s) h = str_append (Some s) (Some t) h.
Proof.
  intros Ht W Hfit. pose proof (strlen_nonneg t) as Hn. split.
  - unfold str_format, str_from.
    change (fmt_ret (vsnprintf_text t 0)) with (strlen t).
    destruct (Z.ltb_spec (strlen t) 0); [lia|].
    rewrite to_int_small by lia.
    unfold bind. destruct (str_new (wrap (strlen t + 1)) h) as [[[s0|] h1]| |] eqn:E;
      try reflexivity.
    destruct (str_new_spec _ _ _ _ E) as (W0 & _ & _ & _ & Hm & _).
    rewrite wrap_small in * by sizes.
    assert (Hcap : strlen t + 1 <= capacity s0)
      by (unfold MAX in Hm; destruct (Z.gtb_spec (strlen t + 1) 1); lia).
    rewrite vsnprintf_text_fits by lia. cbn [fmt_ret fmt_out].
    destruct (Z.ltb_spec (strlen t) 0); [lia|].
    destruct (Z.geb_spec (strlen t) (capacity s0)); [lia|]. cbn [orb].
    unfold store_pass. cbn [fmt_out].
    rewrite (wrap_small (strlen t + 1)) by sizes.
    rewrite memcpy_c_bytes_all. reflexivity.
  - unfold str_append_fmt, str_append.
    change (fmt_ret (vsnprintf_text t 0)) with (strlen t).
    destruct (Z.ltb_spec (strlen t) 0); [lia|].
    destruct (str_ensure_capacity_total s (wrap (length s + strlen t + 1)) h)
      as (ok & r & h1 & E).
    { destruct W as (? & _). rewrite wrap_small by sizes. lia. }
    unfold bind. rewrite E.
    destruct (str_ensure_capacity_spec _ _ _ _ _ _ W E)
      as [[-> ->] | (-> & s1 & -> & W1 & L1 & C1 & _)]; [reflexivity|].
    destruct W as (Wl & _). split_wf W1. rewrite wrap_small in C1 by sizes.
    rewrite vsnprintf_text_fits by lia. cbn [fmt_ret fmt_out].
    destruct (Z.ltb_spec (strlen t) 0); [lia|].
    destruct (Z.geb_spec (strlen t) (strlen t)); [|lia]. cbn [orb].
    unfold store_pass. cbn [fmt_out].
    rewrite !wrap_small by sizes. rewrite memcpy_c_bytes_all.
    rewrite poke_same; [reflexivity| |].
    + rewrite splice_length;
        rewrite ?List.length_app; cbn [List.length]; unfold strlen in *; lia.
    + unfold peek. rewrite nth_splice_in
        by (rewrite ?List.length_app; cbn [List.length]; unfold strlen in *; lia).
      unfold strlen.
      replace (Z.to_nat (length s1 + sizeof (c_str t)) - Z.to_nat (length s1))%nat
        with (List.length (c_str t)) by lia.
      rewrite app_nth2 by lia. now rewrite Nat.sub_diag.
Qed.

Lemma formatted_operations_agree_witness :
  str_format (vsnprintf_text (lit "x=1")) generous = str_from (Some (lit "x=1")) generous /\
  str_append_fmt (vsnprintf_text (lit "x=1")) (Some hello) generous
  = str_append (Some hello) (Some (lit "x=1")) generous.
Proof.
  apply (formatted_operations_agree (lit "x=1") hello generous).
  - vm_compute. reflexivity.
  - exact wf_hello.
  - vm_compute. discriminate.
Defined.

(** ** The content after a transformation in place *)

(** Two contents of the same length are equal when they agree byte by
    byte. *)
Lemma content_ext s s' (f : Z -> ascii) :
  0 <= length s <= sizeof (data s) -> length s' = length s ->
  sizeof (data s') = sizeof (data s) ->
  (forall j, 0 <= j < length s -> peek (data s') j = peek (data s) j) ->
  content s' = content s.
Proof.
  intros Hl L D H. unfold content. rewrite L.
  apply nth_ext with (d := NUL) (d' := NUL).
  - rewrite !List.length_firstn. lia.
  - intros n Hn. rewrite List.length_firstn in Hn.
    rewrite !nth_firstn. destruct (Nat.ltb_spec n (Z.to_nat (length s))); [|reflexivity].
    specialize (H (Z.of_nat n)). unfold peek in H. rewrite Nat2Z.id in H.
    apply H. lia.
Qed.

Lemma content_pointwise s (l : list ascii) :
  0 <= length s <= sizeof (data s) -> sizeof l = length s ->
  (forall j, 0 <= j < length s -> peek (data s) j = nth (Z.to_nat j) l NUL) ->
  content s = l.
Proof.
  intros Hl L H. unfold content.
  apply nth_ext with (d := NUL) (d' := NUL).
  - rewrite List.length_firstn. lia.
  - intros n Hn. rewrite List.length_firstn in Hn.
    rewrite nth_firstn. destruct (Nat.ltb_spec n (Z.to_nat (length s))); [|lia].
    specialize (H (Z.of_nat n)). unfold peek in H. rewrite Nat2Z.id in H.
    apply H. lia.
Qed.

Lemma peek_content s j :
  0 <= j < length s -> peek (data s) j = nth (Z.to_nat j) (content s) NUL.
Proof.
  intros H. unfold content, peek. rewrite nth_firstn.
  destruct (Nat.ltb_spec (Z.to_nat j) (Z.to_nat (length s))); [reflexivity|lia].
Qed.

Lemma str_to_lower_loop_peek n : forall d len i j,
  0 <= i -> 0 <= len < sizeof d -> sizeof d <= size_half ->
  (Z.to_nat (len - i) <= n)%nat -> 0 <= j ->
  peek (str_to_lower_loop n d len i) j =
  if (i <=? j) && (j <? len) then tolower (peek d j) else peek d j.
Proof.
  induction n as [|n IH]; intros d len i j Hi Hl Hd Hn Hj;
    cbn [str_to_lower_loop].
  - destruct (Z.leb_spec i j), (Z.ltb_spec j len); cbn [andb]; try reflexivity; lia.
  - destruct (Z.ltb_spec i len) as [Hlt | Hge].
    + rewrite wrap_small by sizes.
      rewrite IH; try rewrite poke_length; try lia.
      destruct (Z.eq_dec j i) as [-> | Hne].
      * rewrite peek_poke_same by lia.
        destruct (Z.leb_spec (i + 1) i), (Z.leb_spec i i), (Z.ltb_spec i len);
          cbn [andb]; try reflexivity; lia.
      * rewrite peek_poke_other by lia.
        destruct (Z.leb_spec (i + 1) j), (Z.leb_spec i j), (Z.ltb_spec j len);
          cbn [andb]; try reflexivity; lia.
    + destruct (Z.leb_spec i j), (Z.ltb_spec j len); cbn [andb]; try reflexivity; lia.
Qed.

Lemma str_to_upper_loop_peek n : forall d len i j,
  0 <= i -> 0 <= len < sizeof d -> sizeof d <= size_half ->
  (Z.to_nat (len - i) <= n)%nat -> 0 <= j ->
  peek (str_to_upper_loop n d len i) j =
  if (i <=? j) && (j <? len) then toupper (peek d j) else peek d j.
Proof.
  induction n as [|n IH]; intros d len i j Hi Hl Hd Hn Hj;
    cbn [str_to_upper_loop].
  - destruct (Z.leb_spec i j), (Z.ltb_spec j len); cbn [andb]; try reflexivity; lia.
  - destruct (Z.ltb_spec i len) as [Hlt | Hge].
    + rewrite wrap_small by sizes.
      rewrite IH; try rewrite poke_length; try lia.
      destruct (Z.eq_dec j i) as [-> | Hne].
      * rewrite peek_poke_same by lia.
        destruct (Z.leb_spec (i + 1) i), (Z.leb_spec i i), (Z.ltb_spec i len);
          cbn [andb]; try reflexivity; lia.
      * rewrite peek_poke_other by lia.
        destruct (Z.leb_spec (i + 1) j), (Z.leb_spec i j), (Z.ltb_spec j len);
          cbn [andb]; try reflexivity; lia.
    + destruct (Z.leb_spec i j), (Z.ltb_spec j len); cbn [andb]; try reflexivity; lia.
Qed.

Lemma str_to_lower_content s s' :
  wf s -> str_to_lower (Some s) = Some s' ->
  length s' = length s /\ capacity s' = capacity s /\
  content s' = map tolower (content s).
Proof.
  intros W H. pose proof (str_to_lower_wf s s' W H) as W'.
  pose proof (content_length_wf s W) as Hcl.
  injection H as <-. split; [reflexivity|]. split; [reflexivity|].
  split_wf W. split_wf W'. cbn [set_data length capacity data] in *.
  apply content_pointwise; cbn [set_data length data].
  - lia.
  - rewrite List.length_map. exact Hcl.
  - intros j Hj. rewrite str_to_lower_loop_peek by lia.
    destruct (Z.leb_spec 0 j), (Z.ltb_spec j (length s)); cbn [andb]; try lia.
    replace (nth (Z.to_nat j) (map tolower (content s)) NUL)
      with (tolower (nth (Z.to_nat j) (content s) NUL))
      by (symmetry; exact (map_nth tolower (content s) NUL (Z.to_nat j))).
    f_equal. now apply peek_content.
Qed.

Lemma str_to_upper_content s s' :
  wf s -> str_to_upper (Some s) = Some s' ->
  length s' = length s /\ capacity s' = capacity s /\
  content s' = map toupper (content s).
Proof.
  intros W H. pose proof (str_to_upper_wf s s' W H) as W'.
  pose proof (content_length_wf s W) as Hcl.
  injection H as <-. split; [reflexivity|]. split; [reflexivity|].
  split_wf W. split_wf W'. cbn [set_data length capacity data] in *.
  apply content_pointwise; cbn [set_data length data].
  - lia.
  - rewrite List.length_map. exact Hcl.
  - intros j Hj. rewrite str_to_upper_loop_peek by lia.
    destruct (Z.leb_spec 0 j), (Z.ltb_spec j (length s)); cbn [andb]; try lia.
    replace (nth (Z.to_nat j) (map toupper (content s)) NUL)
      with (toupper (nth (Z.to_nat j) (content s) NUL))
      by (symmetry; exact (map_nth toupper (content s) NUL (Z.to_nat j))).
    f_equal. now apply peek_content.
Qed.

(** X16. [str_to_lower] and [str_to_upper] map the content byte by byte
    through [tolower] and [toupper]; length and capacity stay and the
    invariants are kept. *)
Theorem case_mapping_maps_content s :
  wf s ->
  exists l u,
    str_to_lower (Some s) = Some l /\ str_to_upper (Some s) = Some u /\
    wf l /\ wf u /\
    length l = length s /\ length u = length s /\
    capacity l = capacity s /\ capacity u = capacity s /\
    content l = map tolower (content s) /\
    content u = map toupper (content s).
Proof.
  intros W.
  assert (Hl : exists l, str_to_lower (Some s) = Some l) by (eexists; reflexivity).
  assert (Hu : exists u, str_to_upper (Some s) = Some u) by (eexists; reflexivity).
  destruct Hl as (l & Hl), Hu as (u & Hu). exists l, u.
  destruct (str_to_lower_content s l W Hl) as (L1 & K1 & C1).
  destruct (str_to_upper_content s u W Hu) as (L2 & K2 & C2).
  pose proof (str_to_lower_wf s l W Hl). pose proof (str_to_upper_wf s u W Hu).
  repeat (split; [assumption|]). assumption.
Qed.

Lemma case_mapping_maps_content_witness :
  exists l u,
    str_to_lower (Some hello) = Some l /\ str_to_upper (Some hello) = Some u /\
    wf l /\ wf u /\
    length l = length hello /\ length u = length hello /\
    capacity l = capacity hello /\ capacity u = capacity hello /\
    content l = map tolower (content hello) /\
    content u = map toupper (content hello).
Proof. apply (case_mapping_maps_content hello). exact wf_hello. Defined.

(** ** Reversal *)

Lemma str_reverse_in_place_loop_peek n : forall d start e j,
  0 <= start -> e < sizeof d -> (Z.to_nat (e - start) <= n)%nat -> 0 <= j ->
  peek (str_reverse_in_place_loop n d start e) j =
  if (start <=? j) && (j <=? e) then peek d (start + e - j) else peek d j.
Proof.
  induction n as [|n IH]; intros d start e j Hs He Hn Hj;
    cbn [str_reverse_in_place_loop].
  - destruct (Z.leb_spec start j), (Z.leb_spec j e); cbn [andb]; try reflexivity.
    f_equal. lia.
  - destruct (Z.ltb_spec start e) as [Hlt | Hge].
    + set (d1 := poke d start (peek d e)).
      assert (H1 : sizeof d1 = sizeof d) by (apply poke_length; lia).
      set (d2 := poke d1 e (peek d start)).
      assert (H2 : sizeof d2 = sizeof d) by (unfold d2; rewrite poke_length; lia).
      assert (Hd2 : forall k, 0 <= k ->
                peek d2 k = if k =? e then peek d start
                            else if k =? start then peek d e else peek d k).
      { intros k Hk. unfold d2.
        destruct (Z.eqb_spec k e) as [-> | Hke]; [apply peek_poke_same; lia|].
        rewrite peek_poke_other by lia. unfold d1.
        destruct (Z.eqb_spec k start) as [-> | Hks]; [apply peek_poke_same; lia|].
        apply peek_poke_other; lia. }
      rewrite IH by lia.
      destruct (Z.leb_spec (start + 1) j), (Z.leb_spec j (e - 1)),
               (Z.leb_spec start j), (Z.leb_spec j e); cbn [andb]; try lia;
        rewrite Hd2 by lia;
        repeat match goal with
               | |- context [?a =? ?b] => destruct (Z.eqb_spec a b); try lia
               end;
        try reflexivity; f_equal; lia.
    + destruct (Z.leb_spec start j), (Z.leb_spec j e); cbn [andb]; try reflexivity.
      f_equal. lia.
Qed.

Lemma rev_short (l : list ascii) : (List.length l < 2)%nat -> rev l = l.
Proof.
  destruct l as [|a [|b l]]; cbn [List.length]; intros H; try reflexivity. lia.
Qed.

Lemma str_reverse_in_place_content s s' :
  wf s -> str_reverse_in_place (Some s) = Some s' ->
  length s' = length s /\ capacity s' = capacity s /\
  content s' = rev (content s).
Proof.
  intros W H. pose proof (str_reverse_in_place_wf s s' W H) as W'.
  pose proof (content_length_wf s W) as Hcl.
  unfold str_reverse_in_place in H.
  destruct (Z.ltb_spec (length s) 2) as [Hlt | Hge].
  - injection H as <-. repeat split. symmetry. apply rev_short. lia.
  - injection H as <-. split; [reflexivity|]. split; [reflexivity|].
    split_wf W. split_wf W'. cbn [set_data length capacity data] in *.
    apply content_pointwise; cbn [set_data length data].
    + lia.
    + rewrite List.length_rev. exact Hcl.
    + intros j Hj. rewrite str_reverse_in_place_loop_peek by lia.
      destruct (Z.leb_spec 0 j), (Z.leb_spec j (length s - 1)); cbn [andb]; try lia.
      rewrite rev_nth by lia. rewrite peek_content by lia. f_equal. lia.
Qed.

(** X17. [str_reverse_in_place] reverses the content and keeps length,
    capacity and invariants; applied twice it gives the content back. *)
Theorem str_reverse_in_place_reverses s :
  wf s ->
  exists s1 s2,
    str_reverse_in_place (Some s) = Some s1 /\
    str_reverse_in_place (Some s1) = Some s2 /\
    wf s1 /\ length s1 = length s /\ capacity s1 = capacity s /\
    content s1 = rev (content s) /\
    length s2 = length s /\ content s2 = content s.
Proof.
  intros W.
  assert (H1 : exists s1, str_reverse_in_place (Some s) = Some s1)
    by (unfold str_reverse_in_place; destruct (length s <? 2); eexists; reflexivity).
  destruct H1 as (s1 & H1).
  assert (H2 : exists s2, str_reverse_in_place (Some s1) = Some s2)
    by (unfold str_reverse_in_place; destruct (length s1 <? 2); eexists; reflexivity).
  destruct H2 as (s2 & H2). exists s1, s2.
  pose proof (str_reverse_in_place_wf s s1 W H1) as W1.
  destruct (str_reverse_in_place_content s s1 W H1) as (L1 & K1 & C1).
  destruct (str_reverse_in_place_content s1 s2 W1 H2) as (L2 & K2 & C2).
  repeat (split; [assumption|]). split; [congruence|].
  rewrite C2, C1. apply rev_involutive.
Qed.

Lemma str_reverse_in_place_reverses_witness :
  exists s1 s2,
    str_reverse_in_place (Some hello) = Some s1 /\
    str_reverse_in_place (Some s1) = Some s2 /\
    wf s1 /\ length s1 = length hello /\ capacity s1 = capacity hello /\
    content s1 = rev (content hello) /\
    length s2 = length hello /\ content s2 = content hello.
Proof. apply (str_reverse_in_place_reverses hello). exact wf_hello. Defined.

Lemma str_reverse_loop_spec n : forall d src rd dest,
  0 <= dest -> dest + Z.of_nat n <= sizeof rd ->
  sizeof (fst (str_reverse_loop n d src rd dest)) = sizeof rd /\
  snd (str_reverse_loop n d src rd dest) = dest + Z.of_nat n /\
  forall j, 0 <= j ->
    peek (fst (str_reverse_loop n d src rd dest)) j =
    if (dest <=? j) && (j <? dest + Z.of_nat n)
    then peek d (src - (j - dest)) else peek rd j.
Proof.
  induction n as [|n IH]; intros d src rd dest Hd Hn; cbn [str_reverse_loop fst snd].
  - split; [reflexivity|]. split; [lia|]. intros j Hj.
    destruct (Z.leb_spec dest j), (Z.ltb_spec j (dest + Z.of_nat 0));
      cbn [andb]; try reflexivity; lia.
  - assert (Hp : sizeof (poke rd dest (peek d src)) = sizeof rd)
      by (apply poke_length; lia).
    destruct (IH d (src - 1) (poke rd dest (peek d src)) (dest + 1)) as (A & B & C);
      try lia.
    split; [lia|]. split; [lia|]. intros j Hj. rewrite C by lia.
    destruct (Z.eq_dec j dest) as [-> | Hne].
    + rewrite peek_poke_same by lia.
      destruct (Z.leb_spec (dest + 1) dest), (Z.leb_spec dest dest),
               (Z.ltb_spec dest (dest + Z.of_nat (S n))); cbn [andb]; try lia.
      f_equal. lia.
    + rewrite peek_poke_other by lia.
      destruct (Z.leb_spec (dest + 1) j), (Z.leb_spec dest j),
               (Z.ltb_spec j (dest + 1 + Z.of_nat n)),
               (Z.ltb_spec j (dest + Z.of_nat (S n))); cbn [andb]; try lia;
        try reflexivity.
      f_equal. lia.
Qed.

Lemma str_reverse_spec s h r h' :
  wf s -> str_reverse (Some s) h = Returns (Some r, h') ->
  0 < length s /\ length r = length s /\ capacity r = length s + 1 /\
  sizeof (data r) = capacity r /\ peek (data r) (length r) = NUL /\
  content r = rev (content s).
Proof.
  intros W H. pose proof (content_length_wf s W) as Hcl. split_wf W.
  unfold str_reverse in H.
  destruct (Z.eqb_spec (length s) 0) as [H0 | H0]; [discriminate|].
  unfold bind, malloc in H. destruct (next_request h) as [ok h1].
  destruct ok; unfold ret in H; [|discriminate].
  rewrite wrap_small in H by sizes.
  set (block := repeat (junk h) (Z.to_nat (length s + 1))) in *.
  assert (Hb : sizeof block = length s + 1)
    by (unfold block; rewrite repeat_length; lia).
  destruct (str_reverse_loop_spec (Z.to_nat (length s)) (data s) (length s - 1) block 0)
    as (A & B & C); try lia.
  destruct (str_reverse_loop _ _ _ _ _) as [rd dest]. cbn [fst snd] in *.
  injection H as <- <-. cbn [length capacity data].
  rewrite B. replace (0 + Z.of_nat (Z.to_nat (length s))) with (length s) in * by lia.
  split; [lia|]. split; [reflexivity|]. split; [reflexivity|].
  split; [rewrite poke_length; lia|]. split; [apply peek_poke_same; lia|].
  apply content_pointwise; cbn [length data].
  - rewrite poke_length; lia.
  - rewrite List.length_rev. exact Hcl.
  - intros j Hj. rewrite peek_poke_other by lia. rewrite C by lia.
    destruct (Z.leb_spec 0 j), (Z.ltb_spec j (length s)); cbn [andb]; try lia.
    rewrite rev_nth by lia. rewrite peek_content by lia. f_equal. lia.
Qed.

(** X18. [str_reverse] on a buffer that satisfies the invariants returns
    null for an empty buffer, and then nothing was requested of the
    allocator, and when the allocator refuses the one request; otherwise
    (the buffer not empty and the request granted) a new terminated
    buffer of the same length whose content is the content reversed, in
    a block of exactly [length + 1] bytes. *)
Theorem str_reverse_reverses s h :
  wf s ->
  exists r h',
    str_reverse (Some s) h = Returns (r, h') /\
    match r with
    | None =>
        length s = 0 /\ h' = h \/
        0 < length s /\ fst (next_request h) = false /\ h' = snd (next_request h)
    | Some r0 =>
        fst (next_request h) = true /\ h' = snd (next_request h) /\
        0 < length s /\ length r0 = length s /\ capacity r0 = length s + 1 /\
        sizeof (data r0) = capacity r0 /\ peek (data r0) (length r0) = NUL /\
        content r0 = rev (content s)
    end.
Proof.
  intros W. assert (Wl : 0 <= length s) by (destruct W; lia).
  assert (Hrun : exists r h', str_reverse (Some s) h = Returns (r, h') /\
            match r with
            | None =>
                length s = 0 /\ h' = h \/
                0 < length s /\ fst (next_request h) = false /\
                h' = snd (next_request h)
            | Some _ => fst (next_request h) = true /\ h' = snd (next_request h)
            end).
  { unfold str_reverse. destruct (Z.eqb_spec (length s) 0) as [H0 | H0].
    - exists None, h. split; [reflexivity|]. left. now split.
    - unfold bind, malloc. destruct (next_request h) as [ok h1].
      destruct ok; unfold ret.
      + destruct (str_reverse_loop _ _ _ _ _). eexists (Some _), h1.
        split; [reflexivity|]. now split.
      + exists None, h1. split; [reflexivity|]. right.
        split; [lia|]. now split. }
  destruct Hrun as (r & h' & Hrun & Hcase). exists r, h'. split; [exact Hrun|].
  destruct r as [r0|]; [|exact Hcase].
  destruct Hcase as (G & Hh). split; [exact G|]. split; [exact Hh|].
  now apply (str_reverse_spec s h r0 h').
Qed.

Lemma str_reverse_reverses_witness :
  exists r h',
    str_reverse (Some hello) generous = Returns (r, h') /\
    match r with
    | None =>
        length hello = 0 /\ h' = generous \/
        0 < length hello /\ fst (next_request generous) = false /\
        h' = snd (next_request generous)
    | Some r0 =>
        fst (next_request generous) = true /\ h' = snd (next_request generous) /\
        0 < length hello /\ length r0 = length hello /\
        capacity r0 = length hello + 1 /\
        sizeof (data r0) = capacity r0 /\ peek (data r0) (length r0) = NUL /\
        content r0 = rev (content hello)
    end.
Proof. apply (str_reverse_reverses hello generous). exact wf_hello. Defined.

(** ** The margins the trims remove *)

Lemma skip_leading_spaces n : forall d len start j,
  0 <= start <= len -> len < size_half ->
  start <= j < skip_leading n d len start -> isspace (peek d j) = true.
Proof.
  induction n as [|n IH]; intros d len start j Hs Hl Hj; cbn [skip_leading] in Hj;
    [lia|].
  destruct (Z.ltb_spec start len) as [Hlt | Hge]; cbn [andb] in Hj; [|lia].
  destruct (isspace (peek d start)) eqn:E; [|lia].
  rewrite wrap_small in Hj by sizes.
  destruct (Z.eq_dec j start) as [-> | Hne]; [exact E|].
  apply (IH d len (start + 1)); lia.
Qed.

Lemma skip_trailing_spaces n : forall d start e j,
  0 <= start -> 0 <= e < size_half ->
  skip_trailing n d start e < j <= e -> isspace (peek d j) = true.
Proof.
  induction n as [|n IH]; intros d start e j Hs He Hj; cbn [skip_trailing] in Hj;
    [lia|].
  destruct (Z.gtb_spec e start) as [Hgt | Hle]; cbn [andb] in Hj; [|lia].
  destruct (isspace (peek d e)) eqn:E; [|lia].
  rewrite wrap_small in Hj by sizes.
  destruct (Z.eq_dec j e) as [-> | Hne]; [exact E|].
  apply (IH d start (e - 1)); lia.
Qed.

(** The bytes of a block from [a] up to [b]. *)
Lemma Forall_slice (P : ascii -> Prop) d a b :
  0 <= a -> (forall j, a <= j < b -> P (peek d j)) ->
  Forall P (firstn (Z.to_nat (b - a)) (skipn (Z.to_nat a) d)).
Proof.
  intros Ha H. apply Forall_nth. intros i x Hi.
  rewrite List.length_firstn in Hi.
  rewrite (nth_indep _ x NUL) by (rewrite List.length_firstn; lia).
  rewrite nth_firstn. destruct (Nat.ltb_spec i (Z.to_nat (b - a))); [|lia].
  rewrite nth_skipn. specialize (H (a + Z.of_nat i)). unfold peek in H.
  replace (Z.to_nat (a + Z.of_nat i)) with (Z.to_nat a + i)%nat in H by lia.
  apply H. lia.
Qed.

Lemma content_slices s a b :
  0 <= a <= b -> b <= length s ->
  content s = firstn (Z.to_nat a) (data s)
              ++ firstn (Z.to_nat (b - a)) (skipn (Z.to_nat a) (data s))
              ++ firstn (Z.to_nat (length s - b)) (skipn (Z.to_nat b) (data s)).
Proof.
  intros Ha Hb. unfold content.
  replace (Z.to_nat (length s)) with (Z.to_nat a + Z.to_nat (length s - a))%nat by lia.
  rewrite firstn_add. f_equal.
  replace (Z.to_nat (length s - a)) with (Z.to_nat (b - a) + Z.to_nat (length s - b))%nat
    by lia.
  rewrite firstn_add. f_equal. rewrite skipn_skipn. do 2 f_equal. lia.
Qed.

Lemma moved_to_front d from n :
  0 <= from -> 0 <= n -> from + n <= sizeof d ->
  firstn (Z.to_nat n) (poke (memmove d 0 from n) n NUL)
  = firstn (Z.to_nat n) (skipn (Z.to_nat from) d).
Proof.
  intros Hf Hn Hd.
  assert (Hm : sizeof (memmove d 0 from n) = sizeof d) by (apply memmove_length; lia).
  unfold poke. rewrite firstn_splice_le by lia.
  rewrite memmove_as_splice. cbn [Z.to_nat].
  set (sub := firstn (Z.to_nat n) (skipn (Z.to_nat from) d)).
  assert (Hs : List.length sub = Z.to_nat n)
    by (unfold sub; rewrite List.length_firstn, List.length_skipn; lia).
  rewrite firstn_splice by lia. cbn [Nat.min firstn app]. rewrite Nat.min_0_r.
  cbn [firstn app]. rewrite Nat.sub_0_r, Hs, Nat.sub_diag. cbn [firstn].
  rewrite app_nil_r. apply firstn_all2. lia.
Qed.

(** X19. [str_trim] removes a margin of whitespace on either side: the
    content before the call is a run of whitespace bytes, the content
    after the call, and a run of whitespace bytes. What is left neither
    starts nor ends with a whitespace byte; the invariants and the
    capacity are kept. *)
Theorem str_trim_strips_margins s :
  wf s ->
  exists s' pre post,
    str_trim (Some s) = Some s' /\ wf s' /\ capacity s' = capacity s /\
    content s = pre ++ content s' ++ post /\
    Forall (fun c => isspace c = true) pre /\
    Forall (fun c => isspace c = true) post /\
    isspace (peek (data s') 0) = false /\
    (length s' = 0 \/ isspace (peek (data s') (length s' - 1)) = false).
Proof.
  intros W.
  assert (Hrun : exists s', str_trim (Some s) = Some s')
    by (unfold str_trim; destruct (length s =? 0); eexists; reflexivity).
  destruct Hrun as (s' & Hrun). exists s'.
  pose proof (str_trim_wf s s' W Hrun) as W'. pose proof Hrun as Hrun0.
  unfold str_trim in Hrun.
  destruct (Z.eqb_spec (length s) 0) as [Hz | Hnz].
  { injection Hrun as <-. exists [], [].
    assert (Wt : peek (data s) 0 = NUL)
      by (destruct W as (_ & _ & _ & Wt); unfold terminated in Wt; now rewrite Hz in Wt).
    unfold content. rewrite Hz, Wt. cbn [Z.to_nat firstn app].
    split; [exact Hrun0|]. split; [exact W|]. split; [reflexivity|].
    split; [reflexivity|]. split; [constructor|]. split; [constructor|].
    split; [reflexivity|now left]. }
  split_wf W. rewrite (wrap_small (length s - 1)) in Hrun by sizes.
  pose proof (skip_leading_range (Z.to_nat (length s)) (data s) (length s) 0) as Hs.
  pose proof (skip_leading_stops (Z.to_nat (length s)) (data s) (length s) 0) as Hs'.
  pose proof (skip_leading_spaces (Z.to_nat (length s)) (data s) (length s) 0) as Hsp.
  set (start := skip_leading _ _ _ _) in *.
  pose proof (skip_trailing_range (Z.to_nat (length s)) (data s) start (length s - 1)) as He.
  pose proof (skip_trailing_stops (Z.to_nat (length s)) (data s) start (length s - 1)) as He'.
  pose proof (skip_trailing_spaces (Z.to_nat (length s)) (data s) start (length s - 1)) as Hep.
  set (e := skip_trailing _ _ _ _) in *.
  assert (Hlen : 0 <= e - start + 1 <= length s /\ e + 1 <= length s /\ 0 <= start) by lia.
  rewrite !wrap_small in Hrun by sizes. injection Hrun as <-.
  cbn [length capacity data] in *.
  assert (Hm : sizeof (memmove (data s) 0 start (e - start + 1)) = sizeof (data s))
    by (apply memmove_length; lia).
  assert (Hs2 : start = length s \/ isspace (peek (data s) start) = false)
    by (apply Hs'; sizes).
  assert (He2 : e <= start \/ isspace (peek (data s) e) = false)
    by (apply He'; sizes).
  exists (firstn (Z.to_nat start) (data s)),
         (firstn (Z.to_nat (length s - (e + 1))) (skipn (Z.to_nat (e + 1)) (data s))).
  split; [exact Hrun0|]. split; [exact W'|]. split; [reflexivity|].
  split; [|split; [|split; [|split]]].
  - unfold content at 2. cbn [length data]. rewrite moved_to_front by lia.
    rewrite (content_slices s start (e + 1)) by lia.
    do 3 f_equal. lia.
  - replace (Z.to_nat start) with (Z.to_nat (start - 0)) by lia.
    apply (Forall_slice _ (data s) 0 start); [lia|].
    intros j Hj. apply Hsp; sizes.
  - apply (Forall_slice _ (data s) (e + 1) (length s)); [lia|].
    intros j Hj. apply Hep; sizes.
  - destruct (Z.eq_dec (e - start + 1) 0) as [H0 | H0].
    + rewrite H0 in Hm |- *. rewrite peek_poke_same by lia. reflexivity.
    + rewrite peek_poke_other by lia. rewrite peek_memmove_in by lia.
      replace (start + (0 - 0)) with start by ring.
      destruct Hs2 as [Hs2 | Hs2]; [lia|exact Hs2].
  - destruct (Z.eq_dec (e - start + 1) 0) as [H0 | H0]; [now left|right].
    rewrite peek_poke_other by lia. rewrite peek_memmove_in by lia.
    replace (start + (e - start + 1 - 1 - 0)) with e by ring.
    destruct He2 as [He2 | He2]; [|exact He2].
    assert (Hes : e = start) by lia. rewrite Hes.
    destruct Hs2 as [Hs2 | Hs2]; [lia|exact Hs2].
Qed.

Lemma str_trim_strips_margins_witness :
  exists s' pre post,
    str_trim (Some blank) = Some s' /\ wf s' /\ capacity s' = capacity blank /\
    content blank = pre ++ content s' ++ post /\
    Forall (fun c => isspace c = true) pre /\
    Forall (fun c => isspace c = true) post /\
    isspace (peek (data s') 0) = false /\
    (length s' = 0 \/ isspace (peek (data s') (length s' - 1)) = false).
Proof.
  apply (str_trim_strips_margins blank).
  unfold wf, terminated. cbn [length capacity data blank].
  repeat split; try (vm_compute; congruence).
Defined.

(** X20. [str_ltrim] removes the whitespace at the front: the content
    before the call is a run of whitespace bytes followed by the content
    after it, which does not start with a whitespace byte. [str_rtrim]
    removes whitespace at the back, but never the byte at index 0: the
    content before the call is the content after it followed by a run of
    whitespace bytes, a buffer that was not empty stays not empty, and
    what is left is one byte long or does not end with a whitespace
    byte. *)
Theorem one_sided_trims_strip s :
  wf s ->
  exists l r pre post,
    str_ltrim (Some s) = Some l /\ str_rtrim (Some s) = Some r /\
    wf l /\ wf r /\
    content s = pre ++ content l /\ content s = content r ++ post /\
    Forall (fun c => isspace c = true) pre /\
    Forall (fun c => isspace c = true) post /\
    isspace (peek (data l) 0) = false /\
    (0 < length s -> 0 < length r) /\
    (length r <= 1 \/ isspace (peek (data r) (length r - 1)) = false).
Proof.
  intros W.
  assert (Hl : exists l, str_ltrim (Some s) = Some l)
    by (unfold str_ltrim; destruct (length s =? 0); eexists; reflexivity).
  assert (Hr : exists r, str_rtrim (Some s) = Some r)
    by (unfold str_rtrim; destruct (length s =? 0); eexists; reflexivity).
  destruct Hl as (l & Hl), Hr as (r & Hr). exists l, r.
  pose proof (str_ltrim_wf s l W Hl) as Wl'. pose proof (str_rtrim_wf s r W Hr) as Wr'.
  pose proof Hl as Hl0. pose proof Hr as Hr0.
  unfold str_ltrim in Hl. unfold str_rtrim in Hr.
  destruct (Z.eqb_spec (length s) 0) as [Hz | Hnz].
  { injection Hl as <-. injection Hr as <-. exists [], [].
    assert (Wt : peek (data s) 0 = NUL)
      by (destruct W as (_ & _ & _ & Wt); unfold terminated in Wt; now rewrite Hz in Wt).
    rewrite Wt, app_nil_r. cbn [app].
    repeat (split; [first [assumption | reflexivity | constructor]|]).
    split; [lia|]. left. lia. }
  split_wf W. rewrite (wrap_small (length s - 1)) in Hr by sizes.
  pose proof (skip_leading_range (Z.to_nat (length s)) (data s) (length s) 0) as Hs.
  pose proof (skip_leading_stops (Z.to_nat (length s)) (data s) (length s) 0) as Hs'.
  pose proof (skip_leading_spaces (Z.to_nat (length s)) (data s) (length s) 0) as Hsp.
  set (start := skip_leading _ _ _ _) in *.
  pose proof (skip_trailing_range (Z.to_nat (length s)) (data s) 0 (length s - 1)) as He.
  pose proof (skip_trailing_stops (Z.to_nat (length s)) (data s) 0 (length s - 1)) as He'.
  pose proof (skip_trailing_spaces (Z.to_nat (length s)) (data s) 0 (length s - 1)) as Hep.
  set (e := skip_trailing _ _ _ _) in *.
  assert (Hlen : 0 <= start <= length s /\ 0 <= e /\ e + 1 <= length s) by lia.
  rewrite !wrap_small in Hl by sizes. rewrite !wrap_small in Hr by sizes.
  injection Hl as <-. injection Hr as <-. cbn [length capacity data] in *.
  assert (Hm : sizeof (memmove (data s) 0 start (length s - start)) = sizeof (data s))
    by (apply memmove_length; lia).
  assert (Hs2 : start = length s \/ isspace (peek (data s) start) = false)
    by (apply Hs'; sizes).
  assert (He2 : e <= 0 \/ isspace (peek (data s) e) = false)
    by (apply He'; sizes).
  exists (firstn (Z.to_nat start) (data s)),
         (firstn (Z.to_nat (length s - (e + 1))) (skipn (Z.to_nat (e + 1)) (data s))).
  split; [exact Hl0|]. split; [exact Hr0|]. split; [exact Wl'|]. split; [exact Wr'|].
  split; [|split; [|split; [|split; [|split; [|split]]]]].
  - unfold content at 2. cbn [length data]. rewrite moved_to_front by lia.
    rewrite (content_slices s start (length s)) by lia.
    rewrite Z.sub_diag. cbn [Z.to_nat firstn]. now rewrite app_nil_r.
  - unfold content at 2. cbn [length data]. unfold poke.
    rewrite firstn_splice_le by lia.
    rewrite (content_slices s 0 (e + 1)) by lia.
    cbn [Z.to_nat firstn skipn app]. f_equal. f_equal. lia.
  - replace (Z.to_nat start) with (Z.to_nat (start - 0)) by lia.
    apply (Forall_slice _ (data s) 0 start); [lia|].
    intros j Hj. apply Hsp; sizes.
  - apply (Forall_slice _ (data s) (e + 1) (length s)); [lia|].
    intros j Hj. apply Hep; sizes.
  - destruct (Z.eq_dec (length s - start) 0) as [H0 | H0].
    + rewrite H0 in Hm |- *. rewrite peek_poke_same by lia. reflexivity.
    + rewrite peek_poke_other by lia. rewrite peek_memmove_in by lia.
      replace (start + (0 - 0)) with start by ring.
      destruct Hs2 as [Hs2 | Hs2]; [lia|exact Hs2].
  - lia.
  - destruct He2 as [He2 | He2]; [left; lia|right].
    rewrite peek_poke_other by lia. replace (e + 1 - 1) with e by ring. exact He2.
Qed.

Lemma one_sided_trims_strip_witness :
  exists l r pre post,
    str_ltrim (Some blank) = Some l /\ str_rtrim (Some blank) = Some r /\
    wf l /\ wf r /\
    content blank = pre ++ content l /\ content blank = content r ++ post /\
    Forall (fun c => isspace c = true) pre /\
    Forall (fun c => isspace c = true) post /\
    isspace (peek (data l) 0) = false /\
    (0 < length blank -> 0 < length r) /\
    (length r <= 1 \/ isspace (peek (data r) (length r - 1)) = false).
Proof.
  apply (one_sided_trims_strip blank).
  unfold wf, terminated. cbn [length capacity data blank].
  repeat split; try (vm_compute; congruence).
Defined.

(** ** Comparison of C strings *)

Lemma code_inj x y : code x = code y -> x = y.
Proof.
  unfold code. intros H. apply Nat2Z.inj in H.
  rewrite <- (ascii_nat_embedding x), <- (ascii_nat_embedding y). now rewrite H.
Qed.

Lemma code_zero x : code x = 0 -> x = NUL.
Proof. intros H. apply code_inj. rewrite H. reflexivity. Qed.

Lemma strcmp_zero_iff : forall a b, strcmp a b = 0 <-> c_str a = c_str b.
Proof.
  induction a as [|x a IH]; intros [|y b]; cbn [strcmp c_str].
  - tauto.
  - destruct (Ascii.eqb_spec y NUL) as [-> | Hy].
    + split; reflexivity.
    + split; [|discriminate]. intros H. exfalso. apply Hy. apply code_zero. lia.
  - destruct (Ascii.eqb_spec x NUL) as [-> | Hx].
    + split; reflexivity.
    + split; [|discriminate]. intros H. exfalso. apply Hx. now apply code_zero.
  - destruct (Ascii.eqb_spec x y) as [-> | Hxy].
    + destruct (Ascii.eqb_spec y NUL) as [-> | Hy]; [tauto|].
      rewrite IH. split; [congruence|]. now intros [= ->].
    + split.
      * intros H. exfalso. apply Hxy. apply code_inj. lia.
      * destruct (Ascii.eqb_spec x NUL) as [-> | Hx],
                 (Ascii.eqb_spec y NUL) as [-> | Hy]; congruence.
Qed.

Lemma strcmp_antisym : forall a b, strcmp b a = - strcmp a b.
Proof.
  induction a as [|x a IH]; intros [|y b]; cbn [strcmp]; try lia.
  destruct (Ascii.eqb_spec x y) as [-> | Hxy].
  - rewrite Ascii.eqb_refl. destruct (y =? NUL)%char; [reflexivity|apply IH].
  - destruct (Ascii.eqb_spec y x) as [-> | _]; [congruence|lia].
Qed.

(** X21. [str_equals] decides whether the two blocks hold the same C
    string, and that is the same content when neither buffer has a zero
    byte inside its content. [str_compare] is antisymmetric in sign, a
    buffer equals itself, and a null buffer sorts before every buffer
    and equals only a null one. *)
Theorem str_equals_compares_c_strings (a b : str) (s1 s2 : option str) :
  (str_equals (Some a) (Some b) = true <-> c_str (data a) = c_str (data b)) /\
  (wf a -> wf b -> strlen (data a) = length a -> strlen (data b) = length b ->
   (str_equals (Some a) (Some b) = true <-> content a = content b)) /\
  Z.sgn (str_compare s2 s1) = - Z.sgn (str_compare s1 s2) /\
  str_equals s1 s1 = true /\
  str_compare None (Some a) < 0 /\
  str_equals None (Some a) = false /\ str_equals None None = true.
Proof.
  assert (He : str_equals (Some a) (Some b) = true <-> c_str (data a) = c_str (data b)).
  { unfold str_equals, str_compare. rewrite Z.eqb_eq. apply strcmp_zero_iff. }
  split; [exact He|]. split.
  { intros Wa Wb Ha Hb. rewrite He.
    rewrite (content_no_embedded_zero a Wa Ha), (content_no_embedded_zero b Wb Hb).
    tauto. }
  split.
  { destruct s1 as [x|], s2 as [y|]; cbn [str_compare]; try reflexivity.
    rewrite strcmp_antisym. apply Z.sgn_opp. }
  split.
  { destruct s1 as [x|]; unfold str_equals; cbn [str_compare]; [|reflexivity].
    apply Z.eqb_eq. now apply strcmp_zero_iff. }
  repeat split.
Qed.

(** ** Searching *)

Lemma is_prefix_firstn p : forall l,
  is_prefix p l = true <-> firstn (List.length p) l = p.
Proof.
  induction p as [|x p IH]; intros [|y l]; cbn [is_prefix firstn List.length].
  - tauto.
  - tauto.
  - split; discriminate.
  - rewrite andb_true_iff, IH. split.
    + intros [E H]. apply Ascii.eqb_eq in E. subst. now rewrite H.
    + intros [= -> H]. split; [apply Ascii.eqb_refl|exact H].
Qed.

Lemma is_prefix_stands_at needle hay j :
  is_prefix needle (skipn j hay) = true <-> stands_at needle hay j.
Proof. apply is_prefix_firstn. Qed.

Lemma find_sub_first hay needle : forall k,
  find_sub hay needle = Some k ->
  forall j, (j < k)%nat -> is_prefix needle (skipn j hay) = false.
Proof.
  induction hay as [|c t IH]; intros k H j Hj; cbn [find_sub] in H.
  - destruct (is_prefix needle []); [|discriminate]. injection H as <-. lia.
  - destruct (is_prefix needle (c :: t)) eqn:E; [injection H as <-; lia|].
    destruct (find_sub t needle) as [k'|]; [|discriminate]. injection H as <-.
    destruct j as [|j]; [exact E|]. cbn [skipn]. apply (IH k' eq_refl). lia.
Qed.

Lemma find_sub_none hay needle :
  find_sub hay needle = None ->
  forall j, is_prefix needle (skipn j hay) = false.
Proof.
  induction hay as [|c t IH]; intros H j; cbn [find_sub] in H.
  - destruct (is_prefix needle []) eqn:E; [discriminate|].
    now destruct j.
  - destruct (is_prefix needle (c :: t)) eqn:E; [discriminate|].
    destruct (find_sub t needle) as [k'|]; [discriminate|].
    destruct j as [|j]; [exact E|]. cbn [skipn]. now apply IH.
Qed.

(** X22. [str_find] returns the offset of the first place where the C
    string [substr] stands in the C string of the buffer, and [STR_NPOS]
    when it stands nowhere, provided the string of the buffer is at most
    [INT_MAX] bytes long. *)
Theorem str_find_first_occurrence s sub :
  let hay := c_str (data s) in
  let needle := c_str sub in
  strlen (data s) <= 2147483647 ->
  (exists k, str_find (Some s) (Some sub) = Z.of_nat k /\
             stands_at needle hay k /\
             forall j, (j < k)%nat -> ~ stands_at needle hay j)
  \/ (str_find (Some s) (Some sub) = STR_NPOS /\
      forall j, ~ stands_at needle hay j).
Proof.
  intros hay needle Hlen. unfold str_find, strstr. fold hay needle.
  destruct (find_sub hay needle) as [k|] eqn:F; cbn [option_map].
  - left. exists k. pose proof (find_sub_bound _ _ _ F) as Hb.
    split; [apply to_int_small; unfold hay, strlen in *; lia|].
    split; [apply is_prefix_stands_at; now apply find_sub_prefix|].
    intros j Hj Hs. apply is_prefix_stands_at in Hs.
    now rewrite (find_sub_first _ _ _ F j Hj) in Hs.
  - right. split; [reflexivity|]. intros j Hs. apply is_prefix_stands_at in Hs.
    now rewrite (find_sub_none _ _ F j) in Hs.
Qed.

Lemma str_find_first_occurrence_witness :
  (exists k, str_find (Some hello_world) (Some (lit "o")) = Z.of_nat k /\
             stands_at (c_str (lit "o")) (c_str (data hello_world)) k /\
             forall j, (j < k)%nat ->
                       ~ stands_at (c_str (lit "o")) (c_str (data hello_world)) j)
  \/ (str_find (Some hello_world) (Some (lit "o")) = STR_NPOS /\
      forall j, ~ stands_at (c_str (lit "o")) (c_str (data hello_world)) j).
Proof.
  apply (str_find_first_occurrence hello_world (lit "o")). vm_compute. discriminate.
Defined.

Lemma memcmp_eq_stands_at d needle j :
  memcmp_eq (skipn j d) needle (sizeof needle) = true <-> stands_at needle d j.
Proof.
  unfold memcmp_eq, stands_at. rewrite Nat2Z.id, firstn_all.
  rewrite Nat.leb_refl, andb_true_r, andb_true_iff, is_prefix_firstn.
  split; [tauto|]. intros H. split; [|exact H].
  apply Nat.leb_le. rewrite <- H at 1. rewrite List.length_firstn. lia.
Qed.

Lemma stands_at_content s needle j :
  0 <= length s <= sizeof (data s) ->
  (j + List.length needle <= Z.to_nat (length s))%nat ->
  stands_at needle (content s) j <-> stands_at needle (data s) j.
Proof.
  intros Hl Hj. unfold stands_at, content.
  rewrite skipn_firstn_comm, firstn_firstn.
  now rewrite Nat.min_l by lia.
Qed.

Lemma stands_at_bound needle hay j :
  stands_at needle hay j -> needle <> [] ->
  (j + List.length needle <= List.length hay)%nat.
Proof.
  unfold stands_at. intros H Hne.
  assert (Hl : List.length (firstn (List.length needle) (skipn j hay))
               = List.length needle) by now rewrite H.
  rewrite List.length_firstn, List.length_skipn in Hl.
  destruct needle; [contradiction|]. cbn [List.length] in *. lia.
Qed.

Lemma str_rfind_loop_spec d needle : forall i,
  Z.of_nat i <= 2147483648 ->
  (exists k, (k < i)%nat /\
             str_rfind_loop i d needle (sizeof needle) = Z.of_nat k /\
             stands_at needle d k /\
             forall j, (k < j < i)%nat -> ~ stands_at needle d j)
  \/ (str_rfind_loop i d needle (sizeof needle) = STR_NPOS /\
      forall j, (j < i)%nat -> ~ stands_at needle d j).
Proof.
  induction i as [|i IH]; intros Hi; cbn [str_rfind_loop].
  - right. split; [reflexivity|]. intros j Hj. lia.
  - destruct (memcmp_eq (skipn i d) needle (sizeof needle)) eqn:E.
    + left. exists i. split; [lia|]. split; [apply to_int_small; lia|].
      split; [now apply memcmp_eq_stands_at|]. intros j Hj. lia.
    + assert (Hn : ~ stands_at needle d i).
      { intros Hs. apply memcmp_eq_stands_at in Hs. congruence. }
      destruct IH as [(k & Hk & R & S & N) | (R & N)]; [lia| |].
      * left. exists k. split; [lia|]. split; [exact R|]. split; [exact S|].
        intros j Hj. destruct (Nat.eq_dec j i) as [-> | Hne]; [exact Hn|].
        apply N. lia.
      * right. split; [exact R|]. intros j Hj.
        destruct (Nat.eq_dec j i) as [-> | Hne]; [exact Hn|]. apply N. lia.
Qed.

(** X23. [str_rfind] with a non-empty [substr], on a buffer of at most
    [INT_MAX] bytes that satisfies the invariants, returns the offset of
    the last place where the C string [substr] stands in the content, and
    [STR_NPOS] when it stands nowhere. The whole content is searched, the
    bytes after a zero byte included. *)
Theorem str_rfind_last_occurrence s sub :
  let hay := content s in
  let needle := c_str sub in
  wf s -> length s <= 2147483647 -> needle <> [] ->
  (exists k, str_rfind (Some s) (Some sub) = Z.of_nat k /\
             stands_at needle hay k /\
             forall j, (k < j)%nat -> ~ stands_at needle hay j)
  \/ (str_rfind (Some s) (Some sub) = STR_NPOS /\
      forall j, ~ stands_at needle hay j).
Proof.
  intros hay needle W Hlen Hne. pose proof (content_length_wf s W) as Hcl.
  split_wf W. unfold str_rfind.
  assert (Hp : (peek sub 0 =? NUL)%char = false).
  { unfold needle in Hne. destruct sub as [|c t]; [contradiction|].
    cbn [c_str] in Hne. unfold peek. cbn [Z.to_nat nth].
    destruct (c =? NUL)%char; [contradiction|reflexivity]. }
  rewrite Hp. fold needle. unfold strlen. fold needle.
  assert (Hfar : forall j, (Z.to_nat (length s) < j + List.length needle)%nat ->
                           ~ stands_at needle hay j).
  { intros j Hj Hs. apply stands_at_bound in Hs; [|exact Hne].
    unfold hay in Hs. lia. }
  destruct (Z.gtb_spec (sizeof needle) (length s)) as [Hgt | Hle].
  - right. split; [reflexivity|]. intros j. apply Hfar. lia.
  - rewrite wrap_small by sizes.
    set (i := Z.to_nat (length s - sizeof needle + 1)).
    assert (Hin : forall j, (j < i)%nat ->
              (stands_at needle hay j <-> stands_at needle (data s) j)).
    { intros j Hj. apply stands_at_content; unfold i in Hj; lia. }
    destruct (str_rfind_loop_spec (data s) needle i) as [(k & Hk & R & S & N) | (R & N)].
    + unfold i. lia.
    + left. exists k. split; [exact R|]. split; [now apply Hin|].
      intros j Hj. destruct (Nat.lt_ge_cases j i) as [Hji | Hji].
      * rewrite Hin by exact Hji. apply N. lia.
      * apply Hfar. unfold i in Hji. lia.
    + right. split; [exact R|]. intros j.
      destruct (Nat.lt_ge_cases j i) as [Hji | Hji].
      * rewrite Hin by exact Hji. now apply N.
      * apply Hfar. unfold i in Hji. lia.
Qed.

Lemma str_rfind_last_occurrence_witness :
  (exists k, str_rfind (Some hello_world) (Some (lit "o")) = Z.of_nat k /\
             stands_at (c_str (lit "o")) (content hello_world) k /\
             forall j, (k < j)%nat ->
                       ~ stands_at (c_str (lit "o")) (content hello_world) j)
  \/ (str_rfind (Some hello_world) (Some (lit "o")) = STR_NPOS /\
      forall j, ~ stands_at (c_str (lit "o")) (content hello_world) j).
Proof.
  apply (str_rfind_last_occurrence hello_world (lit "o")).
  - unfold wf, terminated. cbn [length capacity data hello_world].
    repeat split; try (vm_compute; congruence).
  - vm_compute. discriminate.
  - discriminate.
Defined.

(** ** Prefixes and suffixes *)

Lemma memcmp_eq_firstn p needle :
  memcmp_eq p needle (sizeof needle) = true <-> firstn (List.length needle) p = needle.
Proof. apply (memcmp_eq_stands_at p needle O). Qed.

Lemma str_starts_with_prefix s a :
  wf s ->
  str_starts_with (Some s) (Some a) = true <-> exists rest, content s = c_str a ++ rest.
Proof.
  intros W. pose proof (content_length_wf s W) as Hcl. split_wf W.
  unfold str_starts_with, strlen. rewrite andb_true_iff, memcmp_eq_firstn.
  rewrite Z.geb_leb, Z.leb_le. split.
  - intros (Hle & Hp). exists (firstn (Z.to_nat (length s) - List.length (c_str a))
                                       (skipn (List.length (c_str a)) (data s))).
    unfold content.
    replace (Z.to_nat (length s))
      with (List.length (c_str a) + (Z.to_nat (length s) - List.length (c_str a)))%nat
      at 1 by lia.
    rewrite firstn_add. now rewrite Hp.
  - intros (rest & Hc).
    assert (Hl : sizeof (c_str a) <= length s)
      by (rewrite <- Hcl, Hc, List.length_app; lia).
    split; [exact Hl|].
    assert (Hf : firstn (List.length (c_str a)) (content s) = c_str a)
      by (rewrite Hc, firstn_app, Nat.sub_diag, firstn_all; cbn [firstn];
          apply app_nil_r).
    unfold content in Hf. rewrite firstn_firstn in Hf.
    now rewrite Nat.min_l in Hf by lia.
Qed.

Lemma str_ends_with_suffix s a :
  wf s ->
  str_ends_with (Some s) (Some a) = true <-> exists front, content s = front ++ c_str a.
Proof.
  intros W. pose proof (content_length_wf s W) as Hcl. split_wf W.
  unfold str_ends_with, strlen. rewrite andb_true_iff, memcmp_eq_firstn.
  rewrite Z.geb_leb, Z.leb_le. unfold at_off. split.
  - intros (Hle & Hp). rewrite wrap_small in Hp by sizes.
    exists (firstn (Z.to_nat (length s - sizeof (c_str a))) (data s)).
    unfold content.
    replace (Z.to_nat (length s))
      with (Z.to_nat (length s - sizeof (c_str a)) + List.length (c_str a))%nat
      at 1 by lia.
    rewrite firstn_add. now rewrite Hp.
  - intros (front & Hc).
    assert (Hl : sizeof front + sizeof (c_str a) = length s)
      by (rewrite <- Hcl, Hc, List.length_app; lia).
    split; [lia|]. rewrite wrap_small by sizes.
    rewrite firstn_skipn_comm.
    replace (Z.to_nat (length s - sizeof (c_str a)) + List.length (c_str a))%nat
      with (Z.to_nat (length s)) by lia.
    fold (content s). rewrite Hc.
    replace (Z.to_nat (length s - sizeof (c_str a))) with (List.length front) by lia.
    rewrite skipn_app, Nat.sub_diag, skipn_all. reflexivity.
Qed.

(** X24. On a buffer that satisfies the invariants, [str_starts_with] is
    true exactly when the content begins with the C string [prefix] and
    [str_ends_with] exactly when it ends with the C string [suffix]; the
    empty string is a prefix and a suffix of every buffer. *)
Theorem str_starts_ends_with_affixes s a :
  wf s ->
  (str_starts_with (Some s) (Some a) = true
   <-> exists rest, content s = c_str a ++ rest) /\
  (str_ends_with (Some s) (Some a) = true
   <-> exists front, content s = front ++ c_str a) /\
  str_starts_with (Some s) (Some (lit "")) = true /\
  str_ends_with (Some s) (Some (lit "")) = true.
Proof.
  intros W. split; [now apply str_starts_with_prefix|].
  split; [now apply str_ends_with_suffix|]. split.
  - apply str_starts_with_prefix; [exact W|]. now exists (content s).
  - apply str_ends_with_suffix; [exact W|]. exists (content s).
    cbn [lit list_ascii_of_string c_str]. now rewrite app_nil_r.
Qed.

Lemma str_starts_ends_with_affixes_witness :
  (str_starts_with (Some hello) (Some (lit "He")) = true
   <-> exists rest, content hello = c_str (lit "He") ++ rest) /\
  (str_ends_with (Some hello) (Some (lit "He")) = true
   <-> exists front, content hello = front ++ c_str (lit "He")) /\
  str_starts_with (Some hello) (Some (lit "")) = true /\
  str_ends_with (Some hello) (Some (lit "")) = true.
Proof. apply (str_starts_ends_with_affixes hello (lit "He")). exact wf_hello. Defined.

(** What [str_append] has appended is a suffix for [str_ends_with], and
    what [str_prepend] has prepended is a prefix for [str_starts_with]. *)
Lemma affixes_after_growth s a h s1 h1 s2 h2 :
  wf s -> strlen a < size_half ->
  str_append (Some s) (Some a) h = Returns ((true, Some s1), h1) ->
  str_prepend (Some s) (Some a) h = Returns ((true, Some s2), h2) ->
  str_ends_with (Some s1) (Some a) = true /\
  str_starts_with (Some s2) (Some a) = true.
Proof.
  intros W Ha H1 H2. split.
  - pose proof (str_append_wf _ _ _ _ _ W Ha H1) as W'.
    destruct (str_append_content _ _ _ _ _ W Ha H1) as (_ & _ & C).
    apply str_ends_with_suffix; [exact W'|]. now exists (content s).
  - pose proof (str_prepend_wf _ _ _ _ _ W Ha H2) as W'.
    destruct (str_prepend_content _ _ _ _ _ W Ha H2) as (_ & _ & C).
    apply str_starts_with_prefix; [exact W'|]. now exists (content s).
Qed.

(** ** Removing every occurrence, as a substitution *)

Lemma c_str_split d :
  strlen d < sizeof d -> exists rest, d = c_str d ++ NUL :: rest.
Proof.
  intros H. destruct (c_str_starts d) as (rest & E).
  pose proof (c_str_end d) as Hz. unfold strlen in H.
  destruct rest as [|x rest].
  - rewrite app_nil_r in E. rewrite <- E in H. lia.
  - exists rest. rewrite E in Hz at 2. rewrite app_nth2, Nat.sub_diag in Hz by lia.
    cbn [nth] in Hz. now rewrite Hz in E.
Qed.

Lemma c_str_fixed_app_nul a rest : c_str a = a -> c_str (a ++ NUL :: rest) = a.
Proof. intros H. rewrite <- H at 1. now rewrite c_str_app_nul. Qed.

Lemma c_str_after_removal d q n len :
  0 <= q -> 0 <= n -> q + n <= strlen d -> strlen d <= len -> len < sizeof d ->
  c_str (memmove d q (q + n) (len - q - n + 1))
  = firstn (Z.to_nat q) (c_str d) ++ skipn (Z.to_nat (q + n)) (c_str d).
Proof.
  intros Hq Hn Hqn Hl Hd. destruct (c_str_split d) as (rest & E); [lia|].
  set (str := c_str d) in *. unfold strlen in *. fold str in Hqn, Hl.
  rewrite memmove_as_splice. unfold splice.
  assert (Hsk : skipn (Z.to_nat (q + n)) d
                = skipn (Z.to_nat (q + n)) str ++ NUL :: rest).
  { rewrite E at 1. rewrite skipn_app.
    replace (Z.to_nat (q + n) - List.length str)%nat with O by lia. reflexivity. }
  rewrite Hsk, firstn_app.
  rewrite (firstn_all2 (skipn (Z.to_nat (q + n)) str))
    by (rewrite List.length_skipn; lia).
  rewrite List.length_skipn.
  replace (Z.to_nat (len - q - n + 1) - (List.length str - Z.to_nat (q + n)))%nat
    with (S (Z.to_nat (len - sizeof str))) by lia.
  cbn [firstn].
  assert (Hf : firstn (Z.to_nat q) d = firstn (Z.to_nat q) str).
  { rewrite E at 1. rewrite firstn_app.
    replace (Z.to_nat q - List.length str)%nat with O by lia.
    cbn [firstn]. apply app_nil_r. }
  rewrite Hf, <- !app_assoc, app_assoc. cbn [app].
  apply c_str_fixed_app_nul.
  rewrite c_str_app_fixed by apply c_str_firstn.
  f_equal. apply c_str_skipn_fixed. apply c_str_idem.
Qed.

Section Removal.

Variable needle : list ascii.
Hypothesis needle_not_empty : needle <> [].

(** [strstr] and the scan agree on what is left when nothing is put in
    the place of an occurrence. *)
Lemma find_sub_removes : forall s,
  match find_sub s needle with
  | None => spec_substitute needle [] s = s
  | Some k =>
      spec_substitute needle [] s =
      firstn k s ++ spec_substitute needle [] (skipn (k + List.length needle) s)
  end.
Proof.
  intros s. induction s as [|c t IH]; cbn [find_sub].
  - destruct needle; [contradiction|]. reflexivity.
  - rewrite (spec_substitute_cons needle [] needle_not_empty).
    destruct (is_prefix needle (c :: t)) eqn:P; [reflexivity|].
    destruct (find_sub t needle) as [j|]; cbn [option_map Nat.add firstn skipn app];
      now rewrite IH.
Qed.

End Removal.

Lemma str_remove_all_loop_spec fuel sub : forall d len p count,
  c_str sub <> [] ->
  0 <= p <= strlen d -> strlen d <= len -> len < sizeof d -> sizeof d <= size_half ->
  peek d len = NUL ->
  (Z.to_nat (strlen d - p) < fuel)%nat ->
  0 <= count -> count + (strlen d - p) < size_modulus ->
  let rest := skipn (Z.to_nat p) (c_str d) in
  let occ := Z.of_nat (spec_occurrences (c_str sub) rest) in
  exists d',
    str_remove_all_loop fuel sub (strlen sub) d len p count
      = Returns (d', len - occ * strlen sub, count + occ) /\
    c_str d' = firstn (Z.to_nat p) (c_str d) ++ spec_substitute (c_str sub) [] rest.
Proof.
  induction fuel as [|fuel IH]; intros d len p count Hne Hp Hl Hd Hh Hz Hf Hc Hcb;
    [lia|].
  cbn zeta. cbn [str_remove_all_loop].
  rewrite strstr_at_off by exact Hp.
  pose proof (find_sub_occurrences (c_str sub) Hne (skipn (Z.to_nat p) (c_str d))) as Ho.
  pose proof (find_sub_removes (c_str sub) Hne (skipn (Z.to_nat p) (c_str d))) as Hr.
  destruct (find_sub (skipn (Z.to_nat p) (c_str d)) (c_str sub)) as [k|] eqn:F;
    cbn [option_map].
  - pose proof (find_sub_bound _ _ _ F) as Hb. rewrite List.length_skipn in Hb.
    assert (Hn : 0 < strlen sub)
      by (unfold strlen; destruct (c_str sub); [contradiction|cbn [List.length]; lia]).
    unfold strlen in Hb, Hp, Hl, Hf, Hcb, Hn.
    set (q := p + Z.of_nat k).
    rewrite (wrap_small (len - q - strlen sub + 1)) by (unfold strlen, q; sizes).
    rewrite (wrap_small (len - strlen sub)) by (unfold strlen; sizes).
    rewrite (wrap_small (count + 1)) by sizes.
    set (d1 := memmove d q (q + strlen sub) (len - q - strlen sub + 1)).
    assert (Hd1 : sizeof d1 = sizeof d)
      by (apply memmove_length; unfold strlen, q; lia).
    assert (Hc1 : c_str d1 = firstn (Z.to_nat q) (c_str d)
                             ++ skipn (Z.to_nat (q + strlen sub)) (c_str d))
      by (apply c_str_after_removal; unfold strlen, q; lia).
    assert (Hs1 : strlen d1 = strlen d - strlen sub).
    { unfold strlen at 1. rewrite Hc1, List.length_app, List.length_firstn,
        List.length_skipn. unfold strlen, q. lia. }
    destruct (IH d1 (len - strlen sub) q (count + 1)) as (d' & E & C);
      try assumption; unfold strlen in *; try (unfold q; lia).
    { unfold d1. rewrite peek_memmove_in by (unfold strlen, q; lia).
      rewrite <- Hz. f_equal. unfold strlen. ring. }
    assert (Hrest : skipn (Z.to_nat q) (c_str d1)
                    = skipn (k + List.length (c_str sub))
                            (skipn (Z.to_nat p) (c_str d))).
    { rewrite Hc1, skipn_app, List.length_firstn.
      rewrite skipn_all2 by (rewrite List.length_firstn; unfold q; lia).
      replace (Z.to_nat q - Nat.min (Z.to_nat q) (List.length (c_str d)))%nat
        with O by (unfold q; lia).
      cbn [skipn app]. rewrite skipn_skipn. f_equal. unfold strlen, q. lia. }
    rewrite Hrest in E, C. exists d'. split.
    + rewrite E, Ho. f_equal. f_equal; [f_equal|]; lia.
    + rewrite C, Hr, Hc1, firstn_app, firstn_firstn, List.length_firstn.
      replace (Nat.min (Z.to_nat q) (Z.to_nat q)) with (Z.to_nat q) by lia.
      replace (Z.to_nat q - Nat.min (Z.to_nat q) (List.length (c_str d)))%nat
        with O by (unfold q; lia).
      cbn [firstn]. rewrite app_nil_r, app_assoc. f_equal.
      replace (Z.to_nat q) with (Z.to_nat p + k)%nat by (unfold q; lia).
      apply firstn_add.
  - exists d. rewrite Ho, Hr. split.
    + f_equal. f_equal; [f_equal|]; lia.
    + now rewrite firstn_skipn.
Qed.

(** X25. [str_remove_all] with a non-empty [substr] scans the C string
    of the buffer from the left and takes out every occurrence it meets,
    resuming where the occurrence stood: it returns the number of these
    non-overlapping occurrences, shortens the buffer by that number times
    the length of [substr], and leaves the invariants and the capacity as
    they were. *)
Theorem str_remove_all_removes fuel s sub :
  let needle := c_str sub in
  let text := c_str (data s) in
  let occ := Z.of_nat (spec_occurrences needle text) in
  wf s -> needle <> [] -> (Z.to_nat (length s) < fuel)%nat ->
  exists s',
    str_remove_all fuel (Some s) (Some sub) = Returns (occ, Some s') /\
    wf s' /\ capacity s' = capacity s /\
    length s' = length s - occ * strlen sub /\
    c_str (data s') = spec_substitute needle [] text /\
    (strlen (data s) = length s ->
     content s' = spec_substitute needle [] (content s)).
Proof.
  intros needle text occ W Hne Hf.
  pose proof (strlen_le_length s W) as Hl. pose proof (strlen_nonneg (data s)) as Hn.
  assert (W0 := W). split_wf W.
  destruct (str_remove_all_loop_spec fuel sub (data s) (length s) 0 0) as (d' & E & C);
    try assumption; try lia; try sizes.
  cbn [Z.to_nat skipn firstn app] in E, C. fold needle text occ in E, C.
  assert (Hrun : str_remove_all fuel (Some s) (Some sub)
                 = Returns (occ, Some {| length := length s - occ * strlen sub;
                                         capacity := capacity s; data := d' |}))
    by (unfold str_remove_all; rewrite E; reflexivity).
  eexists. split; [exact Hrun|].
  pose proof (str_remove_all_wf _ _ _ _ _ W0 Hrun) as W'.
  split; [exact W'|]. cbn [length capacity data].
  split; [reflexivity|]. split; [reflexivity|]. split; [exact C|].
  intros Hz. rewrite (content_no_embedded_zero s W0 Hz). fold text.
  rewrite <- C. apply (content_no_embedded_zero _ W'). cbn [length data].
  unfold strlen at 1. rewrite C.
  rewrite (spec_substitute_length needle [] Hne (List.length text) text eq_refl).
  cbn [List.length]. unfold strlen, occ, needle, text in *. lia.
Qed.

Lemma str_remove_all_removes_witness :
  exists s',
    str_remove_all 20 (Some hello_world) (Some (lit "l"))
      = Returns (Z.of_nat (spec_occurrences (c_str (lit "l"))
                             (c_str (data hello_world))), Some s') /\
    wf s' /\ capacity s' = capacity hello_world /\
    length s' = length hello_world
                - Z.of_nat (spec_occurrences (c_str (lit "l"))
                              (c_str (data hello_world))) * strlen (lit "l") /\
    c_str (data s') = spec_substitute (c_str (lit "l")) [] (c_str (data hello_world)) /\
    (strlen (data hello_world) = length hello_world ->
     content s' = spec_substitute (c_str (lit "l")) [] (content hello_world)).
Proof.
  apply (str_remove_all_removes 20 hello_world (lit "l")).
  - unfold wf, terminated. cbn [length capacity data hello_world].
    repeat split; try (vm_compute; congruence).
  - discriminate.
  - vm_compute. lia.
Defined.

(** ** Joining any array of buffers *)

Lemma joined_length delim (rest : list str) :
  Forall segment_ok rest ->
  sizeof (List.concat (map (fun sg => c_str delim ++ content sg) rest))
  = fold_right (fun sg t => length sg + t) 0 rest + sizeof rest * strlen delim.
Proof.
  induction 1 as [|x rest Hx _ IH]; cbn [map List.concat fold_right List.length];
    [reflexivity|].
  rewrite !List.length_app, !Nat2Z.inj_add, IH, (content_length x Hx).
  unfold strlen. lia.
Qed.

Lemma str_join_total_null strings : forall n i total,
  (Z.to_nat i < List.length strings)%nat -> 0 <= i ->
  sizeof strings < size_modulus ->
  (List.length strings <= Z.to_nat i + n)%nat ->
  In None (skipn (Z.to_nat i) strings) ->
  str_join_total n strings i total = None.
Proof.
  induction n as [|n IH]; intros i total Hi Hi0 Hs Hn Hin; [lia|].
  cbn [str_join_total].
  destruct (nth_error strings (Z.to_nat i)) as [[si|]|] eqn:E; try reflexivity.
  assert (Hsk : skipn (Z.to_nat i) strings
                = Some si :: skipn (S (Z.to_nat i)) strings).
  { clear - E. revert E. generalize (Z.to_nat i) as k.
    induction strings as [|x l IHl]; intros [|k] E; cbn [nth_error skipn] in *;
      try discriminate.
    - now injection E as ->.
    - now apply IHl. }
  rewrite Hsk in Hin. destruct Hin as [Hin | Hin]; [discriminate|].
  rewrite wrap_small by sizes.
  assert (Hlt : (S (Z.to_nat i) < List.length strings)%nat).
  { destruct (Nat.lt_ge_cases (S (Z.to_nat i)) (List.length strings)) as [H | H];
      [exact H|]. rewrite skipn_all2 in Hin by lia. contradiction. }
  apply IH; try lia.
  replace (Z.to_nat (i + 1)) with (S (Z.to_nat i)) by lia. exact Hin.
Qed.

(** X26. [str_join] of an array of [count] buffers, none of them null,
    makes one request of the allocator, whatever the allocator is: when
    the request is granted the result is a new buffer that satisfies the
    invariants and holds the content of the first buffer followed, for
    each further buffer, by the C string [delim] and the content of that
    buffer; when it is refused the result is null. An array with a null
    entry gives a null result with nothing requested of the allocator
    (the allocator is as it was, whatever its coming answers), and so
    does a count of zero. *)
Theorem str_join_concatenates x rest delim strings h :
  let bytes := content x
               ++ List.concat (map (fun sg => c_str delim ++ content sg) rest) in
  Forall segment_ok (x :: rest) ->
  sizeof (x :: rest) < size_half -> sizeof bytes < size_half ->
  sizeof strings < size_half ->
  (exists r,
     str_join (Some (map Some (x :: rest))) (sizeof (x :: rest)) (Some delim) h
       = Returns (r, snd (next_request h)) /\
     match r with
     | None => fst (next_request h) = false
     | Some r0 =>
         fst (next_request h) = true /\
         wf r0 /\ capacity_ok r0 /\ length r0 = sizeof bytes /\ content r0 = bytes
     end) /\
  (In None strings ->
   str_join (Some strings) (sizeof strings) (Some delim) h = Returns (None, h)) /\
  str_join (Some strings) 0 (Some delim) h = Returns (None, h).
Proof.
  intros bytes Hok Hcount Hfit Hstr. split; [|split].
  - unfold str_join.
    destruct (Z.eqb_spec (sizeof (x :: rest)) 0) as [Hz|_]; [simpl in Hz; lia|].
    pose proof (fold_lengths_nonneg _ Hok) as Hnn.
    pose proof (strlen_nonneg delim) as Hdn.
    assert (Hcnt : 1 <= sizeof (x :: rest)) by (simpl; lia).
    pose proof (Forall_inv Hok) as Hx. pose proof (Forall_inv_tail Hok) as Hr.
    pose proof (content_length x Hx) as Hcx.
    assert (Hsum : fold_right (fun sg t => length sg + t) 0 (x :: rest)
                   + (sizeof (x :: rest) - 1) * strlen delim = sizeof bytes).
    { unfold bytes. rewrite List.length_app, Nat2Z.inj_add, joined_length by exact Hr.
      cbn [fold_right List.length]. lia. }
    rewrite Nat2Z.id.
    pose proof (str_join_total_spec (x :: rest) [] 0 Hok) as Et.
    change ([] ++ x :: rest) with (x :: rest) in Et.
    change (sizeof (@nil str)) with 0 in Et. rewrite Et; clear Et; try sizes.
    2:{ assert (0 <= (sizeof (x :: rest) - 1) * strlen delim) by nia. sizes. }
    rewrite Z.add_0_l, Hsum, (wrap_small (sizeof bytes)) by sizes.
    destruct (fst (next_request h)) eqn:Hq.
    2:{ exists None. split; [|reflexivity]. unfold bind.
        rewrite str_new_refused; [reflexivity|exact Hq|].
        rewrite wrap_small by sizes. lia. }
    destruct (str_new_granted (wrap (sizeof bytes + 1)) h) as (c & En & Hp & Hc & Hm).
    { exact Hq. }
    { rewrite wrap_small by sizes. lia. }
    rewrite wrap_small in Hm by sizes.
    unfold bind. rewrite En.
    set (rd := poke (repeat (junk h) (Z.to_nat c)) 0 NUL) in *.
    assert (Hrd : sizeof rd = c).
    { unfold rd. rewrite poke_length; rewrite repeat_length; lia. }
    cbn [List.length str_join_copy data capacity].
    change (0 >? 0) with false. cbn [Z.to_nat nth_error map].
    change (wrap (0 + 1)) with (sizeof [x]).
    change (memcpy rd 0 (data x) (length x)) with (splice rd O (content x)).
    pose proof (splice_length_ge rd O (content x)) as G1.
    change (Some x :: map Some rest) with (map Some ([x] ++ rest)).
    rewrite str_join_copy_spec; try assumption; try discriminate.
    2:{ cbn [app]. sizes. }
    2:{ unfold segment_ok in Hx. lia. }
    replace (Z.to_nat (0 + length x)) with (0 + List.length (content x))%nat by lia.
    rewrite splice_app by lia. fold bytes.
    replace (0 + length x
             + sizeof (List.concat (map (fun sg => c_str delim ++ content sg) rest)))
      with (sizeof bytes)
      by (unfold bytes; rewrite List.length_app; lia).
    destruct (poke_splice_end rd bytes) as (tail & Ed & El); [lia|].
    eexists (Some _). split; [reflexivity|]. split; [reflexivity|]. rewrite Ed in *.
    unfold wf, terminated, capacity_ok, content. cbn [length capacity data].
    rewrite Nat2Z.id, firstn_app, Nat.sub_diag, firstn_length_self.
    cbn [firstn]. rewrite app_nil_r.
    unfold peek. rewrite Nat2Z.id, app_nth2, Nat.sub_diag by lia. cbn [nth].
    repeat split; try assumption; try lia.
  - intros Hin. unfold str_join.
    destruct (Z.eqb_spec (sizeof strings) 0) as [Hz | Hz]; [reflexivity|].
    rewrite Nat2Z.id, (str_join_total_null strings (List.length strings) 0 0);
      try reflexivity; try sizes; try (cbn [Z.to_nat]; lia).
    exact Hin.
  - reflexivity.
Qed.

Lemma str_join_concatenates_witness :
  (exists r,
     str_join (Some (map Some [hello; ab])) (sizeof [hello; ab]) (Some (lit ", "))
              granting_once
       = Returns (r, snd (next_request granting_once)) /\
     match r with
     | None => fst (next_request granting_once) = false
     | Some r0 =>
         fst (next_request granting_once) = true /\
         wf r0 /\ capacity_ok r0 /\
         length r0
         = sizeof (content hello
                   ++ List.concat (map (fun sg => c_str (lit ", ") ++ content sg)
                                       [ab])) /\
         content r0
         = content hello
           ++ List.concat (map (fun sg => c_str (lit ", ") ++ content sg) [ab])
     end) /\
  (In None [Some hello; None] ->
   str_join (Some [Some hello; None]) (sizeof [Some hello; None]) (Some (lit ", "))
            granting_once
     = Returns (None, granting_once)) /\
  str_join (Some [Some hello; None]) 0 (Some (lit ", ")) granting_once
    = Returns (None, granting_once).
Proof.
  apply (str_join_concatenates hello [ab] (lit ", ") [Some hello; None]
           granting_once).
  - repeat constructor; vm_compute; congruence.
  - vm_compute. reflexivity.
  - vm_compute. reflexivity.
  - vm_compute. reflexivity.
Defined.

(** ** Snake case with an allocator that grants every request *)

Lemma str_ensure_capacity_granted s cap h :
  wf s -> cap <= size_half -> script h = [] ->
  exists s1, str_ensure_capacity (Some s) cap h = Returns ((true, Some s1), h).
Proof.
  intros W Hc Hq. destruct (Z.le_gt_cases cap (capacity s)) as [Hle | Hgt].
  - exists s. now apply str_ensure_capacity_noop.
  - destruct (str_ensure_capacity_grows s cap h Hgt Hc) as (c & E & _).
    { now rewrite next_request_quiet. }
    rewrite next_request_quiet in E by exact Hq. eexists. exact E.
Qed.

Lemma str_insert_granted s index (a : cstring) h :
  wf s -> 0 <= index <= length s -> length s + strlen a + 1 <= size_half ->
  script h = [] ->
  exists s',
    str_insert (Some s) index (Some a) h = Returns ((true, Some s'), h) /\
    wf s' /\ length s' = length s + strlen a /\
    content s' = firstn (Z.to_nat index) (content s) ++ c_str a
                 ++ skipn (Z.to_nat index) (content s).
Proof.
  intros W Hi Hfit Hq. pose proof (strlen_nonneg a) as Hn.
  assert (Wl : 0 <= length s) by (destruct W; lia).
  destruct (str_ensure_capacity_granted s (wrap (length s + strlen a + 1)) h W)
    as (s1 & E); [rewrite wrap_small by sizes; lia|exact Hq|].
  assert (Hrun : exists s', str_insert (Some s) index (Some a) h
                            = Returns ((true, Some s'), h)).
  { unfold str_insert, bind. destruct (Z.gtb_spec index (length s)); [lia|].
    rewrite E. eexists. reflexivity. }
  destruct Hrun as (s' & Hrun). exists s'. split; [exact Hrun|].
  split; [apply (str_insert_wf s index a h s' h); auto; lia|].
  apply (str_insert_content s index a h s' h); auto; lia.
Qed.

Lemma content_poke s i c :
  wf s -> 0 <= i < length s ->
  content (set_data s (poke (data s) i c))
  = firstn (Z.to_nat i) (content s) ++ c :: skipn (S (Z.to_nat i)) (content s).
Proof.
  intros W Hi. split_wf W. unfold content. cbn [set_data length data].
  rewrite poke_as_splice, firstn_splice by lia.
  rewrite firstn_firstn, skipn_firstn_comm. cbn [List.length].
  replace (Nat.min (Z.to_nat (length s)) (Z.to_nat i)) with (Z.to_nat i) by lia.
  replace (Nat.min (Z.to_nat i) (Z.to_nat (length s))) with (Z.to_nat i) by lia.
  f_equal.
  replace (Z.to_nat (length s) - Z.to_nat i)%nat
    with (S (Z.to_nat (length s) - S (Z.to_nat i))) by lia.
  cbn [firstn app]. f_equal.
  replace (S (Z.to_nat (length s) - S (Z.to_nat i)) - 1)%nat
    with (Z.to_nat (length s) - S (Z.to_nat i))%nat by lia.
  rewrite firstn_nil. cbn [app]. do 2 f_equal. lia.
Qed.

(** Past the front of the buffer every upper-case letter gets its
    underscore. *)
Lemma snake_step_tail i (t : list ascii) :
  0 < i ->
  match t with
  | [] => []
  | c :: t' =>
      (if isupper c
       then if i =? 0 then [tolower c] else [underscore; tolower c]
       else [c])
      ++ flat_map (fun c => if isupper c then [underscore; tolower c] else [c]) t'
  end = flat_map (fun c => if isupper c then [underscore; tolower c] else [c]) t.
Proof.
  intros Hi. destruct t as [|c t']; [reflexivity|].
  destruct (Z.eqb_spec i 0); [lia|reflexivity].
Qed.

Lemma str_snake_case_loop_spec fuel : forall s i h done rest,
  wf s -> script h = [] -> content s = done ++ rest -> sizeof done = i ->
  (List.length rest <= fuel)%nat -> length s + sizeof rest + 1 <= size_half ->
  exists s',
    str_snake_case_loop fuel s i h = Returns (s', h) /\ wf s' /\
    content s' =
      done ++ match rest with
              | [] => []
              | c :: t =>
                  (if isupper c
                   then if i =? 0 then [tolower c] else [underscore; tolower c]
                   else [c])
                  ++ flat_map (fun c => if isupper c then [underscore; tolower c]
                                        else [c]) t
              end.
Proof.
  induction fuel as [|fuel IH]; intros s i h done rest W Hq Hc Hd Hf Hfit;
    pose proof (content_length_wf s W) as Hcl;
    rewrite Hc, List.length_app in Hcl.
  - destruct rest; [|cbn [List.length] in Hf; lia].
    cbn [str_snake_case_loop List.length] in *.
    destruct (Z.ltb_spec i (length s)); [lia|].
    exists s. split; [reflexivity|]. split; [exact W|exact Hc].
  - cbn [str_snake_case_loop].
    destruct rest as [|c t].
    { cbn [List.length] in *. destruct (Z.ltb_spec i (length s)); [lia|].
      exists s. split; [reflexivity|]. split; [exact W|exact Hc]. }
    cbn [List.length] in *.
    destruct (Z.ltb_spec i (length s)); [|lia].
    assert (Hpk : peek (data s) i = c).
    { rewrite peek_content by lia. rewrite Hc, app_nth2 by lia.
      replace (Z.to_nat i - List.length done)%nat with O by lia. reflexivity. }
    rewrite Hpk.
    assert (Hfd : firstn (Z.to_nat i) (done ++ c :: t) = done)
      by (rewrite firstn_app; replace (Z.to_nat i - List.length done)%nat with O by lia;
          cbn [firstn]; rewrite app_nil_r; apply firstn_all2; lia).
    assert (Hsd : skipn (S (Z.to_nat i)) (done ++ c :: t) = t)
      by (rewrite skipn_app; rewrite skipn_all2 by lia;
          replace (S (Z.to_nat i) - List.length done)%nat with 1%nat by lia;
          reflexivity).
    destruct (isupper c) eqn:U.
    + set (s1 := set_data s (poke (data s) i (tolower c))).
      assert (W1 : wf s1) by (apply wf_poke_inside; [exact W|lia]).
      assert (C1 : content s1 = done ++ tolower c :: t)
        by (unfold s1; rewrite content_poke by (assumption || lia);
            now rewrite Hc, Hfd, Hsd).
      destruct (Z.gtb_spec i 0) as [Hpos | Hzero].
      * destruct (str_insert_granted s1 i (lit "_") h) as (s2 & E & W2 & L2 & C2);
          try assumption; try (cbn [s1 set_data length]; lia).
        { cbn [s1 set_data length]. change (strlen (lit "_")) with 1. lia. }
        unfold bind. rewrite E. cbn [snd].
        rewrite (wrap_small (i + 1)) by sizes. rewrite wrap_small by sizes.
        change (strlen (lit "_")) with 1 in L2. cbn [s1 set_data length] in L2.
        destruct (IH s2 (i + 1 + 1) h (done ++ [underscore; tolower c]) t)
          as (s' & E' & W' & C'); try assumption; try lia.
        { rewrite C2, C1, firstn_app, skipn_app.
          replace (Z.to_nat i - List.length done)%nat with O by lia.
          cbn [firstn skipn]. rewrite app_nil_r, firstn_all2, skipn_all2 by lia.
          cbn [app]. rewrite <- app_assoc. reflexivity. }
        { rewrite List.length_app. cbn [List.length]. lia. }
        exists s'. split; [exact E'|]. split; [exact W'|].
        rewrite C', snake_step_tail by lia.
        destruct (Z.eqb_spec i 0); [lia|].
        rewrite <- app_assoc. reflexivity.
      * assert (Hdn : done = [])
          by (destruct done; [reflexivity|cbn [List.length] in Hd; lia]).
        subst done. cbn [List.length] in Hd. change (Z.of_nat 0) with 0 in Hd.
        subst i. rewrite wrap_small by sizes.
        destruct (IH s1 (0 + 1) h [tolower c] t) as (s' & E' & W' & C');
          try assumption; try reflexivity; try (cbn [s1 set_data length]; lia).
        exists s'. split; [exact E'|]. split; [exact W'|].
        rewrite C', snake_step_tail by lia. reflexivity.
    + rewrite wrap_small by sizes.
      destruct (IH s (i + 1) h (done ++ [c]) t) as (s' & E' & W' & C');
        try assumption; try lia.
      { rewrite Hc, <- app_assoc. reflexivity. }
      { rewrite List.length_app. cbn [List.length]. lia. }
      exists s'. split; [exact E'|]. split; [exact W'|].
      rewrite C', snake_step_tail by lia.
      rewrite <- app_assoc. reflexivity.
Qed.

(** X27. [str_snake_case] with an allocator that grants every request:
    the buffer the function's own pointer designates when it returns
    satisfies the invariants and holds the first byte of the content in
    lower case followed, for every further byte, by an underscore and the
    byte in lower case when the byte is an upper-case letter, and by the
    byte itself otherwise. *)
Theorem str_snake_case_inserts_underscores s h :
  wf s -> 2 * length s + 1 <= size_half -> script h = [] ->
  exists s',
    str_snake_case (Some s) h = Returns (Some s', h) /\ wf s' /\
    content s' =
      match content s with
      | [] => []
      | c :: t =>
          tolower c
          :: flat_map (fun c => if isupper c then [underscore; tolower c] else [c]) t
      end.
Proof.
  intros W Hfit Hq. pose proof (content_length_wf s W) as Hcl.
  destruct (str_snake_case_loop_spec (Z.to_nat (length s)) s 0 h [] (content s))
    as (s' & E & W' & C); try assumption; try reflexivity; try lia.
  exists s'. split; [unfold str_snake_case, bind; now rewrite E|].
  split; [exact W'|]. rewrite C. cbn [app Z.eqb].
  destruct (content s) as [|c t]; [reflexivity|].
  destruct (isupper c) eqn:U; cbn [app]; [reflexivity|].
  f_equal. unfold tolower. now rewrite U.
Qed.

Lemma str_snake_case_inserts_underscores_witness :
  exists s',
    str_snake_case (Some hello_world) generous = Returns (Some s', generous) /\
    wf s' /\
    content s' =
      match content hello_world with
      | [] => []
      | c :: t =>
          tolower c
          :: flat_map (fun c => if isupper c then [underscore; tolower c] else [c]) t
      end.
Proof.
  apply (str_snake_case_inserts_underscores hello_world generous).
  - unfold wf, terminated. cbn [length capacity data hello_world].
    repeat split; try (vm_compute; congruence).
  - vm_compute. discriminate.
  - reflexivity.
Defined.

(** ** Camel and Pascal case *)

Lemma tolower_toupper c : tolower (toupper c) = tolower c.
Proof. destruct c as [[] [] [] [] [] [] [] []]; reflexivity. Qed.

Lemma tolower_tolower c : tolower (tolower c) = tolower c.
Proof. destruct c as [[] [] [] [] [] [] [] []]; reflexivity. Qed.

Lemma is_separator_tolower c : is_separator (tolower c) = is_separator c.
Proof. destruct c as [[] [] [] [] [] [] [] []]; reflexivity. Qed.

Lemma islower_toupper c : islower (toupper c) = false.
Proof. destruct c as [[] [] [] [] [] [] [] []]; reflexivity. Qed.

Lemma isupper_tolower c : isupper (tolower c) = false.
Proof. destruct c as [[] [] [] [] [] [] [] []]; reflexivity. Qed.

Lemma separators_modulo_case (a b : list ascii) :
  map tolower a = map tolower b ->
  Forall (fun c => is_separator c = false) b ->
  Forall (fun c => is_separator c = false) a.
Proof.
  revert b. induction a as [|x a IH]; intros [|y b] H Hb; cbn [map] in H;
    try discriminate; constructor.
  - injection H as Hx _. inversion Hb as [|? ? Hy _]; subst.
    rewrite <- is_separator_tolower, Hx, is_separator_tolower. exact Hy.
  - injection H as _ H. inversion Hb; subst. now apply (IH b).
Qed.

Lemma slice_cons d read k :
  0 <= read < sizeof d -> (0 < k)%nat ->
  firstn k (skipn (Z.to_nat read) d)
  = peek d read :: firstn (k - 1) (skipn (Z.to_nat (read + 1)) d).
Proof.
  intros Hr Hk. unfold peek.
  replace (Z.to_nat (read + 1)) with (S (Z.to_nat read)) by lia.
  assert (Hlt : (Z.to_nat read < List.length d)%nat) by lia.
  revert Hlt. generalize (Z.to_nat read) as r. clear Hr.
  induction d as [|x d IH]; intros r Hlt; cbn [List.length] in Hlt; [lia|].
  destruct r as [|r].
  - cbn [skipn nth]. destruct k; [lia|]. cbn [firstn].
    replace (S k - 1)%nat with k by lia. reflexivity.
  - cbn [skipn nth]. apply IH. lia.
Qed.

Lemma skipn_splice_after dst off src k :
  (off <= List.length dst)%nat -> (off + List.length src <= k)%nat ->
  skipn k (splice dst off src) = skipn k dst.
Proof.
  intros Ho Hk. unfold splice.
  rewrite !skipn_app, List.length_firstn, Nat.min_l by lia.
  rewrite (skipn_all2 (firstn off dst)) by (rewrite List.length_firstn; lia).
  rewrite (skipn_all2 src) by lia. cbn [app].
  rewrite skipn_skipn. f_equal. lia.
Qed.

Lemma emit_step d read write x :
  0 <= write <= read -> read < sizeof d ->
  sizeof (poke d write x) = sizeof d /\
  firstn (Z.to_nat (write + 1)) (poke d write x) = firstn (Z.to_nat write) d ++ [x] /\
  skipn (Z.to_nat (read + 1)) (poke d write x) = skipn (Z.to_nat (read + 1)) d.
Proof.
  intros Hw Hr. split; [apply poke_length; lia|]. rewrite poke_as_splice. split.
  - replace (Z.to_nat (write + 1)) with (Z.to_nat write + List.length [x])%nat
      by (cbn [List.length]; lia).
    apply firstn_splice_end. lia.
  - apply skipn_splice_after; cbn [List.length]; lia.
Qed.

Lemma str_camel_case_loop_spec n : forall d len read write flag d' w,
  0 <= write <= read -> read <= len -> len < sizeof d -> sizeof d <= size_half ->
  (Z.to_nat (len - read) <= n)%nat ->
  str_camel_case_loop n d len read write flag = (d', w) ->
  exists out,
    w = write + sizeof out /\
    firstn (Z.to_nat w) d' = firstn (Z.to_nat write) d ++ out /\
    map tolower out
    = map tolower (filter (fun c => negb (is_separator c))
                     (firstn (Z.to_nat (len - read)) (skipn (Z.to_nat read) d))).
Proof.
  induction n as [|n IH]; intros d len read write flag d' w Hw Hr Hl Hd Hn H;
    cbn [str_camel_case_loop] in H.
  - injection H as <- <-. exists []. replace (Z.to_nat (len - read)) with O by lia.
    cbn [List.length firstn filter map]. rewrite app_nil_r. split; [lia|now split].
  - destruct (Z.ltb_spec read len) as [Hlt | Hge].
    2:{ injection H as <- <-. exists [].
        replace (Z.to_nat (len - read)) with O by lia.
        cbn [List.length firstn filter map]. rewrite app_nil_r.
        split; [lia|now split]. }
    rewrite !(wrap_small (read + 1)) in H by sizes.
    rewrite ?(wrap_small (write + 1)) in H by sizes.
    rewrite (slice_cons d read (Z.to_nat (len - read))) by lia.
    replace (Z.to_nat (len - read) - 1)%nat with (Z.to_nat (len - (read + 1))) by lia.
    set (c := peek d read) in *. cbn [filter].
    fold (is_separator c) in H.
    destruct (is_separator c) eqn:S; cbn [negb].
    + apply IH in H; try lia. exact H.
    + assert (Hstep : forall x fl,
                str_camel_case_loop n (poke d write x) len (read + 1) (write + 1) fl
                = (d', w) ->
                tolower x = tolower c ->
                exists out,
                  w = write + sizeof out /\
                  firstn (Z.to_nat w) d' = firstn (Z.to_nat write) d ++ out /\
                  map tolower out
                  = map tolower
                      (c :: filter (fun c => negb (is_separator c))
                              (firstn (Z.to_nat (len - (read + 1)))
                                      (skipn (Z.to_nat (read + 1)) d)))).
      { intros x fl Hx Ex.
        destruct (emit_step d read write x) as (A & B & C); try lia.
        apply IH in Hx; try lia.
        destruct Hx as (out & Ew & Ef & Em). rewrite B, C in *.
        exists (x :: out). split; [cbn [List.length]; lia|].
        split; [rewrite Ef, <- app_assoc; reflexivity|].
        cbn [map]. now rewrite Ex, Em. }
      destruct flag.
      * apply (Hstep _ _ H). apply tolower_toupper.
      * apply (Hstep _ _ H). apply tolower_tolower.
Qed.

Lemma str_pascal_case_loop_spec n : forall d len read write flag d' w,
  0 <= write <= read -> read <= len -> len < sizeof d -> sizeof d <= size_half ->
  (Z.to_nat (len - read) <= n)%nat ->
  str_pascal_case_loop n d len read write flag = (d', w) ->
  exists out,
    w = write + sizeof out /\
    firstn (Z.to_nat w) d' = firstn (Z.to_nat write) d ++ out /\
    map tolower out
    = map tolower (filter (fun c => negb (is_separator c))
                     (firstn (Z.to_nat (len - read)) (skipn (Z.to_nat read) d))) /\
    (flag = true -> islower (hd NUL out) = false).
Proof.
  induction n as [|n IH]; intros d len read write flag d' w Hw Hr Hl Hd Hn H;
    cbn [str_pascal_case_loop] in H.
  - injection H as <- <-. exists []. replace (Z.to_nat (len - read)) with O by lia.
    cbn [List.length firstn filter map]. rewrite app_nil_r.
    split; [lia|]. split; [reflexivity|]. split; reflexivity.
  - destruct (Z.ltb_spec read len) as [Hlt | Hge].
    2:{ injection H as <- <-. exists [].
        replace (Z.to_nat (len - read)) with O by lia.
        cbn [List.length firstn filter map]. rewrite app_nil_r.
        split; [lia|]. split; [reflexivity|]. split; reflexivity. }
    rewrite !(wrap_small (read + 1)) in H by sizes.
    rewrite ?(wrap_small (write + 1)) in H by sizes.
    rewrite (slice_cons d read (Z.to_nat (len - read))) by lia.
    replace (Z.to_nat (len - read) - 1)%nat with (Z.to_nat (len - (read + 1))) by lia.
    set (c := peek d read) in *. cbn [filter].
    fold (is_separator c) in H.
    destruct (is_separator c) eqn:S; cbn [negb].
    + apply IH in H; try lia. destruct H as (out & A & B & C & D).
      exists out. repeat split; try assumption. intros _. now apply D.
    + assert (Hstep : forall x fl,
                str_pascal_case_loop n (poke d write x) len (read + 1) (write + 1) fl
                = (d', w) ->
                tolower x = tolower c ->
                (flag = true -> islower x = false) ->
                exists out,
                  w = write + sizeof out /\
                  firstn (Z.to_nat w) d' = firstn (Z.to_nat write) d ++ out /\
                  map tolower out
                  = map tolower
                      (c :: filter (fun c => negb (is_separator c))
                              (firstn (Z.to_nat (len - (read + 1)))
                                      (skipn (Z.to_nat (read + 1)) d))) /\
                  (flag = true -> islower (hd NUL out) = false)).
      { intros x fl Hx Ex Hfl.
        destruct (emit_step d read write x) as (A & B & C); try lia.
        apply IH in Hx; try lia.
        destruct Hx as (out & Ew & Ef & Em & _). rewrite B, C in *.
        exists (x :: out). split; [cbn [List.length]; lia|].
        split; [rewrite Ef, <- app_assoc; reflexivity|].
        split; [cbn [map]; now rewrite Ex, Em|exact Hfl]. }
      destruct flag.
      * apply (Hstep _ _ H); [apply tolower_toupper|]. intros _. apply islower_toupper.
      * destruct (isupper c && (read + 1 <? len) && islower (peek d (read + 1)));
          apply (Hstep _ _ H); try discriminate;
          [reflexivity|apply tolower_tolower].
Qed.

Lemma Forall_filter_word_bytes (l : list ascii) :
  Forall (fun c => is_separator c = false)
         (filter (fun c => negb (is_separator c)) l).
Proof.
  apply Forall_forall. intros c Hc. apply filter_In in Hc.
  destruct Hc as (_ & Hc). now apply negb_true_iff in Hc.
Qed.

(** X28. On a buffer that is not empty and satisfies the invariants,
    [str_camel_case] puts the first byte in lower case, whatever it is,
    and drops every space and underscore after it; [str_pascal_case]
    drops every space and underscore. The bytes that are kept stay in
    their order and change at most in case; the result of
    [str_pascal_case] does not start with a lower-case letter. Both keep
    the invariants. *)
Theorem case_conversions_drop_separators s c0 t :
  wf s -> content s = c0 :: t ->
  exists cm ps out,
    str_camel_case (Some s) = Some cm /\ str_pascal_case (Some s) = Some ps /\
    wf cm /\ wf ps /\
    content cm = tolower c0 :: out /\
    map tolower out = map tolower (filter (fun c => negb (is_separator c)) t) /\
    Forall (fun c => is_separator c = false) out /\
    map tolower (content ps)
    = map tolower (filter (fun c => negb (is_separator c)) (content s)) /\
    Forall (fun c => is_separator c = false) (content ps) /\
    islower (peek (data ps) 0) = false.
Proof.
  intros W Hc. pose proof (content_length_wf s W) as Hcl.
  rewrite Hc in Hcl. cbn [List.length] in Hcl.
  assert (Hcm : exists cm, str_camel_case (Some s) = Some cm).
  { unfold str_camel_case. destruct (length s =? 0); [eexists; reflexivity|].
    destruct (str_camel_case_loop _ _ _ _ _ _). eexists. reflexivity. }
  assert (Hps : exists ps, str_pascal_case (Some s) = Some ps).
  { unfold str_pascal_case. destruct (length s =? 0); [eexists; reflexivity|].
    destruct (str_pascal_case_loop _ _ _ _ _ _). eexists. reflexivity. }
  destruct Hcm as (cm & Hcm), Hps as (ps & Hps).
  pose proof (str_camel_case_wf s cm W Hcm) as Wcm.
  pose proof (str_pascal_case_wf s ps W Hps) as Wps.
  pose proof Hcm as Hcm0. pose proof Hps as Hps0.
  split_wf W.
  assert (Hsl : peek (data s) 0 = c0 /\
                firstn (Z.to_nat (length s - (0 + 1)))
                       (skipn (Z.to_nat (0 + 1)) (data s)) = t).
  { pose proof (slice_cons (data s) 0 (Z.to_nat (length s)) ltac:(lia) ltac:(lia))
      as Hs.
    change (skipn (Z.to_nat 0) (data s)) with (data s) in Hs.
    fold (content s) in Hs. rewrite Hc in Hs. injection Hs as Hc0 Ht.
    split; [now symmetry|]. rewrite Ht. do 2 f_equal. lia. }
  destruct Hsl as (Hc0 & Ht).
  unfold str_camel_case in Hcm. unfold str_pascal_case in Hps.
  destruct (Z.eqb_spec (length s) 0) as [Hz | Hnz]; [lia|].
  destruct (str_camel_case_loop _ _ _ _ _ _) as [d1 w1] eqn:E1.
  destruct (str_pascal_case_loop _ _ _ _ _ _) as [d2 w2] eqn:E2.
  injection Hcm as <-. injection Hps as <-.
  destruct (emit_step (data s) 0 0 (tolower (peek (data s) 0))) as (A0 & B0 & C0);
    try lia.
  pose proof E1 as I1. pose proof E2 as I2.
  apply str_camel_case_loop_inv in I1; try lia.
  apply str_pascal_case_loop_inv in I2; try lia.
  destruct I1 as (S1 & R1), I2 as (S2 & R2).
  apply str_camel_case_loop_spec in E1; try lia.
  apply str_pascal_case_loop_spec in E2; try lia.
  destruct E1 as (out1 & Ew1 & Ef1 & Em1). destruct E2 as (out2 & Ew2 & Ef2 & Em2 & Eh2).
  change 1 with (0 + 1) in Ef1. change 1 with (0 + 1) in Em1.
  rewrite B0 in Ef1. rewrite C0, Ht in Em1.
  cbn [Z.to_nat firstn app skipn] in Ef1, Ef2, Em2.
  rewrite Z.sub_0_r in Em2. fold (content s) in Em2.
  rewrite Hc0 in *.
  assert (C1 : content {| length := w1; capacity := capacity s; data := poke d1 w1 NUL |}
               = tolower c0 :: out1).
  { unfold content. cbn [length data]. unfold poke.
    rewrite firstn_splice_le by lia. exact Ef1. }
  assert (C2 : content {| length := w2; capacity := capacity s; data := poke d2 w2 NUL |}
               = out2).
  { unfold content. cbn [length data]. unfold poke.
    rewrite firstn_splice_le by lia. exact Ef2. }
  eexists _, _, out1. split; [exact Hcm0|]. split; [exact Hps0|].
  split; [exact Wcm|]. split; [exact Wps|]. split; [exact C1|].
  split; [exact Em1|].
  split; [apply (separators_modulo_case _ _ Em1), Forall_filter_word_bytes|].
  rewrite C2. split; [exact Em2|].
  split; [apply (separators_modulo_case _ _ Em2), Forall_filter_word_bytes|].
  cbn [data]. destruct (Z.eq_dec w2 0) as [-> | Hw].
  - rewrite peek_poke_same by lia. reflexivity.
  - rewrite peek_poke_other by lia.
    replace (peek d2 0) with (hd NUL out2); [now apply Eh2|].
    rewrite <- Ef2. unfold peek. cbn [Z.to_nat].
    destruct d2 as [|x d2]; [cbn [List.length] in S2; lia|].
    destruct (Z.to_nat w2) eqn:Ez; [lia|]. reflexivity.
Qed.

Lemma case_conversions_drop_separators_witness :
  exists cm ps out,
    str_camel_case (Some hello_world) = Some cm /\
    str_pascal_case (Some hello_world) = Some ps /\
    wf cm /\ wf ps /\
    content cm = tolower "H"%char :: out /\
    map tolower out
    = map tolower (filter (fun c => negb (is_separator c)) (lit "ello World")) /\
    Forall (fun c => is_separator c = false) out /\
    map tolower (content ps)
    = map tolower (filter (fun c => negb (is_separator c)) (content hello_world)) /\
    Forall (fun c => is_separator c = false) (content ps) /\
    islower (peek (data ps) 0) = false.
Proof.
  apply (case_conversions_drop_separators hello_world "H"%char (lit "ello World")).
  - unfold wf, terminated. cbn [length capacity data hello_world].
    repeat split; try (vm_compute; congruence).
  - reflexivity.
Defined.

(** ** The fuzz target *)

Lemma str_trim_length s s' :
  wf s -> str_trim (Some s) = Some s' -> length s' <= length s.
Proof.
  intros W H. unfold str_trim in H.
  destruct (Z.eqb_spec (length s) 0) as [Hz | Hnz]; [injection H as <-; lia|].
  split_wf W. rewrite (wrap_small (length s - 1)) in H by sizes.
  pose proof (skip_leading_range (Z.to_nat (length s)) (data s) (length s) 0) as Hs.
  set (start := skip_leading _ _ _ _) in *.
  pose proof (skip_trailing_range (Z.to_nat (length s)) (data s) start (length s - 1)) as He.
  set (e := skip_trailing _ _ _ _) in *.
  assert (Hlen : 0 <= e - start + 1 <= length s) by lia.
  rewrite !wrap_small in H by sizes. injection H as <-. cbn [length]. lia.
Qed.

Lemma process_input_spec (input : cstring) h :
  strlen input + 6 <= size_half ->
  exists r h',
    process_input (Some input) h = Returns ((0, r), h') /\
    match r with
    | None => fst (next_request h) = false
    | Some s => wf s
    end.
Proof.
  intros Hfit. pose proof (strlen_nonneg input) as Hn. unfold process_input.
  destruct (str_new_total (wrap (strlen input + 1)) h) as (r0 & h1 & E0 & Hr0).
  { rewrite wrap_small by sizes. lia. }
  assert (Ef : exists r1, str_from (Some input) h = Returns (r1, h1) /\
                          (r1 = None -> fst (next_request h) = false) /\
                          (forall s1, r1 = Some s1 -> wf s1 /\ length s1 = strlen input)).
  { unfold str_from, bind. rewrite E0. destruct r0 as [s0|]; unfold ret.
    - eexists. split; [reflexivity|]. split; [discriminate|].
      intros s1 [= <-].
      assert (Hrun : str_from (Some input) h = Returns
                (Some {| length := strlen input; capacity := capacity s0;
                         data := memcpy (data s0) 0 (c_bytes input)
                                        (wrap (strlen input + 1)) |}, h1))
        by (unfold str_from, bind; rewrite E0; reflexivity).
      apply str_from_spec in Hrun; [|lia]. split; [apply Hrun|reflexivity].
    - exists None. split; [reflexivity|]. split; [exact Hr0|discriminate]. }
  destruct Ef as (r1 & Ef & Hnone & Hsome).
  unfold bind at 1. rewrite Ef. destruct r1 as [s1|].
  - destruct (Hsome s1 eq_refl) as (W1 & L1).
    assert (Ht : exists s2, str_trim (Some s1) = Some s2)
      by (unfold str_trim; destruct (length s1 =? 0); eexists; reflexivity).
    destruct Ht as (s2 & Ht). rewrite Ht.
    pose proof (str_trim_wf _ _ W1 Ht) as W2.
    pose proof (str_trim_length _ _ W1 Ht) as L2.
    assert (Hv : exists s3, str_reverse_in_place (Some s2) = Some s3)
      by (unfold str_reverse_in_place; destruct (length s2 <? 2); eexists; reflexivity).
    destruct Hv as (s3 & Hv). rewrite Hv.
    pose proof (str_reverse_in_place_wf _ _ W2 Hv) as W3.
    destruct (str_reverse_in_place_content _ _ W2 Hv) as (L3 & _).
    assert (Wl3 : 0 <= length s3) by (destruct W3; lia).
    destruct (str_ensure_capacity_total s3 (wrap (length s3 + strlen (lit "Hello") + 1)) h1)
      as (ok & r & h2 & E).
    { change (strlen (lit "Hello")) with 5. rewrite wrap_small by sizes. lia. }
    destruct (str_ensure_capacity_spec _ _ _ _ _ _ W3 E)
      as [[-> ->] | (-> & s4 & -> & _)].
    + exists (str_to_upper (Some s3)), h2. split.
      * unfold bind, str_append. unfold bind. rewrite E. reflexivity.
      * cbn [str_to_upper]. now apply (str_to_upper_wf s3).
    + assert (Hrun : exists s5, str_append (Some s3) (Some (lit "Hello")) h1
                                = Returns ((true, Some s5), h2))
        by (unfold str_append, bind; rewrite E; eexists; reflexivity).
      destruct Hrun as (s5 & Hrun).
      exists (str_to_upper (Some s5)), h2. split.
      * unfold bind. rewrite Hrun. reflexivity.
      * cbn [str_to_upper]. apply (str_to_upper_wf s5); [|reflexivity].
        apply (str_append_wf s3 (lit "Hello") h1 s5 h2); [exact W3| |exact Hrun].
        vm_compute. reflexivity.
  - exists None, h1. split; [reflexivity|]. now apply Hnone.
Qed.

(** X29. The fuzz target returns 0 for every input of fewer than 2^63 - 6
    bytes, whatever the allocator grants or refuses: no operation it
    calls dereferences a null pointer or stays in a loop. The buffer
    [process_input] hands to [str_free] is null only when the first
    allocation was refused, and satisfies the invariants otherwise. *)
Theorem fuzz_target_returns (data : list ascii) (input : cstring) h :
  sizeof data + 7 <= size_half -> strlen input + 6 <= size_half ->
  (exists h', LLVMFuzzerTestOneInput data (sizeof data) h = Returns (0, h')) /\
  exists r h',
    process_input (Some input) h = Returns ((0, r), h') /\
    match r with
    | None => fst (next_request h) = false
    | Some s => wf s
    end.
Proof.
  intros Hd Hi. split; [|now apply process_input_spec].
  unfold LLVMFuzzerTestOneInput. unfold bind at 1. unfold malloc.
  destruct (next_request h) as [ok h1]. destruct ok; [|eexists; reflexivity].
  rewrite wrap_small by sizes. cbv zeta.
  set (block := repeat (junk h) (Z.to_nat (sizeof data + 1))).
  set (inp := poke (memcpy block 0 data (sizeof data)) (sizeof data) NUL).
  assert (Hb : sizeof block = sizeof data + 1)
    by (unfold block; rewrite repeat_length; lia).
  assert (Hm : sizeof (memcpy block 0 data (sizeof data)) = sizeof block)
    by (apply memcpy_length; lia).
  assert (Hs : strlen inp <= sizeof data).
  { unfold strlen.
    pose proof (c_str_length_nul inp (Z.to_nat (sizeof data))) as Hz.
    assert (Hp : peek inp (sizeof data) = NUL)
      by (unfold inp; apply peek_poke_same; lia).
    unfold peek in Hp. specialize (Hz Hp). lia. }
  destruct (process_input_spec inp h1) as (r & h2 & E & _); [lia|].
  change (@Some cstring inp) with (@Some (list ascii) inp) in E.
  unfold bind. rewrite E. eexists. reflexivity.
Qed.

Lemma fuzz_target_returns_witness :
  (exists h', LLVMFuzzerTestOneInput (lit " ab ") (sizeof (lit " ab ")) exhausted
              = Returns (0, h')) /\
  exists r h',
    process_input (Some (lit " ab ")) generous = Returns ((0, r), h') /\
    match r with
    | None => fst (next_request generous) = false
    | Some s => wf s
    end.
Proof.
  split.
  - apply (fuzz_target_returns (lit " ab ") (lit " ab ") exhausted);
      vm_compute; discriminate.
  - apply (fuzz_target_returns (lit " ab ") (lit " ab ") generous);
      vm_compute; discriminate.
Defined.

(** ** Failure *)

(** X30. A mutating operation that reports a failure has left the
    buffer behind the handle as it was, and only the operations that
    return a [bool] can report one: the three appends, [str_prepend],
    [str_insert], [str_remove] and [str_resize]. *)
Theorem failed_operation_leaves_buffer m s h r h' :
  mutate m s h = Returns ((false, r), h') ->
  r = Some s /\
  match m with
  | Append _ | AppendFmt _ | AppendChar _ | Prepend _ | Insert _ _
  | Remove _ _ | Resize _ => True
  | _ => False
  end.
Proof.
  intros H. split; [now apply (mutate_failure_unchanged m s h r h')|].
  destruct m; try exact I; cbn [mutate] in H;
    try (apply ret_pair_returns in H; destruct H; discriminate);
    apply bind_returns in H; destruct H as (x & h1 & _ & H);
    apply ret_pair_returns in H; destruct H; discriminate.
Qed.

Lemma failed_operation_leaves_buffer_witness :
  mutate (Insert 14 (lit "_")) fifteen exhausted
    = Returns ((false, Some fifteen), generous) /\
  Some fifteen = Some fifteen /\ True.
Proof.
  split; [reflexivity|].
  apply (failed_operation_leaves_buffer (Insert 14 (lit "_")) fifteen exhausted
           (Some fifteen) generous).
  reflexivity.
Defined.

(** ** The test suite of the repository, on the embedding *)

Example test_create_and_basic_ops :
  let s := returned (str_new 0 generous) in
  str_len s = 0 /\ str_capacity s = STR_MIN_CAPACITY /\ str_empty s = true /\
  let s := handle_after (str_append s (Some (lit "Hello")) generous) in
  str_len s = 5 /\ str_empty s = false /\
  let s := handle_after (str_append_char s " "%char generous) in
  text s = Some "Hello "%string /\
  let s := handle_after (str_append s (Some (lit "World!")) generous) in
  text s = Some "Hello World!"%string.
Proof. repeat split. Qed.

Example test_manipulations :
  let s := handle_after (str_prepend (from "Hello World!") (Some (lit "Hey ")) generous) in
  text s = Some "Hey Hello World!"%string /\
  let s := handle_after (str_insert s 4 (Some (lit "there ")) generous) in
  text s = Some "Hey there Hello World!"%string /\
  let s := snd (str_remove s 4 6) in
  text s = Some "Hey Hello World!"%string /\
  let s := handle_after (str_resize s 10 generous) in
  str_len s = 10 /\ text s = Some "Hey Hello "%string.
Proof. repeat split. Qed.

Example test_comparisons :
  str_compare (from "Hello") (from "Hello") = 0 /\
  str_compare (from "Hello") (from "World") < 0 /\
  str_equals (from "Hello") (from "Hello") = true /\
  str_equals (from "Hello") (from "World") = false /\
  str_starts_with (from "Hello") (Some (lit "He")) = true /\
  str_starts_with (from "Hello") (Some (lit "Wo")) = false /\
  str_ends_with (from "Hello") (Some (lit "lo")) = true /\
  str_ends_with (from "Hello") (Some (lit "ld")) = false.
Proof. repeat split. Qed.

Example test_search :
  let s := from "Hello World! Hello Universe!" in
  str_find s (Some (lit "World")) = 6 /\
  str_find s (Some (lit "Goodbye")) = STR_NPOS /\
  str_rfind s (Some (lit "Hello")) = 13 /\
  str_rfind s (Some (lit "Goodbye")) = STR_NPOS.
Proof. repeat split. Qed.

Example test_trim :
  text (str_trim (from "  Hello World!  ")) = Some "Hello World!"%string /\
  text (str_ltrim (from "  Hello World!  ")) = Some "Hello World!  "%string /\
  text (str_rtrim (from "  Hello World!  ")) = Some "  Hello World!"%string.
Proof. repeat split. Qed.

Example test_case_conversions :
  let s := returned (str_snake_case (from "hello_world") generous) in
  text s = Some "hello_world"%string /\
  let s := str_camel_case s in
  text s = Some "helloWorld"%string /\
  let s := str_pascal_case s in
  text s = Some "HelloWorld"%string /\
  let s2 := str_to_lower (from "THE QUICK BROWN FOX") in
  text s2 = Some "the quick brown fox"%string /\
  text (str_to_upper s2) = Some "THE QUICK BROWN FOX"%string.
Proof. repeat split. Qed.

Example test_substring_and_replace :
  let s := from "Hello, World!" in
  text (returned (str_substr s 7 5 generous)) = Some "World"%string /\
  text (returned (str_replace 20 s (Some (lit "World")) (Some (lit "Universe")) generous))
    = Some "Hello, Universe!"%string /\
  text (returned (str_replace_all 20 s (Some (lit "l")) (Some (lit "L")) generous))
    = Some "HeLLo, WorLd!"%string.
Proof. repeat split. Qed.

Example test_split_and_join :
  match str_split 30 (from "Hello,World,Universe") (Some (lit ",")) generous with
  | Returns (Some tokens, _) =>
      map (fun t => text (Some t)) tokens
        = [Some "Hello"%string; Some "World"%string; Some "Universe"%string] /\
      text (returned (str_join (Some (map Some tokens)) 3 (Some (lit ",")) generous))
        = Some "Hello,World,Universe"%string
  | _ => False
  end /\
  match str_split 30 (from "apple|banana|cherry|date") (Some (lit "|")) generous with
  | Returns (Some tokens, _) =>
      List.length tokens = 4%nat /\
      text (returned (str_join (Some (map Some tokens)) 4 (Some (lit " - ")) generous))
        = Some "apple - banana - cherry - date"%string
  | _ => False
  end.
Proof. vm_compute. repeat split. Qed.

Example test_reverse :
  text (returned (str_reverse (from "Hello, World!") generous)) = Some "!dlroW ,olleH"%string /\
  text (str_reverse_in_place (from "Hello, World!")) = Some "!dlroW ,olleH"%string /\
  match str_remove_all 30 (from "A man a plan a canal Panama") (Some (lit " ")) with
  | Returns (_, palindrome) =>
      let palindrome := str_to_lower palindrome in
      str_equals palindrome (returned (str_reverse palindrome generous)) = true
  | _ => False
  end.
Proof. vm_compute. repeat split. Qed.
